(** * MindMap: the layout engine, the session clock and the move counter

    A shallow embedding of the logic of
    [frontend/src/components/GameScreen.tsx] (the function
    [assignPositionsToNodes], the timer effect with [calculateTimeLeft],
    and the handler [handleAddConnection]) and of
    [frontend/src/components/Gameboard.tsx] ([handleAddNode]).
    Around them: the drawing of the map and the form of the game screen
    ([renderMindMap], the header and the footer), the reset of the board,
    and the components [Timer] and [InputForm].

    - Numbers.  The layout engine uses the arithmetic of JavaScript through
      an interface ([Number]), so what is proved about the layout holds
      for every interpretation of [+], [-], [*], [/], [Math.cos],
      [Math.sin] and [Math.PI], IEEE doubles included.  The counters of
      the code ([depth], [childIndex], [children.length]) are natural
      numbers, converted where they enter the arithmetic.  Where a
      statement needs the values of the trigonometric functions, the
      interface is instantiated with the real numbers.  That the numbers
      of the layout are finite is stated for every arithmetic with the
      laws of [BoundedArith], which are laws of the IEEE doubles.
      Instants and durations are rational numbers.
    - [Math.random] is the sequence of the values that its successive
      calls return.
    - Objects used as maps are finite maps from strings; an object whose
      order of enumeration matters is the list of its entries in that
      order.  In a map that the code builds by assignments the entry at
      the key [__proto__] stands for the prototype of the object, which an
      assignment at that key sets and a read at that key returns; the
      properties that an enumeration finds are [own_properties].
    - React state is a record, a state setter a function on it, and the
      [await] of [handleAddConnection] splits the handler in the part
      that runs before the request and the part that runs on the answer. *)

From Stdlib Require Import ZArith QArith Qround Qminmax Reals Psatz Ascii String.
From stdpp Require Import base gmap sets list strings pretty.

(* [set_solver] clears hypotheses by name, some of which are gone by then. *)
Set Warnings "-clear-no-such-hyp".

(** ** Numbers *)

Class Number (num : Type) := {
  of_Z : Z → num;            (* an integer literal, or an integer counter *)
  lit_0_5 : num;             (* the literal 0.5 *)
  lit_1_5 : num;             (* the literal 1.5 *)
  add : num → num → num;
  sub : num → num → num;
  mul : num → num → num;
  div : num → num → num;
  Math_cos : num → num;
  Math_sin : num → num;
  Math_PI : num
}.

Declare Scope num_scope.
Delimit Scope num_scope with num.
Infix "+" := add : num_scope.
Infix "-" := sub : num_scope.
Infix "*" := mul : num_scope.
Infix "/" := div : num_scope.

(** [Math.random]: the values that the successive calls return. *)
Definition Random (num : Type) := nat → num.

Definition Math_random {num} (r : Random num) : num * Random num :=
  (r 0, λ i, r (S i)).

(** ** Data model *)

Module BackendWordNode.
Record t := mk {
  id : string;
  word : string;
  parent_id : option string   (* [None]: undefined or null *)
}.
End BackendWordNode.

Module WordNode.
Record t (num : Type) := mk {
  id : string;
  word : string;
  parent_id : option string;
  x : num;
  y : num
}.
Arguments mk {num} _ _ _ _ _.
Arguments id {num} _.
Arguments word {num} _.
Arguments parent_id {num} _.
Arguments x {num} _.
Arguments y {num} _.
End WordNode.

(** [Record<string, BackendWordNode>] as received from the backend: the
    entries in the order in which [Object.values] enumerates them. *)
Definition BackendNodes := list (string * BackendWordNode.t).

Definition Object_values (backendNodes : BackendNodes) : list BackendWordNode.t :=
  map snd backendNodes.

(** The own properties of an object that assignments [object[key] = value]
    have built.  An assignment to the key [__proto__] sets the prototype of
    the object and adds no property: in the maps of this file the entry at
    that key stands for the prototype, which a property read
    [object["__proto__"]] finds and an enumeration of the object
    ([Object.keys], [Object.values]) does not. *)
Definition own_properties {A : Type} (m : gmap string A) : gmap string A :=
  delete "__proto__" m.

(** [!n.parent_id]: undefined, null and the empty string are falsy. *)
Definition no_parent (n : BackendWordNode.t) : bool :=
  match BackendWordNode.parent_id n with
  | None => true
  | Some p => bool_decide (p = "")
  end.

(** [n.parent_id === nodeId] *)
Definition is_child_of (nodeId : string) (n : BackendWordNode.t) : Prop :=
  BackendWordNode.parent_id n = Some nodeId.

Global Instance is_child_of_dec nodeId n : Decision (is_child_of nodeId n).
Proof. unfold is_child_of. apply _. Defined.

(** The identifiers of the nodes, in their order. *)
Definition ids (nodes : list BackendWordNode.t) : list string :=
  BackendWordNode.id <$> nodes.

(** A property of numbers that the arithmetic of the layout preserves:
    [valid] holds of the literals and is kept by the operations the layout
    applies (a division only ever has a positive integer as its divisor).
    It is what is known of a coordinate that the layout has computed
    ([entry_of]); the magnitude of the numbers is the matter of
    [BoundedArith]. *)
Class ValidArith {num : Type} `{Number num} (valid : num → Prop) : Prop := {
  valid_of_Z z : valid (of_Z z);
  valid_lit_0_5 : valid lit_0_5;
  valid_lit_1_5 : valid lit_1_5;
  valid_add a b : valid a → valid b → valid (add a b);
  valid_mul a b : valid a → valid b → valid (mul a b);
  valid_div a z : valid a → (0 < z)%Z → valid (div a (of_Z z));
  valid_cos a : valid a → valid (Math_cos a);
  valid_sin a : valid a → valid (Math_sin a);
  valid_PI : valid Math_PI
}.

(** [Number.MAX_SAFE_INTEGER]: up to it the integers are numbers, exactly. *)
Definition MAX_SAFE_INTEGER : Z := 2 ^ 53 - 1.

Section Bounded.
Local Open Scope Z_scope.

(** What the layout needs of the arithmetic for its numbers to stay
    finite.  [bounded B a]: [a] is a finite number, of magnitude [B] at
    most.  The laws hold of the IEEE doubles of JavaScript: the integers
    up to [MAX_SAFE_INTEGER] are doubles, a sum, a product and a quotient
    are the exact result rounded to the nearest double, which keeps the
    order, so that the result is bounded by an integer that bounds the
    exact result; and the cosine and the sine of a finite number are
    between -1 and 1.  Beyond [MAX_SAFE_INTEGER] the laws promise nothing:
    a result may overflow. *)
Class BoundedArith {num : Type} `{Number num} (bounded : Z → num → Prop) : Prop := {
  bounded_mono B B' a : bounded B a → B ≤ B' → bounded B' a;
  bounded_of_Z z : Z.abs z ≤ MAX_SAFE_INTEGER → bounded (Z.abs z) (of_Z z);
  bounded_lit_0_5 : bounded 1 lit_0_5;
  bounded_lit_1_5 : bounded 2 lit_1_5;
  bounded_add B1 B2 a b :
    bounded B1 a → bounded B2 b → B1 + B2 ≤ MAX_SAFE_INTEGER →
    bounded (B1 + B2) (add a b);
  bounded_mul B1 B2 a b :
    bounded B1 a → bounded B2 b → B1 * B2 ≤ MAX_SAFE_INTEGER →
    bounded (B1 * B2) (mul a b);
  bounded_div B a z :
    bounded B a → B ≤ MAX_SAFE_INTEGER → 0 < z ≤ MAX_SAFE_INTEGER →
    bounded B (div a (of_Z z));
  bounded_cos B a : bounded B a → bounded 1 (Math_cos a);
  bounded_sin B a : bounded B a → bounded 1 (Math_sin a);
  bounded_PI : bounded 4 Math_PI
}.

(** A bound on the magnitude of the coordinates that the layout computes
    for a node at the depth [d], and so for a map of [d] nodes. *)
Definition reach (d : nat) : Z := 500 + 100 * Z.of_nat d * (Z.of_nat d + 1).

End Bounded.

Section Layout.
Context {num : Type} `{Number num}.
Local Open Scope num_scope.

Definition NODE_OFFSET_X : num := of_Z 100.
Definition NODE_OFFSET_Y : num := of_Z 50.
Definition NODE_AREA_WIDTH : num := of_Z 500.
Definition NODE_AREA_HEIGHT : num := of_Z 400.

(** [{ ...node, x: px, y: py }] *)
Definition positioned (node : BackendWordNode.t) (px py : num) : WordNode.t num :=
  WordNode.mk (BackendWordNode.id node) (BackendWordNode.word node)
              (BackendWordNode.parent_id node) px py.

(** [existingNodes?.[id]] *)
Definition existing_entry (existingNodes : option (gmap string (WordNode.t num)))
    (i : string) : option (WordNode.t num) :=
  match existingNodes with
  | None => None
  | Some m => m !! i
  end.

(** [{ ...node, x: existingNodes?.[node.id]?.x ?? px,
                y: existingNodes?.[node.id]?.y ?? py }] *)
Definition keep_or_place (existingNodes : option (gmap string (WordNode.t num)))
    (node : BackendWordNode.t) (px py : num) : WordNode.t num :=
  match existing_entry existingNodes (BackendWordNode.id node) with
  | Some e => positioned node (WordNode.x e) (WordNode.y e)
  | None => positioned node px py
  end.

(** The branch taken when no root is found: one row, 100 apart. *)
Fixpoint place_in_row (existingNodes : option (gmap string (WordNode.t num)))
    (nodesToProcess : list BackendWordNode.t) (currentX currentY : num)
    (positionedNodes : gmap string (WordNode.t num)) : gmap string (WordNode.t num) :=
  match nodesToProcess with
  | [] => positionedNodes
  | node :: rest =>
      place_in_row existingNodes rest (currentX + of_Z 100) currentY
        (<[BackendWordNode.id node := keep_or_place existingNodes node currentX currentY]>
           positionedNodes)
  end.

(** An element of the array [queue]. *)
Record QueueItem := mkItem {
  nodeId : string;
  parentX : num;
  parentY : num;
  depth : nat
}.

(** The mutable locals of the traversal.  [queue] is the whole array:
    the code never removes an element, it advances the index [head]. *)
Record LayoutState := mkState {
  positionedNodes : gmap string (WordNode.t num);
  assigned : gset string;
  queue : list QueueItem
}.

Definition angle_of (childrenCount childIndex : nat) : num :=
  (Math_PI / of_Z (Z.of_nat (childrenCount + 1))) * of_Z (Z.of_nat (childIndex + 1)).

Definition offsetX_of (childrenCount childIndex depth : nat) : num :=
  Math_cos (angle_of childrenCount childIndex) * NODE_OFFSET_X
    * of_Z (Z.of_nat (depth + 1)) * lit_0_5.

Definition offsetY_of (childrenCount childIndex : nat) : num :=
  Math_sin (angle_of childrenCount childIndex) * NODE_OFFSET_Y * lit_1_5.

(** The body of [if (!assigned.has(child.id))]. *)
Definition place_child (existingNodes : option (gmap string (WordNode.t num)))
    (child : BackendWordNode.t) (childrenCount : nat)
    (pX pY : num) (d : nat) (childIndex : nat) (st : LayoutState) : LayoutState :=
  let childX := pX + offsetX_of childrenCount childIndex d in
  let childY := pY + offsetY_of childrenCount childIndex in
  {| positionedNodes :=
       <[BackendWordNode.id child := keep_or_place existingNodes child childX childY]>
         (positionedNodes st);
     assigned := {[BackendWordNode.id child]} ∪ assigned st;
     queue := queue st ++ [mkItem (BackendWordNode.id child) childX childY (d + 1)] |}.

(** The [for (const child of children)] loop of one dequeued element. *)
Fixpoint place_children (existingNodes : option (gmap string (WordNode.t num)))
    (children : list BackendWordNode.t) (childrenCount : nat)
    (pX pY : num) (d : nat) (childIndex : nat) (st : LayoutState) : LayoutState :=
  match children with
  | [] => st
  | child :: rest =>
      if decide (BackendWordNode.id child ∈ assigned st) then
        place_children existingNodes rest childrenCount pX pY d childIndex st
      else
        place_children existingNodes rest childrenCount pX pY d (childIndex + 1)
          (place_child existingNodes child childrenCount pX pY d childIndex st)
  end.

(** The body of the [while] loop for the element [item = queue[head]]. *)
Definition visit (existingNodes : option (gmap string (WordNode.t num)))
    (nodesToProcess : list BackendWordNode.t) (item : QueueItem)
    (st : LayoutState) : LayoutState :=
  let children := filter (is_child_of (nodeId item)) nodesToProcess in
  place_children existingNodes children (length children)
    (parentX item) (parentY item) (depth item) 0 st.

(** [while (head < queue.length)]; [None] when the fuel runs out. *)
Fixpoint traverse (fuel : nat) (existingNodes : option (gmap string (WordNode.t num)))
    (nodesToProcess : list BackendWordNode.t) (head : nat)
    (st : LayoutState) : option LayoutState :=
  match fuel with
  | O => None
  | S fuel' =>
      match queue st !! head with
      | None => Some st
      | Some item =>
          traverse fuel' existingNodes nodesToProcess (S head)
            (visit existingNodes nodesToProcess item st)
      end
  end.

(** The body of the final loop for a node that is not assigned.
    [Math.random] is called only when the node has no existing position,
    first for [x], then for [y]. *)
Definition place_missed_node (existingNodes : option (gmap string (WordNode.t num)))
    (node : BackendWordNode.t) (rnd : Random num)
    (st : LayoutState) : LayoutState * Random num :=
  match existing_entry existingNodes (BackendWordNode.id node) with
  | Some e =>
      ({| positionedNodes :=
            <[BackendWordNode.id node := positioned node (WordNode.x e) (WordNode.y e)]>
              (positionedNodes st);
          assigned := {[BackendWordNode.id node]} ∪ assigned st;
          queue := queue st |}, rnd)
  | None =>
      let '(r1, rnd1) := Math_random rnd in
      let '(r2, rnd2) := Math_random rnd1 in
      ({| positionedNodes :=
            <[BackendWordNode.id node :=
                positioned node (r1 * NODE_AREA_WIDTH) (r2 * NODE_AREA_HEIGHT)]>
              (positionedNodes st);
          assigned := {[BackendWordNode.id node]} ∪ assigned st;
          queue := queue st |}, rnd2)
  end.

(** The final loop, over the nodes the traversal missed. *)
Fixpoint place_missed (existingNodes : option (gmap string (WordNode.t num)))
    (nodesToProcess : list BackendWordNode.t) (rnd : Random num)
    (st : LayoutState) : LayoutState :=
  match nodesToProcess with
  | [] => st
  | node :: rest =>
      if decide (BackendWordNode.id node ∈ assigned st) then
        place_missed existingNodes rest rnd st
      else
        let '(st1, rnd1) := place_missed_node existingNodes node rnd st in
        place_missed existingNodes rest rnd1 st1
  end.

Definition rootX : num := NODE_AREA_WIDTH / of_Z 2.
Definition rootY : num := of_Z 50.

(** The state when the [while] loop is entered. *)
Definition start_state (rootNodeBackend : BackendWordNode.t) : LayoutState :=
  {| positionedNodes :=
       <[BackendWordNode.id rootNodeBackend := positioned rootNodeBackend rootX rootY]> ∅;
     assigned := {[BackendWordNode.id rootNodeBackend]};
     queue := [mkItem (BackendWordNode.id rootNodeBackend) rootX rootY 0] |}.

(** The traversal from the root: the state when the [while] loop exits. *)
Definition traversal (existingNodes : option (gmap string (WordNode.t num)))
    (nodesToProcess : list BackendWordNode.t)
    (rootNodeBackend : BackendWordNode.t) : option LayoutState :=
  traverse (S (length nodesToProcess)) existingNodes nodesToProcess 0
    (start_state rootNodeBackend).

Definition assignPositionsToNodes (rnd : Random num) (backendNodes : BackendNodes)
    (existingNodes : option (gmap string (WordNode.t num)))
    : option (gmap string (WordNode.t num)) :=
  let nodesToProcess := Object_values backendNodes in
  match find no_parent nodesToProcess with
  | None =>
      Some (place_in_row existingNodes nodesToProcess (of_Z 50) (of_Z 50) ∅)
  | Some rootNodeBackend =>
      match traversal existingNodes nodesToProcess rootNodeBackend with
      | None => None
      | Some st =>
          Some (positionedNodes (place_missed existingNodes nodesToProcess rnd st))
      end
  end.

(** The maps of positions that a session shows one after the other, of
    [N] nodes at most: [startGame] lays out the first without existing
    positions, [handleAddConnection] each later one with the positions of
    the one before.  [Math.random] returns numbers of magnitude 1 at
    most. *)
Inductive snapshot (bounded : Z → num → Prop) (N : nat)
    : gmap string (WordNode.t num) → Prop :=
  | snapshot_start (rnd : Random num) (backendNodes : BackendNodes) res :
      (∀ n, bounded 1%Z (rnd n)) →
      length backendNodes ≤ N →
      assignPositionsToNodes rnd backendNodes None = Some res →
      snapshot bounded N res
  | snapshot_connect (rnd : Random num) (backendNodes : BackendNodes) prev res :
      snapshot bounded N prev →
      (∀ n, bounded 1%Z (rnd n)) →
      length backendNodes ≤ N →
      assignPositionsToNodes rnd backendNodes (Some prev) = Some res →
      snapshot bounded N res.

(** *** Notions used to state what the traversal does *)

Definition queue_ids (st : LayoutState) : list string := nodeId <$> queue st.

(** The three locals of the traversal agree with each other: the keys
    of [positionedNodes] are the set [assigned], which holds the
    identifiers in the queue, each once, all of them identifiers of
    nodes. *)
Record WF (nodes : list BackendWordNode.t) (st : LayoutState) : Prop := {
  wf_dom : dom (positionedNodes st) = assigned st;
  wf_queue : assigned st = list_to_set (queue_ids st);
  wf_nodup : NoDup (queue_ids st);
  wf_sub : ∀ i, i ∈ assigned st → i ∈ ids nodes
}.

(** [st'] is [st] after more of the loops has run: the queue has grown
    at its end, and what was assigned has kept its entry. *)
Record extends (st st' : LayoutState) : Prop := {
  ext_queue : queue st `prefix_of` queue st';
  ext_assigned : assigned st ⊆ assigned st';
  ext_positioned : ∀ i, i ∈ assigned st → positionedNodes st' !! i = positionedNodes st !! i
}.

(** Where an entry of the result for the node [c] comes from: the
    existing position when there is one, a computed one otherwise. *)
Definition entry_of (existing : option (gmap string (WordNode.t num)))
    (valid : num → Prop) (c : BackendWordNode.t) (w : WordNode.t num) : Prop :=
  match existing_entry existing (BackendWordNode.id c) with
  | Some e => w = positioned c (WordNode.x e) (WordNode.y e)
  | None => ∃ px py, valid px ∧ valid py ∧ w = positioned c px py
  end.

(** The entry [w] at the key [i] is the root at its anchor, or the
    entry of a node with the identifier [i]. *)
Definition provenance (existing : option (gmap string (WordNode.t num)))
    (valid : num → Prop) (nodes : list BackendWordNode.t)
    (root : option BackendWordNode.t) (i : string) (w : WordNode.t num) : Prop :=
  (∃ r, root = Some r ∧ i = BackendWordNode.id r ∧ w = positioned r rootX rootY)
  ∨ (∃ c, c ∈ nodes ∧ BackendWordNode.id c = i ∧ entry_of existing valid c w).

Definition valid_item (valid : num → Prop) (item : QueueItem) : Prop :=
  valid (parentX item) ∧ valid (parentY item).

(** What the traversal keeps true of the entries and of the queue. *)
Definition sound (valid : num → Prop)
    (existing : option (gmap string (WordNode.t num)))
    (nodes : list BackendWordNode.t) (root : BackendWordNode.t)
    (st : LayoutState) : Prop :=
  (∀ i w, positionedNodes st !! i = Some w →
          provenance existing valid nodes (Some root) i w)
  ∧ (∀ item, item ∈ queue st → valid_item valid item).

(** The coordinates of the entry are finite, of magnitude [B] at most. *)
Definition bounded_entry (bounded : Z → num → Prop) (B : Z) (w : WordNode.t num) : Prop :=
  bounded B (WordNode.x w) ∧ bounded B (WordNode.y w).

(** What the traversal keeps true of the magnitudes: the entries are
    bounded by [B], and an element of the queue has a depth below the
    length of the queue and coordinates within the reach of that depth. *)
Definition bounded_state (bounded : Z → num → Prop) (B : Z) (st : LayoutState) : Prop :=
  (∀ i w, positionedNodes st !! i = Some w → bounded_entry bounded B w)
  ∧ (∀ item, item ∈ queue st →
       depth item < length (queue st)
       ∧ bounded (reach (depth item)) (parentX item)
       ∧ bounded (reach (depth item)) (parentY item)).

(** The children of the elements before [head] are all assigned. *)
Definition processed (nodes : list BackendWordNode.t) (head : nat)
    (st : LayoutState) : Prop :=
  ∀ j item c, j < head → queue st !! j = Some item →
    c ∈ nodes → is_child_of (nodeId item) c →
    BackendWordNode.id c ∈ assigned st.

(** An assigned identifier is the root's, or that of a child of an
    element before [head]. *)
Definition origin (nodes : list BackendWordNode.t) (root : BackendWordNode.t)
    (head : nat) (st : LayoutState) : Prop :=
  ∀ i, i ∈ assigned st →
    i = BackendWordNode.id root
    ∨ ∃ j item c, j < head ∧ queue st !! j = Some item ∧ c ∈ nodes
        ∧ BackendWordNode.id c = i ∧ is_child_of (nodeId item) c.

(** The invariant of the [while] loop. *)
Definition loop_inv (nodes : list BackendWordNode.t) (root : BackendWordNode.t)
    (head : nat) (st : LayoutState) : Prop :=
  WF nodes st ∧ head ≤ length (queue st) ∧ extends (start_state root) st
  ∧ processed nodes head st ∧ origin nodes root head st.

(** [childX] and [childY] for the [k]-th of the [n] children of [item]. *)
Definition childX_of (item : QueueItem) (n k : nat) : num :=
  parentX item + offsetX_of n k (depth item).
Definition childY_of (item : QueueItem) (n k : nat) : num :=
  parentY item + offsetY_of n k.

(** The children of the elements before [head] are where the formula
    puts them, and they are in the queue with these coordinates. *)
Definition placed (existing : option (gmap string (WordNode.t num)))
    (nodes : list BackendWordNode.t) (head : nat) (st : LayoutState) : Prop :=
  ∀ j item k c, j < head → queue st !! j = Some item →
    filter (is_child_of (nodeId item)) nodes !! k = Some c →
    let n := length (filter (is_child_of (nodeId item)) nodes) in
    positionedNodes st !! BackendWordNode.id c
      = Some (keep_or_place existing c (childX_of item n k) (childY_of item n k))
    ∧ mkItem (BackendWordNode.id c) (childX_of item n k) (childY_of item n k)
             (depth item + 1) ∈ queue st.

(** The array [queue] when the [while] loop exits (empty when no root
    is found). *)
Definition layout_queue (existing : option (gmap string (WordNode.t num)))
    (backendNodes : BackendNodes) : list QueueItem :=
  match find no_parent (Object_values backendNodes) with
  | Some root =>
      match traversal existing (Object_values backendNodes) root with
      | Some st => queue st
      | None => []
      end
  | None => []
  end.

(** Every element of the queue carries the coordinates of its entry. *)
Definition fresh_coords (st : LayoutState) : Prop :=
  ∀ item, item ∈ queue st →
    ∃ w, positionedNodes st !! nodeId item = Some w
         ∧ WordNode.x w = parentX item ∧ WordNode.y w = parentY item.

End Layout.

(** Reachability from the root by parent links. *)
Inductive Reachable (nodesToProcess : list BackendWordNode.t) (rootId : string)
    : string → Prop :=
  | Reachable_root : Reachable nodesToProcess rootId rootId
  | Reachable_child (p : string) (c : BackendWordNode.t) :
      Reachable nodesToProcess rootId p →
      c ∈ nodesToProcess →
      is_child_of p c →
      Reachable nodesToProcess rootId (BackendWordNode.id c).

(** ** The real numbers as numbers *)

Definition RealNumber : Number R := {|
  of_Z := IZR;
  lit_0_5 := (1 / 2)%R;
  lit_1_5 := (3 / 2)%R;
  add := Rplus;
  sub := Rminus;
  mul := Rmult;
  div := Rdiv;
  Math_cos := cos;
  Math_sin := sin;
  Math_PI := PI
|}.

(** Real numbers with an overflow.  [NaN] stands for what is not a finite
    number: a result beyond [overflow_threshold] in magnitude, a division
    by zero, and whatever is computed from one of these. *)
Inductive Value := Finite (r : R) | NaN.

(** The magnitude beyond which a result is no finite number. *)
Definition overflow_threshold : R := IZR (2 ^ 1024).

Definition checked (r : R) : Value :=
  if Rle_dec (Rabs r) overflow_threshold then Finite r else NaN.

Definition lift1 (f : R → R) (a : Value) : Value :=
  match a with Finite r => checked (f r) | NaN => NaN end.

Definition lift2 (f : R → R → R) (a b : Value) : Value :=
  match a, b with Finite r, Finite s => checked (f r s) | _, _ => NaN end.

Definition Value_div (a b : Value) : Value :=
  match a, b with
  | Finite r, Finite s => if Req_dec_T s 0 then NaN else checked (r / s)%R
  | _, _ => NaN
  end.

Definition ValueNumber : Number Value := {|
  of_Z := λ z, checked (IZR z);
  lit_0_5 := Finite (1 / 2)%R;
  lit_1_5 := Finite (3 / 2)%R;
  add := lift2 Rplus;
  sub := lift2 Rminus;
  mul := lift2 Rmult;
  div := Value_div;
  Math_cos := lift1 cos;
  Math_sin := lift1 sin;
  Math_PI := Finite PI
|}.

(** A finite number of magnitude [B] at most. *)
Definition bounded_value (B : Z) (v : Value) : Prop :=
  match v with Finite r => (Rabs r <= IZR B)%R | NaN => False end.

(** Three points of the plane on one line. *)
Definition colinear (a b c : R * R) : Prop :=
  ((b.1 - a.1) * (c.2 - a.2) - (b.2 - a.2) * (c.1 - a.1) = 0)%R.

Definition point (w : WordNode.t R) : R * R := (WordNode.x w, WordNode.y w).

(** The place of the [k]-th of three children of the root, over the
    real numbers. *)
Definition fan_point (k : nat) : R * R :=
  (rootX (H := RealNumber) + offsetX_of (H := RealNumber) 3 k 0,
   rootY (H := RealNumber) + offsetY_of (H := RealNumber) 3 k)%R.

(** ** The game screen *)

Module BackendGameState.
Record t := mk {
  game_id : string;
  puzzle_id : string;
  start_word : string;
  theme : string;
  time_limit_seconds : Q;
  start_time : option Q;      (* [None]: undefined or null *)
  nodes : BackendNodes;
  connections : list (string * string);
  score : Q;
  is_active : bool
}.
End BackendGameState.

Module GameState.
Record t (num : Type) := mk {
  game_id : string;
  puzzle_id : string;
  start_word : string;
  theme : string;
  time_limit_seconds : Q;
  start_time : option Q;
  nodes : gmap string (WordNode.t num);
  connections : list (string * string);
  score : Q;
  is_active : bool
}.
Arguments mk {num} _ _ _ _ _ _ _ _ _ _.
Arguments game_id {num} _.
Arguments puzzle_id {num} _.
Arguments start_word {num} _.
Arguments theme {num} _.
Arguments time_limit_seconds {num} _.
Arguments start_time {num} _.
Arguments nodes {num} _.
Arguments connections {num} _.
Arguments score {num} _.
Arguments is_active {num} _.

(** [{ ...prev, is_active: false }] *)
Definition deactivate {num} (prev : t num) : t num :=
  mk (game_id prev) (puzzle_id prev) (start_word prev) (theme prev)
     (time_limit_seconds prev) (start_time prev) (nodes prev)
     (connections prev) (score prev) false.

(** [{ ...updatedBackendState, nodes: positionedNodes }] *)
Definition of_backend {num} (b : BackendGameState.t)
    (positionedNodes : gmap string (WordNode.t num)) : t num :=
  mk (BackendGameState.game_id b) (BackendGameState.puzzle_id b)
     (BackendGameState.start_word b) (BackendGameState.theme b)
     (BackendGameState.time_limit_seconds b) (BackendGameState.start_time b)
     positionedNodes
     (BackendGameState.connections b) (BackendGameState.score b)
     (BackendGameState.is_active b).
End GameState.

(** [String.prototype.trim], for the white space of ASCII. *)
Definition is_white_space (c : ascii) : bool :=
  let n := nat_of_ascii c in
  ((9 <=? n) && (n <=? 13)) || (n =? 32).

Fixpoint trim_start (s : list ascii) : list ascii :=
  match s with
  | [] => []
  | c :: s' => if is_white_space c then trim_start s' else s
  end.

Definition trim (s : string) : string :=
  string_of_list_ascii
    (rev (trim_start (rev (trim_start (list_ascii_of_string s))))).

(** The answer to [fetch(.../connect)] as the handler sees it. *)
Inductive Response :=
  | ResponseOk (body : BackendGameState.t)
  | ResponseNotOk (status : Z) (detail : option string)
  | FetchThrew (message : string).

(** The body of the POST request. *)
Record ConnectRequest := mkRequest {
  request_game_id : string;
  parent_node_id : string;
  new_word : string
}.

(** [Math.round] on a rational: the nearest integer, halves upwards. *)
Definition Math_round (q : Q) : Z := Qfloor (q + (1 # 2)).

Section GameScreen.
Context {num : Type} `{Number num}.

(** The React state of the component. *)
Record GameScreen := mkScreen {
  gameState : option (GameState.t num);
  selectedNodeId : option string;
  newWord : string;
  error : option string;
  isLoading : bool;
  timeLeft : option Z;
  hasLoaded : bool
}.

Definition setGameState (f : option (GameState.t num) → option (GameState.t num))
    (s : GameScreen) : GameScreen :=
  mkScreen (f (gameState s)) (selectedNodeId s) (newWord s) (error s)
           (isLoading s) (timeLeft s) (hasLoaded s).

Definition setNewWord (w : string) (s : GameScreen) : GameScreen :=
  mkScreen (gameState s) (selectedNodeId s) w (error s)
           (isLoading s) (timeLeft s) (hasLoaded s).

Definition setError (e : option string) (s : GameScreen) : GameScreen :=
  mkScreen (gameState s) (selectedNodeId s) (newWord s) e
           (isLoading s) (timeLeft s) (hasLoaded s).

Definition setIsLoading (b : bool) (s : GameScreen) : GameScreen :=
  mkScreen (gameState s) (selectedNodeId s) (newWord s) (error s)
           b (timeLeft s) (hasLoaded s).

Definition setTimeLeft (t : option Z) (s : GameScreen) : GameScreen :=
  mkScreen (gameState s) (selectedNodeId s) (newWord s) (error s)
           (isLoading s) t (hasLoaded s).

(** [prev => prev ? { ...prev, is_active: false } : null] *)
Definition set_inactive (prev : option (GameState.t num)) : option (GameState.t num) :=
  match prev with
  | Some g => Some (GameState.deactivate g)
  | None => None
  end.

(** [start_time || now]: null, undefined and 0 are falsy. *)
Definition start_or (start_time : option Q) (now : Q) : Q :=
  match start_time with
  | Some t => if Qeq_bool t 0 then now else t
  | None => now
  end.

Definition elapsed (g : GameState.t num) (now : Q) : Q :=
  (now - start_or (GameState.start_time g) now)%Q.

(** [Math.max(0, gameState.time_limit_seconds - elapsed)] *)
Definition remaining (g : GameState.t num) (now : Q) : Q :=
  Qmax 0 (GameState.time_limit_seconds g - elapsed g now)%Q.

(** [calculateTimeLeft], called at the instant [now] (in seconds) from
    the closure of the render whose state was [g]. *)
Definition calculateTimeLeft (g : GameState.t num) (now : Q) (s : GameScreen) : GameScreen :=
  let s1 := setTimeLeft (Some (Math_round (remaining g now))) s in
  if Qle_bool (remaining g now) 0 && GameState.is_active g
  then setGameState set_inactive s1
  else s1.

(** The guard of the timer effect:
    [!gameState.is_active || !gameState.start_time || !gameState.time_limit_seconds]. *)
Definition timer_off (g : GameState.t num) : bool :=
  negb (GameState.is_active g)
  || match GameState.start_time g with
     | Some t => Qeq_bool t 0
     | None => true
     end
  || Qeq_bool (GameState.time_limit_seconds g) 0.

(** One run of the timer, at the mount of the effect or at a tick of its
    interval, at the instant [now]. *)
Definition timer (now : Q) (s : GameScreen) : GameScreen :=
  match gameState s with
  | None => setTimeLeft None s
  | Some g =>
      if timer_off g then setTimeLeft None s
      else calculateTimeLeft g now s
  end.

(** [gameState?.is_active], which is falsy without a game. *)
Definition active (s : GameScreen) : bool :=
  match gameState s with
  | Some g => GameState.is_active g
  | None => false
  end.

(** [handleAddConnection] up to its [await fetch(...)]: the state after
    the synchronous part, and the request when one is sent together with
    the [gameState] that the continuation has in its closure. *)
Definition handleAddConnection_submit (s : GameScreen)
    : GameScreen * option (ConnectRequest * GameState.t num) :=
  match gameState s, selectedNodeId s with
  | Some g, Some sel =>
      if bool_decide (sel = "") || bool_decide (trim (newWord s) = "")
         || negb (GameState.is_active g)
      then (setError (Some "Cannot add connection: Game not active, no node selected, or word is empty.") s, None)
      else (setError None (setIsLoading true s),
            Some (mkRequest (GameState.game_id g) sel (trim (newWord s)), g))
  | _, _ =>
      (setError (Some "Cannot add connection: Game not active, no node selected, or word is empty.") s, None)
  end.

(** [errorData.detail || `HTTP error! status: ${response.status}`] *)
Definition error_message (status : Z) (detail : option string) : string :=
  match detail with
  | Some d => if bool_decide (d = "") then "HTTP error! status: " +:+ pretty status else d
  | None => "HTTP error! status: " +:+ pretty status
  end.

(** [handleAddConnection] after the [await]: [g] is the [gameState] of
    the closure, [s] the state when the answer arrives.  [None] only
    when the layout runs out of fuel. *)
Definition handleAddConnection_response (rnd : Random num) (g : GameState.t num)
    (response : Response) (s : GameScreen) : option GameScreen :=
  match response with
  | ResponseNotOk status detail =>
      let s1 :=
        if bool_decide (status = 400%Z) && bool_decide (detail = Some "Time limit exceeded")
        then setGameState set_inactive s
        else s in
      Some (setIsLoading false (setError (Some (error_message status detail)) s1))
  | FetchThrew message =>
      Some (setIsLoading false (setError (Some message) s))
  | ResponseOk updatedBackendState =>
      match assignPositionsToNodes rnd (BackendGameState.nodes updatedBackendState)
              (Some (GameState.nodes g)) with
      | None => None
      | Some updatedPositionedNodes =>
          Some (setIsLoading false
                  (setNewWord ""
                     (setGameState
                        (λ _, Some (GameState.of_backend updatedBackendState
                                      updatedPositionedNodes)) s)))
      end
  end.

(** A whole submission whose answer arrives before anything else
    happens. *)
Definition handleAddConnection (rnd : Random num) (response : Response)
    (s : GameScreen) : option GameScreen :=
  match handleAddConnection_submit s with
  | (s1, None) => Some s1
  | (s1, Some (_, g)) => handleAddConnection_response rnd g response s1
  end.

(** What can happen to a mounted game screen. *)
Inductive Event :=
  | Tick (now : Q)
  | Submit (response : Response)
  | TypeWord (w : string)
  | SelectNode (i : string).

(** Clicking a node selects it only while the game is active. *)
Definition select_node (i : string) (s : GameScreen) : GameScreen :=
  match gameState s with
  | Some g =>
      if GameState.is_active g
      then mkScreen (gameState s) (Some i) (newWord s) (error s)
                    (isLoading s) (timeLeft s) (hasLoaded s)
      else s
  | None => s
  end.

Definition step (rnd : Random num) (e : Event) (s : GameScreen) : option GameScreen :=
  match e with
  | Tick now => Some (timer now s)
  | Submit response => handleAddConnection rnd response s
  | TypeWord w => Some (setNewWord w s)
  | SelectNode i => Some (select_node i s)
  end.

Fixpoint run (rnd : Random num) (es : list Event) (s : GameScreen) : option GameScreen :=
  match es with
  | [] => Some s
  | e :: es' =>
      match step rnd e s with
      | Some s' => run rnd es' s'
      | None => None
      end
  end.
End GameScreen.

Arguments GameScreen num : clear implicits.
Arguments QueueItem num : clear implicits.
Arguments LayoutState num : clear implicits.

(** ** The game board *)

Module FlowNode.
Record t (num : Type) := mk {
  id : string;
  label : string;            (* [data.label] *)
  position_x : num;
  position_y : num;
  type : string
}.
Arguments mk {num} _ _ _ _ _.
Arguments id {num} _.
Arguments label {num} _.
Arguments position_x {num} _.
Arguments position_y {num} _.
Arguments type {num} _.
End FlowNode.

Module FlowEdge.
Record t := mk {
  id : string;
  source : string;
  target : string
}.
End FlowEdge.

Section Gameboard.
Context {num : Type} `{Number num}.
Local Open Scope num_scope.

(** The state that [handleAddNode] reads and writes: the component's
    [nodes] and [edges], the module variable [idCounter], and the
    parent's counter behind [setMoves]. *)
Record Gameboard := mkBoard {
  nodes : list (FlowNode.t num);
  edges : list FlowEdge.t;
  idCounter : Z;
  moves : Z
}.

(** [`node_${++idCounter}`] for the incremented counter. *)
Definition getNodeId (counter : Z) : string := "node_" +:+ pretty counter.

Definition handleAddNode (onNodeAdded : string → string → bool) (rnd : Random num)
    (newNodeLabel parentNodeId : string) (b : Gameboard) : Gameboard :=
  let isValidConnection := onNodeAdded newNodeLabel parentNodeId in
  if isValidConnection then
    let counter := (idCounter b + 1)%Z in
    let newNodeId := getNodeId counter in
    let parentNode :=
      find (λ n, bool_decide (FlowNode.id n = parentNodeId)) (nodes b) in
    let '(px, py) :=
      match parentNode with
      | Some p =>
          let '(r1, rnd1) := Math_random rnd in
          let '(r2, _) := Math_random rnd1 in
          (FlowNode.position_x p + (r1 * of_Z 400 - of_Z 200),
           FlowNode.position_y p + of_Z 100 + (r2 * of_Z 50))
      | None => (of_Z 100, of_Z 100)
      end in
    let newNode := FlowNode.mk newNodeId newNodeLabel px py "mindMapNode" in
    let newEdge :=
      FlowEdge.mk ("edge_" +:+ parentNodeId +:+ "-" +:+ newNodeId)
                  parentNodeId newNodeId in
    mkBoard (nodes b ++ [newNode]) (edges b ++ [newEdge]) counter (moves b + 1)%Z
  else b.
End Gameboard.

Arguments Gameboard num : clear implicits.

(** ** Sample maps and sessions *)

Definition ocean := BackendWordNode.mk "ocean" "ocean" None.
Definition wave := BackendWordNode.mk "wave" "wave" (Some "ocean").
Definition tide := BackendWordNode.mk "tide" "tide" (Some "ocean").
Definition surf := BackendWordNode.mk "surf" "surf" (Some "ocean").
Definition foam := BackendWordNode.mk "foam" "foam" (Some "wave").
Definition drift := BackendWordNode.mk "drift" "drift" (Some "shore").

(** The positions on the screen before [foam] is added to [grown]: [wave]
    was placed when it was the only child of [ocean], [tide] when it was
    the second of two. *)
Definition grown_before : gmap string (WordNode.t R) :=
  {[ "ocean" := WordNode.mk "ocean" "ocean" None 250%R 50%R;
     "wave" := WordNode.mk "wave" "wave" (Some "ocean") 250%R 125%R;
     "tide" := WordNode.mk "tide" "tide" (Some "ocean") 225%R (50 + 75 * (sqrt 3 / 2))%R ]}.

(** A session of 60 seconds started at the instant 1000, and the screen
    showing it with a word typed in. *)
Definition ocean_game (is_active : bool) : GameState.t R :=
  GameState.mk "game-1" "puzzle_daily_free" "ocean" "sea" 60 (Some 1000%Q)
    {["ocean" := WordNode.mk "ocean" "ocean" None 250%R 50%R]} [] 0 is_active.

Definition ocean_screen (is_active : bool) : GameScreen R :=
  mkScreen (Some (ocean_game is_active)) (Some "ocean") "wave" None false None true.

(** The snapshot the backend sends when it accepts [wave]. *)
Definition wave_accepted : BackendGameState.t :=
  BackendGameState.mk "game-1" "puzzle_daily_free" "ocean" "sea" 60 (Some 1000%Q)
    [("ocean", BackendWordNode.mk "ocean" "ocean" None);
     ("wave", BackendWordNode.mk "wave" "wave" (Some "ocean"))]
    [("ocean", "wave")] 1 true.

(** The board of a new game. *)
Definition start_board : Gameboard R :=
  mkBoard [FlowNode.mk "StartNode" "ocean" 250%R 5%R "mindMapNode"] [] 0 0.

Definition only_root : BackendNodes := [("ocean", ocean)].
Definition two_nodes : BackendNodes := [("ocean", ocean); ("wave", wave)].
Definition chain : BackendNodes := [("ocean", ocean); ("wave", wave); ("foam", foam)].
Definition fan : BackendNodes :=
  [("ocean", ocean); ("wave", wave); ("tide", tide); ("surf", surf)].
Definition with_orphan : BackendNodes :=
  [("ocean", ocean); ("wave", wave); ("drift", drift)].
Definition grown : BackendNodes :=
  [("ocean", ocean); ("wave", wave); ("tide", tide); ("foam", foam)].

(** A player has added the word [__proto__] under [ocean]. *)
Definition proto := BackendWordNode.mk "__proto__" "__proto__" (Some "ocean").
Definition with_proto : BackendNodes := [("ocean", ocean); ("__proto__", proto)].

(** ** The rest of the components

    *** The drawing of the map ([renderMindMap]) *)

Section Render.
Context {num : Type} `{Number num}.
Local Open Scope num_scope.

(** An element of the array [edges] of [renderMindMap].  A coordinate is
    [None] when it is no number: [undefined], or the [NaN] that adding 30
    to [undefined] or subtracting 30 from it gives. *)
Record Line := mkLine {
  line_id : string;
  sourceX : option num;
  sourceY : option num;
  targetX : option num;
  targetY : option num
}.

(** What a read [gameState.nodes[key]] finds, when it is truthy: a node of
    the map, or a value that the object inherits from its prototypes, as
    the function at the key [toString]. *)
Inductive Property :=
  | NodeProperty (node : WordNode.t num)
  | InheritedProperty.

(** [gameState.nodes[key]].  The entry of the map at the key comes first;
    without one the read goes on to the prototypes of the object, and
    [inherited] tells at which keys it finds a truthy value there.  [None]
    is [undefined], or an inherited value that is falsy. *)
Definition get_property (inherited : string → bool)
    (nodes : gmap string (WordNode.t num)) (key : string) : option Property :=
  match nodes !! key with
  | Some node => Some (NodeProperty node)
  | None => if inherited key then Some InheritedProperty else None
  end.

(** [p.x] and [p.y]: an inherited value is a function, a string, a number
    or [Object.prototype], and these have no property [x] or [y]. *)
Definition property_x (p : Property) : option num :=
  match p with
  | NodeProperty node => Some (WordNode.x node)
  | InheritedProperty => None
  end.

Definition property_y (p : Property) : option num :=
  match p with
  | NodeProperty node => Some (WordNode.y node)
  | InheritedProperty => None
  end.

(** The function mapped over [gameState.connections]; [None] is the
    [null] that the filter removes afterwards. *)
Definition line_of (inherited : string → bool) (nodes : gmap string (WordNode.t num))
    (connection : string * string) : option Line :=
  let '(parentId, childId) := connection in
  match get_property inherited nodes parentId, get_property inherited nodes childId with
  | Some parentNode, Some childNode =>
      Some (mkLine (parentId +:+ "-" +:+ childId)
              (property_x parentNode) ((λ y, y + of_Z 30) <$> property_y parentNode)
              (property_x childNode) ((λ y, y - of_Z 30) <$> property_y childNode))
  | _, _ => None
  end.

(** [gameState.connections.map(...).filter(edge => edge !== null)] *)
Definition renderMindMap_edges (inherited : string → bool) (g : GameState.t num)
    : list Line :=
  omap (line_of inherited (GameState.nodes g)) (GameState.connections g).

(** The line for a connection between two nodes of the map. *)
Definition line_between (parentId childId : string)
    (parentNode childNode : WordNode.t num) : Line :=
  mkLine (parentId +:+ "-" +:+ childId)
    (Some (WordNode.x parentNode)) (Some (WordNode.y parentNode + of_Z 30))
    (Some (WordNode.x childNode)) (Some (WordNode.y childNode - of_Z 30)).

(** Where the end of a line at the key [key] is, in the map [res] laid
    out for [nodes]: at the node with that identifier, moved by [shift] in
    [y]; or, when the key is no identifier of a node but is inherited,
    nowhere. *)
Definition line_end (inherited : string → bool) (nodes : list BackendWordNode.t)
    (res : gmap string (WordNode.t num)) (key : string)
    (X Y : option num) (shift : num → num) : Prop :=
  (∃ node, key ∈ ids nodes
           ∧ res !! key = Some node
           ∧ X = Some (WordNode.x node) ∧ Y = Some (shift (WordNode.y node)))
  ∨ ((key ∉ ids nodes) ∧ inherited key = true ∧ X = None ∧ Y = None).

(** [!selectedNodeId]: null and the empty string are falsy. *)
Definition no_selection (selectedNodeId : option string) : bool :=
  match selectedNodeId with
  | None => true
  | Some i => bool_decide (i = "")
  end.

(** The form is rendered under [gameState?.is_active &&]; its input and
    its button carry the attribute [disabled]. *)
Definition form_shown (s : GameScreen num) : bool := active s.

Definition input_disabled (s : GameScreen num) : bool :=
  no_selection (selectedNodeId s) || isLoading s.

Definition button_disabled (s : GameScreen num) : bool :=
  no_selection (selectedNodeId s) || bool_decide (trim (newWord s) = "")
  || isLoading s.
End Render.

Arguments Line num : clear implicits.
Arguments Property num : clear implicits.

(** The names of the properties of [Object.prototype], which an object
    literal inherits. *)
Definition Object_prototype : list string :=
  ["constructor"; "__defineGetter__"; "__defineSetter__"; "hasOwnProperty";
   "__lookupGetter__"; "__lookupSetter__"; "isPrototypeOf"; "propertyIsEnumerable";
   "toString"; "valueOf"; "__proto__"; "toLocaleString"].

Definition in_Object_prototype (key : string) : bool :=
  bool_decide (key ∈ Object_prototype).

(** [Math.max(...xs, c)] and [Math.min(...xs, c)] on real numbers. *)
Definition Math_max (xs : list R) (c : R) : R := foldr Rmax c xs.
Definition Math_min (xs : list R) (c : R) : R := foldr Rmin c xs.

(** The attribute [viewBox] of the drawing and its [width] and [height]. *)
Record ViewBox := mkViewBox {
  minX : R;
  minY : R;
  viewWidth : R;
  viewHeight : R
}.

(** The extent of the drawing for [nodes = Object.values(gameState.nodes)];
    the extrema do not depend on the order of the enumeration. *)
Definition renderMindMap_viewBox (nodes : list (WordNode.t R)) : ViewBox :=
  let padding := 50%R in
  let maxX := (Math_max (WordNode.x <$> nodes) (NODE_AREA_WIDTH (H := RealNumber)) + padding)%R in
  let maxY := (Math_max (WordNode.y <$> nodes) (NODE_AREA_HEIGHT (H := RealNumber)) + padding)%R in
  let minX := (Math_min (WordNode.x <$> nodes) 0 - padding)%R in
  let minY := (Math_min (WordNode.y <$> nodes) 0 - padding)%R in
  mkViewBox minX minY
    (Rmax (maxX - minX) (NODE_AREA_WIDTH (H := RealNumber) + padding * 2))
    (Rmax (maxY - minY) (NODE_AREA_HEIGHT (H := RealNumber) + padding * 2)).

Definition renderMindMap_view (g : GameState.t R) : ViewBox :=
  renderMindMap_viewBox ((map_to_list (GameState.nodes g)).*2).

(** A list of characters that does not start with white space. *)
Definition starts_clean (l : list ascii) : Prop :=
  match l with
  | [] => True
  | c :: _ => is_white_space c = false
  end.

(** *** The text of the clocks *)

(** [String.prototype.padStart(targetLength, padString)] for a [padString]
    of one character. *)
Definition padStart (targetLength : nat) (padString : ascii) (s : string) : string :=
  string_of_list_ascii (replicate (targetLength - String.length s) padString) +:+ s.

(** The text of the timer of the game screen, for the whole number of
    seconds that [Math.round] has produced:
    [{Math.floor(timeLeft / 60)}:{String(timeLeft % 60).padStart(2, '0')}]. *)
Definition timer_text (timeLeft : Z) : string :=
  pretty (timeLeft / 60)%Z +:+ ":" +:+ padStart 2 "0" (pretty (Z.rem timeLeft 60)).

(** What the header shows of the time: the text under
    [timeLeft !== null && gameState?.is_active], and [Game Over] under
    [!gameState?.is_active]. *)
Definition header_timer {num} `{Number num} (s : GameScreen num) : option string :=
  match timeLeft s with
  | Some t => if active s then Some (timer_text t) else None
  | None => None
  end.

Definition header_game_over {num} `{Number num} (s : GameScreen num) : bool :=
  negb (active s).

(** *** The component [Timer] *)

Module Timer.

(** The function that the interval passes to [setTimeLeft]: the new
    value, and whether [onTimeUp] is called. *)
Definition interval (prevTime : Q) : Q * bool :=
  let newTime := (prevTime - 1)%Q in
  if Qle_bool newTime 0 then (0%Q, true) else (newTime, false).

(** The second effect, run after a render with these values: whether it
    calls [onTimeUp], and whether it starts the interval. *)
Definition effect (isRunning : bool) (timeLeft : Q) : bool * bool :=
  if negb isRunning || Qle_bool timeLeft 0
  then (Qle_bool timeLeft 0 && isRunning, false)
  else (false, true).

(** [timeLeft] one second later: the interval, when the effect has
    started it, fires once and the render that follows replaces it. *)
Definition second (isRunning : bool) (timeLeft : Q) : Q :=
  if snd (effect isRunning timeLeft) then fst (interval timeLeft) else timeLeft.

Fixpoint seconds (n : nat) (isRunning : bool) (timeLeft : Q) : Q :=
  match n with
  | O => timeLeft
  | S n' => seconds n' isRunning (second isRunning timeLeft)
  end.

(** [formattedTime], for a whole number of seconds. *)
Definition formattedTime (timeLeft : Z) : string :=
  padStart 2 "0" (pretty (timeLeft / 60)%Z) +:+ ":"
  +:+ padStart 2 "0" (pretty (Z.rem timeLeft 60)).

End Timer.

(** *** The component [InputForm] *)

(** [handleSubmit], with the component's [inputValue] and the state [B]
    that [onAddNode] acts on: the new [inputValue] and the new state. *)
Definition InputForm_handleSubmit {B : Type} (onAddNode : string → string → B → B)
    (selectedNodeId : option string) (inputValue : string) (b : B) : string * B :=
  match selectedNodeId with
  | Some sel =>
      if bool_decide (trim inputValue = "") || bool_decide (sel = "")
      then (inputValue, b)
      else ("", onAddNode (trim inputValue) sel b)
  | None => (inputValue, b)
  end.

(** *** The board from one game to the next *)

Section Board.
Context {num : Type} `{Number num}.

(** The effect on [startWord]: the counter, the nodes and the edges
    start afresh (and the selection, which [handleAddNode] does not
    use); the parent's count of moves is not touched. *)
Definition reset_board (startWord : string) (b : Gameboard num) : Gameboard num :=
  mkBoard
    [FlowNode.mk "StartNode" (if bool_decide (startWord = "") then "Start" else startWord)
       (of_Z 250) (of_Z 5) "mindMapNode"]
    [] 0 (moves b).

(** A call of [handleAddNode]: the callback of the render, the draws of
    [Math.random] of the call, and the two arguments. *)
Record AddNode := mkAddNode {
  call_onNodeAdded : string → string → bool;
  call_random : Random num;
  call_label : string;
  call_parent : string
}.

Definition add_node (b : Gameboard num) (c : AddNode) : Gameboard num :=
  handleAddNode (call_onNodeAdded c) (call_random c) (call_label c) (call_parent c) b.

(** The calls of a game, one after the other. *)
Definition add_nodes (calls : list AddNode) (b : Gameboard num) : Gameboard num :=
  foldl add_node b calls.

(** The calls that [onNodeAdded] accepts. *)
Definition accepted (c : AddNode) : bool :=
  call_onNodeAdded c (call_label c) (call_parent c).
End Board.

Arguments AddNode num : clear implicits.

(** *** More notions to state what the layout does *)

Section LayoutNotions.
Context {num : Type} `{Number num}.
Local Open Scope num_scope.

(** [currentX] after [k] rounds of the loop that places the nodes in a
    row. *)
Definition row_x (k : nat) : num := Nat.iter k (λ currentX, currentX + of_Z 100) (of_Z 50).

(** The element [b] of the queue was put there as a child of the
    element [a]. *)
Definition queued_from (nodes : list BackendWordNode.t) (a b : QueueItem num) : Prop :=
  depth b = (depth a + 1)%nat
  ∧ ∃ c, c ∈ nodes ∧ BackendWordNode.id c = nodeId b ∧ is_child_of (nodeId a) c.

(** The queue is in the order of the depths, no element is more than
    one level deeper than the element at [head], and every element but
    the first was put there as a child of an earlier one. *)
Definition level_inv (nodes : list BackendWordNode.t) (head : nat)
    (st : LayoutState num) : Prop :=
  (∀ j j' a b, j ≤ j' → queue st !! j = Some a → queue st !! j' = Some b →
      depth a ≤ depth b)
  ∧ (∀ a b, queue st !! head = Some a → b ∈ queue st → depth b ≤ (depth a + 1)%nat)
  ∧ (∀ j b, queue st !! j = Some b → 0 < j →
      ∃ j0 a, j0 < j ∧ queue st !! j0 = Some a ∧ queued_from nodes a b).
End LayoutNotions.

(** *** More samples *)

(** Two nodes whose parents are missing or are each other: no root. *)
Definition rootless : BackendNodes := [("wave", wave); ("foam", foam)].

(** The screen of the running session with white space around the typed
    word. *)
Definition padded_screen : GameScreen R :=
  mkScreen (Some (ocean_game true)) (Some "ocean") "  wave " None false None true.

(** Three calls of [handleAddNode], the second of which is refused. *)
Definition three_calls : list (AddNode R) :=
  [mkAddNode (λ _ _, true) (λ _, 1 / 2)%R "wave" "StartNode";
   mkAddNode (λ _ _, false) (λ _, 1 / 2)%R "sand" "StartNode";
   mkAddNode (λ _ _, true) (λ _, 1 / 4)%R "foam" "node_1"].

(** The identifiers of a sample map are distinct. *)
Ltac distinct_ids :=
  vm_compute; repeat (apply NoDup_cons; split; [set_solver|]); apply NoDup_nil_2.

(** * Facts

    ** The loops of the layout *)

Section LayoutFacts.
Context {num : Type} `{Number num}.
Implicit Types (st : LayoutState num) (item : QueueItem num)
  (existing : option (gmap string (WordNode.t num)))
  (nodes children : list BackendWordNode.t).

Lemma place_children_inv (P : LayoutState num → Prop) existing children cnt pX pY d :
  (∀ k st child, child ∈ children → BackendWordNode.id child ∉ assigned st →
      P st → P (place_child existing child cnt pX pY d k st)) →
  ∀ k st, P st → P (place_children existing children cnt pX pY d k st).
Proof.
  induction children as [|child rest IH]; intros Hstep k st HP; simpl; [done|].
  case_decide.
  - apply IH; [|done]. intros. apply Hstep; [by right|done..].
  - apply IH.
    + intros. apply Hstep; [by right|done..].
    + apply Hstep; [by left|done..].
Qed.

Lemma WF_start nodes root :
  root ∈ nodes → WF nodes (start_state root).
Proof.
  intros Hin. split; simpl.
  - rewrite dom_insert_L, dom_empty_L. set_solver.
  - unfold queue_ids. simpl. set_solver.
  - unfold queue_ids. simpl. apply NoDup_singleton.
  - intros i Hi. apply elem_of_singleton in Hi as ->.
    unfold ids. apply list_elem_of_fmap. eauto.
Qed.

Lemma WF_place_child nodes existing child cnt pX pY d k st :
  WF nodes st → child ∈ nodes → BackendWordNode.id child ∉ assigned st →
  WF nodes (place_child existing child cnt pX pY d k st).
Proof.
  intros [Hdom Hq Hnd Hsub] Hin Hfresh. split; simpl.
  - rewrite dom_insert_L, Hdom. done.
  - unfold queue_ids in *. simpl. rewrite fmap_app, list_to_set_app_L, <- Hq. simpl. set_solver.
  - unfold queue_ids in *. simpl. rewrite fmap_app. simpl.
    apply NoDup_app. split; [done|]. split; [|apply NoDup_singleton].
    intros i Hi Hi'. apply list_elem_of_singleton in Hi' as ->.
    apply Hfresh. rewrite Hq. by apply elem_of_list_to_set.
  - intros i [Hi|Hi]%elem_of_union; [|by apply Hsub].
    apply elem_of_singleton in Hi as ->. unfold ids. apply list_elem_of_fmap. eauto.
Qed.

Lemma children_in_nodes nodes p c :
  c ∈ filter (is_child_of p) nodes → c ∈ nodes.
Proof. intros Hc. by apply list_elem_of_filter in Hc as [_ ?]. Qed.

Lemma WF_visit nodes existing item st :
  WF nodes st → WF nodes (visit existing nodes item st).
Proof.
  intros Hwf. unfold visit. apply place_children_inv; [|done].
  intros k st' child Hc Hfresh Hwf'. apply WF_place_child; [done| |done].
  by eapply children_in_nodes.
Qed.

Lemma WF_queue_length nodes st : WF nodes st → length (queue st) ≤ length nodes.
Proof.
  intros [_ Hq Hnd Hsub].
  transitivity (length (queue_ids st)); [unfold queue_ids; by rewrite length_fmap|].
  transitivity (length (ids nodes)); [|unfold ids; by rewrite length_fmap].
  apply submseteq_length, NoDup_submseteq; [done|].
  intros i Hi. apply Hsub. rewrite Hq. by apply elem_of_list_to_set.
Qed.

Lemma extends_refl st : extends st st.
Proof. split; done. Qed.

Lemma extends_trans st1 st2 st3 : extends st1 st2 → extends st2 st3 → extends st1 st3.
Proof.
  intros [Hq1 Ha1 Hp1] [Hq2 Ha2 Hp2]. split.
  - by etransitivity.
  - by etransitivity.
  - intros i Hi. rewrite Hp2 by auto. by apply Hp1.
Qed.

Lemma extends_place_child existing child cnt pX pY d k st :
  BackendWordNode.id child ∉ assigned st →
  extends st (place_child existing child cnt pX pY d k st).
Proof.
  intros Hfresh. split; simpl.
  - by apply prefix_app_r.
  - apply union_subseteq_r.
  - intros i Hi. apply lookup_insert_ne. by intros <-.
Qed.

Lemma extends_place_children existing children cnt pX pY d k st :
  extends st (place_children existing children cnt pX pY d k st).
Proof.
  revert k st. induction children as [|child rest IH]; intros k st; simpl.
  - apply extends_refl.
  - case_decide; [apply IH|].
    eapply extends_trans; [by apply extends_place_child|apply IH].
Qed.

Lemma extends_visit existing nodes item st : extends st (visit existing nodes item st).
Proof. apply extends_place_children. Qed.

Lemma extends_lookup st st' j item :
  extends st st' → queue st !! j = Some item → queue st' !! j = Some item.
Proof. intros [Hq _ _] Hj. by eapply prefix_lookup_Some. Qed.

Lemma extends_length st st' : extends st st' → length (queue st) ≤ length (queue st').
Proof. intros [Hq _ _]. by apply prefix_length. Qed.

(** The rule of the [while] loop: an invariant of its body holds when
    the loop exits, and the loop exits because [head] reached the end of
    the queue. *)
Lemma traverse_invariant (I : nat → LayoutState num → Prop) existing nodes :
  (∀ head st item, I head st → queue st !! head = Some item →
      I (S head) (visit existing nodes item st)) →
  ∀ fuel head st st',
    I head st → traverse fuel existing nodes head st = Some st' →
    ∃ head', I head' st' ∧ queue st' !! head' = None.
Proof.
  intros Hbody. induction fuel as [|fuel IH]; intros head st st' HI Hrun; simpl in Hrun; [done|].
  destruct (queue st !! head) as [item|] eqn:Hhead.
  - eapply IH; [|done]. by apply Hbody.
  - injection Hrun as <-. eauto.
Qed.

(** The loop runs at most once per node: [length nodes + 1] units of
    fuel are never used up. *)
Lemma traverse_is_Some nodes existing fuel head st :
  WF nodes st → head ≤ length (queue st) → length nodes < fuel + head →
  is_Some (traverse fuel existing nodes head st).
Proof.
  revert head st. induction fuel as [|fuel IH]; intros head st Hwf Hhead Hfuel.
  - apply WF_queue_length in Hwf. lia.
  - simpl. destruct (queue st !! head) as [item|] eqn:Hitem; [|done].
    apply IH.
    + by apply WF_visit.
    + apply lookup_lt_Some in Hitem.
      pose proof (extends_length _ _ (extends_visit existing nodes item st)). lia.
    + lia.
Qed.

Lemma find_no_parent_in nodes root :
  find no_parent nodes = Some root → root ∈ nodes.
Proof. intros Hf. apply find_some in Hf as [Hin _]. by apply list_elem_of_In. Qed.

Lemma traversal_is_Some existing nodes root :
  root ∈ nodes → is_Some (traversal existing nodes root).
Proof.
  intros Hin. unfold traversal. apply traverse_is_Some.
  - by apply WF_start.
  - simpl. lia.
  - lia.
Qed.

Lemma assignPositionsToNodes_is_Some rnd backendNodes existing :
  is_Some (assignPositionsToNodes rnd backendNodes existing).
Proof.
  unfold assignPositionsToNodes.
  destruct (find no_parent (Object_values backendNodes)) as [root|] eqn:Hroot; [|done].
  destruct (traversal_is_Some existing (Object_values backendNodes) root) as [st ->]; [|done].
  by eapply find_no_parent_in.
Qed.

Lemma place_missed_inv (P : LayoutState num → Prop) existing nodes :
  (∀ rnd st node, node ∈ nodes → BackendWordNode.id node ∉ assigned st →
      P st → P (place_missed_node existing node rnd st).1) →
  ∀ rnd st, P st → P (place_missed existing nodes rnd st).
Proof.
  induction nodes as [|node rest IH]; intros Hstep rnd st HP; simpl; [done|].
  case_decide.
  - apply IH; [|done]. intros. apply Hstep; [by right|done..].
  - destruct (place_missed_node existing node rnd st) as [st1 rnd1] eqn:Hnode.
    apply IH.
    + intros. apply Hstep; [by right|done..].
    + change st1 with (st1, rnd1).1. rewrite <- Hnode. apply Hstep; [by left|done..].
Qed.

Lemma place_missed_node_assigned existing node rnd st :
  assigned (place_missed_node existing node rnd st).1
  = {[BackendWordNode.id node]} ∪ assigned st.
Proof. unfold place_missed_node. by destruct (existing_entry _ _). Qed.

Lemma place_missed_node_queue existing node rnd st :
  queue (place_missed_node existing node rnd st).1 = queue st.
Proof. unfold place_missed_node. by destruct (existing_entry _ _). Qed.

Lemma place_missed_node_other existing node rnd st i :
  i ≠ BackendWordNode.id node →
  positionedNodes (place_missed_node existing node rnd st).1 !! i = positionedNodes st !! i.
Proof.
  intros Hne. unfold place_missed_node.
  destruct (existing_entry _ _); simpl; by rewrite lookup_insert_ne.
Qed.

Lemma extends_place_missed existing nodes rnd st :
  extends st (place_missed existing nodes rnd st).
Proof.
  apply (place_missed_inv (extends st)); [|apply extends_refl].
  intros rnd' st' node _ Hfresh Hext. eapply extends_trans; [done|].
  split.
  - by rewrite place_missed_node_queue.
  - rewrite place_missed_node_assigned. apply union_subseteq_r.
  - intros i Hi. apply place_missed_node_other. by intros ->.
Qed.

Lemma place_missed_covers existing nodes rnd st node :
  node ∈ nodes → BackendWordNode.id node ∈ assigned (place_missed existing nodes rnd st).
Proof.
  revert rnd st. induction nodes as [|n rest IH]; intros rnd st Hin; [by apply elem_of_nil in Hin|].
  apply elem_of_cons in Hin as [->|Hin]; simpl.
  - case_decide as Hn.
    + by apply (ext_assigned _ _ (extends_place_missed existing rest rnd st)).
    + destruct (place_missed_node existing n rnd st) as [st1 rnd1] eqn:Hnode.
      apply (ext_assigned _ _ (extends_place_missed existing rest rnd1 st1)).
      change st1 with (st1, rnd1).1. rewrite <- Hnode, place_missed_node_assigned.
      set_solver.
  - case_decide; [by apply IH|].
    destruct (place_missed_node existing n rnd st) as [st1 rnd1]. by apply IH.
Qed.

Lemma place_missed_dom existing nodes rnd st :
  dom (positionedNodes st) = assigned st →
  dom (positionedNodes (place_missed existing nodes rnd st))
  = assigned (place_missed existing nodes rnd st).
Proof.
  apply (place_missed_inv (λ st, dom (positionedNodes st) = assigned st)).
  intros rnd' st' node _ _ Hdom. unfold place_missed_node.
  destruct (existing_entry _ _); simpl; by rewrite dom_insert_L, Hdom.
Qed.

Lemma place_in_row_dom existing nodes cx cy (m : gmap string (WordNode.t num)) :
  dom (place_in_row existing nodes cx cy m) = list_to_set (ids nodes) ∪ dom m.
Proof.
  revert cx m. induction nodes as [|n rest IH]; intros cx m; simpl.
  - set_solver.
  - rewrite IH, dom_insert_L. set_solver.
Qed.

End LayoutFacts.

(** ** Where the entries of the result come from *)

Section Provenance.
Context {num : Type} `{Number num} (valid : num → Prop) `{!ValidArith valid}.
Implicit Types (st : LayoutState num) (item : QueueItem num)
  (existing : option (gmap string (WordNode.t num)))
  (nodes children : list BackendWordNode.t).

Lemma valid_angle cnt k : valid (angle_of cnt k).
Proof.
  unfold angle_of. apply valid_mul; [|apply valid_of_Z].
  apply valid_div; [apply valid_PI|lia].
Qed.

Lemma valid_offsetX cnt k d : valid (offsetX_of cnt k d).
Proof.
  unfold offsetX_of, NODE_OFFSET_X.
  apply valid_mul; [|apply valid_lit_0_5].
  apply valid_mul; [|apply valid_of_Z].
  apply valid_mul; [|apply valid_of_Z].
  apply valid_cos, valid_angle.
Qed.

Lemma valid_offsetY cnt k : valid (offsetY_of cnt k).
Proof.
  unfold offsetY_of, NODE_OFFSET_Y.
  apply valid_mul; [|apply valid_lit_1_5].
  apply valid_mul; [|apply valid_of_Z].
  apply valid_sin, valid_angle.
Qed.

Lemma valid_rootX : valid rootX.
Proof. unfold rootX, NODE_AREA_WIDTH. apply valid_div; [apply valid_of_Z|lia]. Qed.

Lemma valid_rootY : valid rootY.
Proof. apply valid_of_Z. Qed.

Lemma keep_or_place_entry existing c px py :
  valid px → valid py → entry_of existing valid c (keep_or_place existing c px py).
Proof.
  intros Hx Hy. unfold entry_of, keep_or_place.
  destruct (existing_entry _ _); eauto.
Qed.

Lemma place_in_row_provenance existing nodes all cx cy (m : gmap string (WordNode.t num)) :
  valid cx → valid cy → (∀ c, c ∈ nodes → c ∈ all) →
  (∀ i w, m !! i = Some w → provenance existing valid all None i w) →
  ∀ i w, place_in_row existing nodes cx cy m !! i = Some w →
         provenance existing valid all None i w.
Proof.
  revert cx m. induction nodes as [|n rest IH]; intros cx m Hx Hy Hall Hm i w; simpl; [by apply Hm|].
  apply IH; [apply valid_add; [done|apply valid_of_Z]|done|..].
  - intros c Hc. apply Hall. by right.
  - intros j v [[<- <-]|[Hne Hj]]%lookup_insert_Some; [|by apply Hm].
    right. exists n. split; [apply Hall; by left|]. split; [done|].
    by apply keep_or_place_entry.
Qed.

Lemma sound_start existing nodes root : sound valid existing nodes root (start_state root).
Proof.
  split; simpl.
  - intros i w [[<- <-]|[_ Hi]]%lookup_insert_Some; [|by rewrite lookup_empty in Hi].
    left. eauto.
  - intros item ->%list_elem_of_singleton. split; [apply valid_rootX|apply valid_rootY].
Qed.

Lemma sound_place_child existing nodes root child cnt pX pY d k st :
  child ∈ nodes → valid pX → valid pY →
  sound valid existing nodes root st →
  sound valid existing nodes root (place_child existing child cnt pX pY d k st).
Proof.
  intros Hin HpX HpY [Hent Hq].
  assert (valid (pX + offsetX_of cnt k d)%num) by (apply valid_add; [done|apply valid_offsetX]).
  assert (valid (pY + offsetY_of cnt k)%num) by (apply valid_add; [done|apply valid_offsetY]).
  split; simpl.
  - intros i w [[<- <-]|[_ Hi]]%lookup_insert_Some; [|by apply Hent].
    right. exists child. split; [done|]. split; [done|]. by apply keep_or_place_entry.
  - intros item [Hitem| ->%list_elem_of_singleton]%elem_of_app; [by apply Hq|]. by split.
Qed.

Lemma sound_visit existing nodes root item st :
  item ∈ queue st → sound valid existing nodes root st →
  sound valid existing nodes root (visit existing nodes item st).
Proof.
  intros Hitem Hs. destruct (proj2 Hs item Hitem) as [HpX HpY].
  unfold visit. apply place_children_inv; [|done].
  intros k st' child Hc _ Hs'. apply sound_place_child; [|done..].
  by eapply children_in_nodes.
Qed.

Lemma sound_place_missed existing nodes root rnd st :
  (∀ n, valid (rnd n)) →
  sound valid existing nodes root st →
  sound valid existing nodes root (place_missed existing nodes rnd st).
Proof.
  intros Hrnd Hs.
  cut (∀ all rnd st, (∀ n, valid (rnd n)) → (∀ c, c ∈ all → c ∈ nodes) →
         sound valid existing nodes root st →
         sound valid existing nodes root (place_missed existing all rnd st)); [by eauto|].
  clear Hrnd Hs rnd st. induction all as [|n rest IH]; intros rnd st Hrnd Hall Hs; simpl; [done|].
  case_decide; [apply IH; [done| |done]; intros; apply Hall; by right|].
  unfold place_missed_node.
  destruct (existing_entry existing (BackendWordNode.id n)) as [e|] eqn:He; simpl.
  - apply IH; [done|intros; apply Hall; by right|].
    destruct Hs as [Hent Hq]. split; simpl; [|done].
    intros i w [[<- <-]|[_ Hi]]%lookup_insert_Some; [|by apply Hent].
    right. exists n. split; [apply Hall; by left|]. split; [done|].
    unfold entry_of. by rewrite He.
  - apply IH; [intros; apply Hrnd|intros; apply Hall; by right|].
    destruct Hs as [Hent Hq]. split; simpl; [|done].
    intros i w [[<- <-]|[_ Hi]]%lookup_insert_Some; [|by apply Hent].
    right. exists n. split; [apply Hall; by left|]. split; [done|].
    unfold entry_of. rewrite He.
    eexists _, _. split; [|split; [|done]];
      (apply valid_mul; [apply Hrnd|apply valid_of_Z]).
Qed.

End Provenance.

(** ** The traversal *)

Section Traversal.
Context {num : Type} `{Number num}.
Implicit Types (st : LayoutState num) (item : QueueItem num)
  (existing : option (gmap string (WordNode.t num)))
  (nodes children : list BackendWordNode.t).

Lemma extends_lookup_lt st st' j :
  extends st st' → j < length (queue st) → queue st' !! j = queue st !! j.
Proof. intros [Hq _ _] Hj. symmetry. by apply prefix_lookup_lt. Qed.

Lemma place_children_assigns existing children cnt pX pY d k st c :
  c ∈ children →
  BackendWordNode.id c ∈ assigned (place_children existing children cnt pX pY d k st).
Proof.
  revert k st. induction children as [|child rest IH]; intros k st Hc; [by apply elem_of_nil in Hc|].
  apply elem_of_cons in Hc as [->|Hc]; simpl.
  - case_decide.
    + by apply (ext_assigned _ _ (extends_place_children existing rest cnt pX pY d k st)).
    + apply (ext_assigned _ _ (extends_place_children existing rest cnt pX pY d (k + 1) _)).
      simpl. set_solver.
  - case_decide; by apply IH.
Qed.

Lemma place_children_assigned existing children cnt pX pY d k st i :
  i ∈ assigned (place_children existing children cnt pX pY d k st) →
  i ∈ assigned st ∨ ∃ c, c ∈ children ∧ BackendWordNode.id c = i.
Proof.
  revert k st. induction children as [|child rest IH]; intros k st; simpl; [by left|].
  case_decide.
  - intros [?|(c & ? & ?)]%IH; [by left|]. right. exists c. split; [by right|done].
  - intros [Hi|(c & ? & ?)]%IH.
    + simpl in Hi. apply elem_of_union in Hi as [->%elem_of_singleton|?]; [|by left].
      right. exists child. split; [by left|done].
    + right. exists c. split; [by right|done].
Qed.

Lemma processed_visit existing nodes head item st :
  queue st !! head = Some item →
  processed nodes head st → processed nodes (S head) (visit existing nodes item st).
Proof.
  intros Hitem Hdone j item' c Hj Hj' Hc Hchild.
  pose proof (extends_visit existing nodes item st) as Hext.
  destruct (decide (j = head)) as [->|Hne].
  - rewrite (extends_lookup _ _ _ _ Hext Hitem) in Hj'. injection Hj' as <-.
    apply place_children_assigns. by apply list_elem_of_filter.
  - assert (j < head) as Hlt by lia.
    rewrite (extends_lookup_lt _ _ _ Hext) in Hj'
      by (apply lookup_lt_Some in Hitem; lia).
    apply (ext_assigned _ _ Hext). by eapply Hdone.
Qed.

Lemma origin_visit existing nodes root head item st :
  queue st !! head = Some item →
  origin nodes root head st → origin nodes root (S head) (visit existing nodes item st).
Proof.
  intros Hitem Horigin i Hi.
  pose proof (extends_visit existing nodes item st) as Hext.
  apply place_children_assigned in Hi as [Hi|(c & Hc & <-)].
  - destruct (Horigin i Hi) as [?|(j & item' & c & ? & ? & ? & ? & ?)]; [by left|].
    right. exists j, item', c. split; [lia|]. split; [by eapply extends_lookup|done].
  - right. apply list_elem_of_filter in Hc as [? ?].
    exists head, item, c. split; [lia|]. split; [by eapply extends_lookup|done].
Qed.

Lemma NoDup_ids_filter (P : BackendWordNode.t → Prop) `{!∀ n, Decision (P n)} nodes :
  NoDup (ids nodes) → NoDup (ids (filter P nodes)).
Proof.
  unfold ids. induction nodes as [|n rest IH]; simpl; [done|].
  intros [Hn Hrest]%NoDup_cons. rewrite filter_cons. case_decide; [|by apply IH].
  simpl. apply NoDup_cons. split; [|by apply IH].
  intros (c & Hid & Hc)%list_elem_of_fmap. apply Hn.
  apply list_elem_of_fmap. exists c. split; [done|].
  by apply list_elem_of_filter in Hc as [_ ?].
Qed.

Lemma NoDup_ids_eq nodes c c' :
  NoDup (ids nodes) → c ∈ nodes → c' ∈ nodes →
  BackendWordNode.id c = BackendWordNode.id c' → c = c'.
Proof.
  intros Hnd [j Hj]%list_elem_of_lookup [j' Hj']%list_elem_of_lookup Hid.
  assert (j = j') as ->.
  { eapply (NoDup_lookup (ids nodes)); [done|..]; unfold ids; rewrite list_lookup_fmap.
    - by rewrite Hj.
    - rewrite Hj'. simpl. by rewrite Hid. }
  congruence.
Qed.

(** With distinct identifiers and nothing assigned yet, the child
    at the index [k] is the [k]-th to be placed. *)
Lemma place_children_positions existing children cnt pX pY d k0 st k c :
  NoDup (ids children) →
  (∀ c', c' ∈ children → BackendWordNode.id c' ∉ assigned st) →
  children !! k = Some c →
  let st' := place_children existing children cnt pX pY d k0 st in
  let cx := add pX (offsetX_of cnt (k0 + k) d) in
  let cy := add pY (offsetY_of cnt (k0 + k)) in
  positionedNodes st' !! BackendWordNode.id c = Some (keep_or_place existing c cx cy)
  ∧ mkItem (BackendWordNode.id c) cx cy (d + 1) ∈ queue st'.
Proof.
  revert k0 st k. induction children as [|child rest IH]; intros k0 st k Hnd Hfresh Hk; [done|].
  simpl. rewrite decide_False by (apply Hfresh; by left).
  apply NoDup_cons in Hnd as [Hchild Hnd].
  set (st1 := place_child existing child cnt pX pY d k0 st).
  pose proof (extends_place_children existing rest cnt pX pY d (k0 + 1) st1) as Hext.
  destruct k as [|k]; simpl in Hk.
  - injection Hk as ->. rewrite Nat.add_0_r. split.
    + rewrite (ext_positioned _ _ Hext) by (simpl; set_solver).
      simpl. apply lookup_insert_eq.
    + eapply elem_of_prefix; [|apply Hext]. simpl. set_solver.
  - replace (k0 + S k) with (k0 + 1 + k) by lia. apply IH; [done| |done].
    intros c' Hc'. simpl. intros [Heq%elem_of_singleton|Hin]%elem_of_union.
    + apply Hchild. unfold ids. apply list_elem_of_fmap. exists c'. by rewrite Heq.
    + eapply Hfresh; [|done]. by right.
Qed.

Lemma unassigned_children existing nodes root head item st c :
  NoDup (ids nodes) → root ∈ nodes → BackendWordNode.parent_id root = None →
  WF nodes st → origin nodes root head st →
  queue st !! head = Some item →
  c ∈ filter (is_child_of (nodeId item)) nodes →
  BackendWordNode.id c ∉ assigned st.
Proof.
  intros Hnd Hroot Hparent Hwf Horigin Hitem [Hchild Hc]%list_elem_of_filter Hin.
  destruct (Horigin _ Hin) as [Hid|(j & item' & c' & Hj & Hitem' & Hc' & Hid & Hchild')].
  - apply (NoDup_ids_eq nodes c root) in Hid; [|done..]. subst c.
    unfold is_child_of in Hchild. congruence.
  - apply (NoDup_ids_eq nodes c' c) in Hid; [|done..]. subst c'.
    unfold is_child_of in Hchild, Hchild'.
    assert (nodeId item' = nodeId item) as Heq by congruence.
    assert (j = head); [|lia].
    eapply (NoDup_lookup (queue_ids st)); [apply Hwf|..]; unfold queue_ids;
      rewrite list_lookup_fmap.
    + by rewrite Hitem'.
    + rewrite Hitem. simpl. by rewrite Heq.
Qed.

Lemma placed_visit existing nodes root head item st :
  NoDup (ids nodes) → root ∈ nodes → BackendWordNode.parent_id root = None →
  WF nodes st → origin nodes root head st → processed nodes head st →
  queue st !! head = Some item →
  placed existing nodes head st → placed existing nodes (S head) (visit existing nodes item st).
Proof.
  intros Hnd Hroot Hparent Hwf Horigin Hdone Hitem Hplaced j item' k c Hj Hitem' Hk n.
  pose proof (extends_visit existing nodes item st) as Hext.
  destruct (decide (j = head)) as [->|Hne].
  - rewrite (extends_lookup _ _ _ _ Hext Hitem) in Hitem'. injection Hitem' as <-.
    unfold visit. subst n. unfold childX_of, childY_of.
    apply (place_children_positions existing _ _ _ _ _ 0 st k c); [|  |done].
    + by apply NoDup_ids_filter.
    + intros c' Hc'. by eapply unassigned_children.
  - assert (j < head) as Hlt by lia.
    rewrite (extends_lookup_lt _ _ _ Hext) in Hitem'
      by (apply lookup_lt_Some in Hitem; lia).
    destruct (Hplaced j item' k c Hlt Hitem' Hk) as [Hpos Hq]. split.
    + rewrite (ext_positioned _ _ Hext); [done|].
      apply list_elem_of_lookup_2, list_elem_of_filter in Hk as [? ?].
      by eapply Hdone.
    + eapply elem_of_prefix; [done|apply Hext].
Qed.

Lemma loop_inv_start nodes root : root ∈ nodes → loop_inv nodes root 0 (start_state root).
Proof.
  intros Hroot. split; [by apply WF_start|]. split; [simpl; lia|].
  split; [apply extends_refl|]. split.
  - intros j ???. lia.
  - intros i Hi. simpl in Hi. apply elem_of_singleton in Hi. by left.
Qed.

Lemma loop_inv_visit existing nodes root head item st :
  queue st !! head = Some item →
  loop_inv nodes root head st → loop_inv nodes root (S head) (visit existing nodes item st).
Proof.
  intros Hitem (Hwf & Hhead & Hext & Hdone & Horigin).
  pose proof (extends_visit existing nodes item st) as Hext'.
  split; [by apply WF_visit|]. split.
  { apply lookup_lt_Some in Hitem. apply extends_length in Hext'. lia. }
  split; [by eapply extends_trans|]. split.
  - by apply processed_visit.
  - by apply origin_visit.
Qed.

Lemma traversal_loop_inv existing nodes root st :
  root ∈ nodes → traversal existing nodes root = Some st →
  ∃ head, loop_inv nodes root head st ∧ length (queue st) ≤ head.
Proof.
  intros Hroot Hrun. unfold traversal in Hrun.
  eapply (traverse_invariant (loop_inv nodes root)) in Hrun as (head & Hinv & Hexit).
  - exists head. split; [done|]. by apply lookup_ge_None.
  - intros head st' item ??. by apply loop_inv_visit.
  - by apply loop_inv_start.
Qed.

Lemma traversal_sound valid `{!ValidArith valid} existing nodes root st :
  traversal existing nodes root = Some st → sound valid existing nodes root st.
Proof.
  intros Hrun. unfold traversal in Hrun.
  eapply (traverse_invariant (λ _, sound valid existing nodes root)) in Hrun
    as (head & Hs & _).
  - done.
  - intros head st' item Hs Hitem.
    apply sound_visit; [apply _|by eapply list_elem_of_lookup_2|done].
  - apply sound_start; apply _.
Qed.

Lemma traversal_placed existing nodes root st :
  NoDup (ids nodes) → root ∈ nodes → BackendWordNode.parent_id root = None →
  traversal existing nodes root = Some st →
  placed existing nodes (length (queue st)) st.
Proof.
  intros Hnd Hroot Hparent Hrun. unfold traversal in Hrun.
  eapply (traverse_invariant
            (λ head st, loop_inv nodes root head st ∧ placed existing nodes head st))
    in Hrun as (head & [Hinv Hplaced] & Hexit).
  - intros j item k c Hj. apply Hplaced. apply lookup_ge_None in Hexit. lia.
  - intros head st' item [Hinv Hplaced] Hitem. split; [by apply loop_inv_visit|].
    destruct Hinv as (? & ? & ? & ? & ?). by eapply placed_visit.
  - split; [by apply loop_inv_start|]. intros j ????. lia.
Qed.

(** The traversal reaches every node that parent links connect to the
    root. *)
Lemma traversal_complete existing nodes root st i :
  root ∈ nodes → traversal existing nodes root = Some st →
  Reachable nodes (BackendWordNode.id root) i → i ∈ assigned st.
Proof.
  intros Hroot Hrun Hreach.
  destruct (traversal_loop_inv _ _ _ _ Hroot Hrun)
    as (head & (Hwf & _ & Hext & Hdone & _) & Hexit).
  induction Hreach as [|p c _ IH Hc Hchild].
  - apply (ext_assigned _ _ Hext). simpl. set_solver.
  - rewrite (wf_queue _ _ Hwf) in IH. apply elem_of_list_to_set in IH.
    unfold queue_ids in IH.
    apply list_elem_of_fmap in IH as (item & -> & [j Hj]%list_elem_of_lookup).
    eapply (Hdone j item c); [|done..].
    apply lookup_lt_Some in Hj. lia.
Qed.

(** *** The traversal does not depend on the existing positions *)

Lemma place_children_shape existing1 existing2 children cnt pX pY d k st1 st2 :
  assigned st1 = assigned st2 → queue st1 = queue st2 →
  assigned (place_children existing1 children cnt pX pY d k st1)
  = assigned (place_children existing2 children cnt pX pY d k st2)
  ∧ queue (place_children existing1 children cnt pX pY d k st1)
    = queue (place_children existing2 children cnt pX pY d k st2).
Proof.
  revert k st1 st2. induction children as [|child rest IH]; intros k st1 st2 Ha Hq; simpl; [done|].
  rewrite Ha. case_decide; [by apply IH|].
  apply IH; simpl; by rewrite ?Ha, ?Hq.
Qed.

Lemma traverse_shape existing1 existing2 nodes fuel head st1 st2 st1' st2' :
  assigned st1 = assigned st2 → queue st1 = queue st2 →
  traverse fuel existing1 nodes head st1 = Some st1' →
  traverse fuel existing2 nodes head st2 = Some st2' →
  assigned st1' = assigned st2' ∧ queue st1' = queue st2'.
Proof.
  revert head st1 st2. induction fuel as [|fuel IH]; intros head st1 st2 Ha Hq; simpl; [done|].
  rewrite Hq. destruct (queue st2 !! head) as [item|].
  - apply IH; unfold visit; by apply place_children_shape.
  - by intros [= <-] [= <-].
Qed.

Lemma traversal_shape existing1 existing2 nodes root st1 st2 :
  traversal existing1 nodes root = Some st1 →
  traversal existing2 nodes root = Some st2 →
  assigned st1 = assigned st2 ∧ queue st1 = queue st2.
Proof. by apply traverse_shape. Qed.

Lemma layout_queue_existing existing1 existing2 backendNodes :
  layout_queue existing1 backendNodes = layout_queue existing2 backendNodes.
Proof.
  unfold layout_queue.
  destruct (find no_parent (Object_values backendNodes)) as [root|] eqn:Hroot; [|done].
  apply find_no_parent_in in Hroot.
  destruct (traversal_is_Some existing1 _ _ Hroot) as [st1 H1].
  destruct (traversal_is_Some existing2 _ _ Hroot) as [st2 H2].
  rewrite H1, H2. by eapply traversal_shape.
Qed.

(** *** In a fresh layout the queue carries the positions of the result *)

Lemma fresh_coords_place_child nodes child cnt pX pY d k st :
  WF nodes st → BackendWordNode.id child ∉ assigned st →
  fresh_coords st → fresh_coords (place_child None child cnt pX pY d k st).
Proof.
  intros Hwf Hfresh Hcoords item [Hitem| ->%list_elem_of_singleton]%elem_of_app; simpl.
  - rewrite lookup_insert_ne; [by apply Hcoords|].
    intros Heq. apply Hfresh. rewrite (wf_queue _ _ Hwf). apply elem_of_list_to_set.
    unfold queue_ids. apply list_elem_of_fmap. eauto.
  - rewrite lookup_insert_eq. eauto.
Qed.

Lemma traversal_fresh_coords nodes root st :
  root ∈ nodes → traversal None nodes root = Some st → fresh_coords st.
Proof.
  intros Hroot Hrun. unfold traversal in Hrun.
  eapply (traverse_invariant (λ _ st, WF nodes st ∧ fresh_coords st)) in Hrun
    as (head & [_ Hcoords] & _).
  - done.
  - intros head st' item [Hwf Hcoords] Hitem. unfold visit.
    apply (place_children_inv (λ st, WF nodes st ∧ fresh_coords st)); [|done].
    intros k st'' child Hc Hfresh [Hwf' Hcoords']. split.
    + apply WF_place_child; [done| |done]. by eapply children_in_nodes.
    + by eapply fresh_coords_place_child.
  - split; [by apply WF_start|].
    intros item ->%list_elem_of_singleton. simpl. rewrite lookup_insert_eq. eauto.
Qed.

(** *** The final loop draws random numbers only for missed nodes
    without an existing position *)

Lemma place_missed_random existing nodes rnd1 rnd2 st :
  (∀ n, n ∈ nodes → BackendWordNode.id n ∈ assigned st
                    ∨ is_Some (existing_entry existing (BackendWordNode.id n))) →
  place_missed existing nodes rnd1 st = place_missed existing nodes rnd2 st.
Proof.
  revert rnd1 rnd2 st. induction nodes as [|n rest IH]; intros rnd1 rnd2 st Hall; simpl; [done|].
  case_decide as Hn.
  - apply IH. intros. apply Hall. by right.
  - destruct (Hall n) as [?|[e He]]; [by left|done|].
    unfold place_missed_node. rewrite He. apply IH.
    intros n' Hn'. destruct (Hall n') as [?|?]; [by right| |by right].
    left. simpl. set_solver.
Qed.

(** The traversal assigns no other nodes than those that parent links
    connect to the root. *)
Lemma traversal_reachable existing nodes root st i :
  traversal existing nodes root = Some st →
  i ∈ assigned st → Reachable nodes (BackendWordNode.id root) i.
Proof.
  intros Hrun. unfold traversal in Hrun. revert i.
  eapply (traverse_invariant
            (λ _ st, assigned st = list_to_set (queue_ids st)
                     ∧ ∀ i, i ∈ assigned st → Reachable nodes (BackendWordNode.id root) i))
    in Hrun as (head & [_ Hreach] & _).
  - done.
  - intros head st' item [Hq Hreach] Hitem.
    assert (Reachable nodes (BackendWordNode.id root) (nodeId item)) as Hparent.
    { apply Hreach. rewrite Hq. apply elem_of_list_to_set. unfold queue_ids.
      apply list_elem_of_fmap. exists item. split; [done|].
      by eapply list_elem_of_lookup_2. }
    unfold visit. apply place_children_inv; [|done].
    intros k st'' child [Hchild Hin]%list_elem_of_filter Hfresh [Hq' Hreach']. split.
    + unfold queue_ids in *. simpl. rewrite fmap_app, list_to_set_app_L, <- Hq'. simpl.
      set_solver.
    + simpl. intros i [->%elem_of_singleton|Hi]%elem_of_union; [|by apply Hreach'].
      by eapply Reachable_child.
  - split; [simpl; unfold queue_ids; simpl; set_solver|].
    intros i Hi. simpl in Hi. apply elem_of_singleton in Hi as ->. apply Reachable_root.
Qed.

(** A node that is not assigned when the final loop starts and has no
    existing position is placed by two successive draws. *)
Lemma place_missed_draws existing nodes (rnd : Random num) st n :
  NoDup (ids nodes) → n ∈ nodes →
  BackendWordNode.id n ∉ assigned st →
  existing_entry existing (BackendWordNode.id n) = None →
  ∃ k, positionedNodes (place_missed existing nodes rnd st) !! BackendWordNode.id n
       = Some (positioned n (mul (rnd k) NODE_AREA_WIDTH) (mul (rnd (S k)) NODE_AREA_HEIGHT)).
Proof.
  revert rnd st. induction nodes as [|m rest IH]; intros rnd st Hnd Hn Hfresh Hnone;
    [by apply elem_of_nil in Hn|].
  apply NoDup_cons in Hnd as [Hm Hnd]. simpl.
  apply elem_of_cons in Hn as [->|Hn].
  - rewrite decide_False by done. unfold place_missed_node. rewrite Hnone. simpl.
    exists 0.
    rewrite (ext_positioned _ _ (extends_place_missed existing rest _ _))
      by (simpl; set_solver).
    simpl. apply lookup_insert_eq.
  - assert (BackendWordNode.id n ≠ BackendWordNode.id m) as Hne.
    { intros Heq. apply Hm. rewrite <- Heq. unfold ids. apply list_elem_of_fmap. eauto. }
    case_decide; [by apply IH|].
    destruct (place_missed_node existing m rnd st) as [st1 rnd1] eqn:Hnode.
    assert (∃ j, ∀ i, rnd1 i = rnd (j + i)) as [j Hj].
    { unfold place_missed_node, Math_random in Hnode.
      destruct (existing_entry existing (BackendWordNode.id m));
        simplify_eq/=; [by exists 0|by exists 2]. }
    destruct (IH rnd1 st1) as [k Hk]; [done..| |done|].
    + change st1 with (st1, rnd1).1. rewrite <- Hnode, place_missed_node_assigned.
      set_solver.
    + exists (j + k). rewrite Hk, !Hj. by rewrite Nat.add_succ_r.
Qed.

End Traversal.

(** ** The magnitude of the coordinates *)

Section Magnitude.
Context {num : Type} `{Number num} (bounded : Z → num → Prop) `{!BoundedArith bounded}.
Implicit Types (st : LayoutState num) (item : QueueItem num)
  (existing : option (gmap string (WordNode.t num)))
  (nodes children : list BackendWordNode.t).

Lemma reach_mono (d d' : nat) : d ≤ d' → (reach d ≤ reach d')%Z.
Proof. unfold reach. intros Hd. nia. Qed.

Lemma reach_step (d : nat) : (reach d + 100 * (Z.of_nat d + 1) ≤ reach (d + 1))%Z.
Proof. unfold reach. nia. Qed.

Lemma reach_safe (d n : nat) (B : Z) :
  d ≤ n → (reach n ≤ B)%Z → (B ≤ MAX_SAFE_INTEGER)%Z →
  (reach d ≤ MAX_SAFE_INTEGER)%Z ∧ (100 * (Z.of_nat d + 1) ≤ MAX_SAFE_INTEGER)%Z.
Proof.
  intros Hd Hn HB. pose proof (reach_mono d n Hd). unfold reach in *. nia.
Qed.

Lemma bounded_nat (k : nat) :
  (Z.of_nat k ≤ MAX_SAFE_INTEGER)%Z → bounded (Z.of_nat k) (of_Z (Z.of_nat k)).
Proof.
  intros Hk. rewrite <- (Z.abs_eq (Z.of_nat k)) at 1 by lia.
  apply bounded_of_Z. lia.
Qed.

Lemma bounded_literal (z : Z) :
  (0 ≤ z ≤ MAX_SAFE_INTEGER)%Z → bounded z (of_Z z).
Proof. intros Hz. rewrite <- (Z.abs_eq z) at 1 by lia. apply bounded_of_Z. lia. Qed.

Lemma MAX_SAFE_INTEGER_large : (1000000 ≤ MAX_SAFE_INTEGER)%Z.
Proof. vm_compute. discriminate. Qed.

Lemma bounded_angle (cnt k : nat) :
  (4 * (Z.of_nat k + 1) ≤ MAX_SAFE_INTEGER)%Z → (Z.of_nat cnt + 1 ≤ MAX_SAFE_INTEGER)%Z →
  bounded (4 * (Z.of_nat k + 1)) (angle_of cnt k).
Proof.
  intros Hk Hcnt. unfold angle_of.
  apply bounded_mul; [| |lia].
  - apply bounded_div; [apply bounded_PI|lia..].
  - replace (Z.of_nat k + 1)%Z with (Z.of_nat (k + 1)) by lia. apply bounded_nat. lia.
Qed.

Lemma bounded_offsetX (cnt k d : nat) :
  (4 * (Z.of_nat k + 1) ≤ MAX_SAFE_INTEGER)%Z → (Z.of_nat cnt + 1 ≤ MAX_SAFE_INTEGER)%Z →
  (100 * (Z.of_nat d + 1) ≤ MAX_SAFE_INTEGER)%Z →
  bounded (100 * (Z.of_nat d + 1)) (offsetX_of cnt k d).
Proof.
  intros Hk Hcnt Hd. pose proof MAX_SAFE_INTEGER_large. unfold offsetX_of, NODE_OFFSET_X.
  replace (100 * (Z.of_nat d + 1))%Z with (1 * 100 * Z.of_nat (d + 1) * 1)%Z by lia.
  apply bounded_mul; [|apply bounded_lit_0_5|lia].
  apply bounded_mul; [|apply bounded_nat; lia|lia].
  apply bounded_mul; [|apply bounded_literal; lia|lia].
  eapply bounded_cos. by apply bounded_angle.
Qed.

Lemma bounded_offsetY (cnt k : nat) :
  (4 * (Z.of_nat k + 1) ≤ MAX_SAFE_INTEGER)%Z → (Z.of_nat cnt + 1 ≤ MAX_SAFE_INTEGER)%Z →
  bounded 100%Z (offsetY_of cnt k).
Proof.
  intros Hk Hcnt. pose proof MAX_SAFE_INTEGER_large. unfold offsetY_of, NODE_OFFSET_Y.
  change 100%Z with (1 * 50 * 2)%Z.
  apply bounded_mul; [|apply bounded_lit_1_5|lia].
  apply bounded_mul; [|apply bounded_literal; lia|lia].
  eapply bounded_sin. by apply bounded_angle.
Qed.

Lemma bounded_rootX : bounded 500%Z rootX.
Proof.
  pose proof MAX_SAFE_INTEGER_large. unfold rootX, NODE_AREA_WIDTH.
  apply bounded_div; [apply bounded_literal|..]; lia.
Qed.

Lemma bounded_rootY : bounded 500%Z rootY.
Proof.
  pose proof MAX_SAFE_INTEGER_large. unfold rootY.
  apply (bounded_mono 50%Z); [apply bounded_literal|]; lia.
Qed.

Lemma bounded_keep_or_place existing (B : Z) c px py :
  (∀ i e, existing_entry existing i = Some e → bounded_entry bounded B e) →
  bounded B px → bounded B py →
  bounded_entry bounded B (keep_or_place existing c px py).
Proof.
  intros Hexisting Hx Hy. unfold keep_or_place.
  destruct (existing_entry existing (BackendWordNode.id c)) as [e|] eqn:He.
  - by apply Hexisting in He.
  - by split.
Qed.

Lemma bounded_place_in_row existing (B : Z) nodes (k : nat) cx cy
    (m : gmap string (WordNode.t num)) :
  (50 + 100 * Z.of_nat (k + length nodes) ≤ B)%Z → (B ≤ MAX_SAFE_INTEGER)%Z →
  (∀ i e, existing_entry existing i = Some e → bounded_entry bounded B e) →
  bounded (50 + 100 * Z.of_nat k) cx → bounded B cy →
  (∀ i w, m !! i = Some w → bounded_entry bounded B w) →
  ∀ i w, place_in_row existing nodes cx cy m !! i = Some w → bounded_entry bounded B w.
Proof.
  intros HB Hsafe Hexisting. revert k cx m HB.
  induction nodes as [|node rest IH]; intros k cx m HB Hcx Hcy Hm; simpl; [done|].
  simpl in HB. apply (IH (S k)).
  - by replace (S k + length rest) with (k + S (length rest)) by lia.
  - replace (50 + 100 * Z.of_nat (S k))%Z with (50 + 100 * Z.of_nat k + 100)%Z by lia.
    apply bounded_add; [done|apply bounded_literal; lia|lia].
  - done.
  - intros i w [[_ ?]|[_ Hi]]%lookup_insert_Some; [subst w|by eapply Hm].
    apply bounded_keep_or_place; [done| |done].
    eapply bounded_mono; [exact Hcx|lia].
Qed.

Section Bounds.
Variables (existing : option (gmap string (WordNode.t num)))
  (nodes : list BackendWordNode.t) (B : Z).
Hypothesis Hreach : (reach (length nodes) ≤ B)%Z.
Hypothesis Hsafe : (B ≤ MAX_SAFE_INTEGER)%Z.
Hypothesis Hexisting :
  ∀ i e, existing_entry existing i = Some e → bounded_entry bounded B e.

Lemma bounded_place_child child cnt pX pY d k st :
  WF nodes st → child ∈ nodes → BackendWordNode.id child ∉ assigned st →
  k < cnt → cnt ≤ length nodes →
  d < length (queue st) →
  bounded (reach d) pX → bounded (reach d) pY →
  bounded_state bounded B st →
  bounded_state bounded B (place_child existing child cnt pX pY d k st).
Proof.
  intros Hwf Hchild Hfresh Hk Hcnt Hd HpX HpY [Hentries Hqueue].
  pose proof (WF_queue_length _ _ (WF_place_child _ existing _ cnt pX pY d k _ Hwf Hchild Hfresh))
    as Hlen.
  simpl in Hlen. rewrite length_app in Hlen. simpl in Hlen.
  destruct (reach_safe (d + 1) (length nodes) B) as (Hd1 & Hd2); [lia|done..|].
  destruct (reach_safe (length nodes) (length nodes) B) as (Hn1 & Hn2); [lia|done..|].
  pose proof (reach_mono (d + 1) (length nodes)) as Hmono.
  pose proof (reach_step d) as Hstep.
  pose proof MAX_SAFE_INTEGER_large.
  assert (bounded (reach (d + 1)) (add pX (offsetX_of cnt k d))) as HX.
  { eapply bounded_mono; [|apply Hstep].
    apply bounded_add; [done| |lia].
    apply bounded_offsetX; lia. }
  assert (bounded (reach (d + 1)) (add pY (offsetY_of cnt k))) as HY.
  { eapply bounded_mono; [apply bounded_add; [exact HpY|apply bounded_offsetY; lia|]|].
    - unfold reach in *. nia.
    - unfold reach in *. nia. }
  split; simpl.
  - intros i w [[? ?]|[_ Hi]]%lookup_insert_Some; [subst i w|by eapply Hentries].
    apply bounded_keep_or_place; [done|..]; (eapply bounded_mono; [eassumption|lia]).
  - intros item [Hitem|Hitem%list_elem_of_singleton]%elem_of_app; rewrite length_app; simpl.
    + destruct (Hqueue item Hitem) as (? & ? & ?). split; [lia|done].
    + subst item. simpl. split; [lia|done].
Qed.

Lemma bounded_place_children children cnt pX pY d k st :
  WF nodes st → (∀ c, c ∈ children → c ∈ nodes) →
  k + length children ≤ cnt → cnt ≤ length nodes →
  d < length (queue st) →
  bounded (reach d) pX → bounded (reach d) pY →
  bounded_state bounded B st →
  bounded_state bounded B (place_children existing children cnt pX pY d k st).
Proof.
  revert k st. induction children as [|child rest IH];
    intros k st Hwf Hin Hk Hcnt Hd HpX HpY Hst; simpl; [done|].
  simpl in Hk. case_decide as Hassigned.
  - apply IH; try done; [|lia]. intros c Hc. apply Hin. by right.
  - apply IH.
    + apply WF_place_child; [done| |done]. apply Hin. by left.
    + intros c Hc. apply Hin. by right.
    + lia.
    + done.
    + simpl. rewrite length_app. lia.
    + done.
    + done.
    + apply bounded_place_child; try done; [apply Hin; by left|lia].
Qed.

Lemma bounded_visit item st :
  WF nodes st → item ∈ queue st →
  bounded_state bounded B st → bounded_state bounded B (visit existing nodes item st).
Proof.
  intros Hwf Hitem Hst. unfold visit.
  destruct Hst as [Hentries Hqueue]. destruct (Hqueue item Hitem) as (Hd & HX & HY).
  apply bounded_place_children; try done.
  - intros c. apply children_in_nodes.
  - apply length_filter.
Qed.

Lemma bounded_start root : bounded_state bounded B (start_state root).
Proof.
  pose proof (reach_mono 0 (length nodes) ltac:(lia)) as Hmono.
  change (reach 0) with 500%Z in Hmono.
  split; simpl.
  - intros i w [[_ ?]|[_ Hi]]%lookup_insert_Some; [subst w|by rewrite lookup_empty in Hi].
    split; simpl; (eapply bounded_mono; [|exact (Z.le_trans _ _ _ Hmono Hreach)]).
    + apply bounded_rootX.
    + apply bounded_rootY.
  - intros item Hitem%list_elem_of_singleton. subst item. simpl. split; [lia|].
    split; [apply bounded_rootX|apply bounded_rootY].
Qed.

Lemma bounded_traversal root st :
  root ∈ nodes → traversal existing nodes root = Some st →
  bounded_state bounded B st.
Proof.
  intros Hroot Hrun. unfold traversal in Hrun.
  eapply (traverse_invariant (λ _ st', WF nodes st' ∧ bounded_state bounded B st'))
    in Hrun as (head & [_ Hst] & _); [done| |].
  - intros head st' item [Hwf Hst'] Hitem. split; [by apply WF_visit|].
    apply bounded_visit; [done| |done]. by eapply list_elem_of_lookup_2.
  - split; [by apply WF_start|apply bounded_start].
Qed.

Lemma bounded_place_missed (rnd : Random num) st :
  (∀ n, bounded 1%Z (rnd n)) →
  (∀ i w, positionedNodes st !! i = Some w → bounded_entry bounded B w) →
  ∀ i w, positionedNodes (place_missed existing nodes rnd st) !! i = Some w →
         bounded_entry bounded B w.
Proof.
  assert (500 ≤ B)%Z as HB.
  { pose proof (reach_mono 0 (length nodes) ltac:(lia)) as Hmono.
    change (reach 0) with 500%Z in Hmono. lia. }
  clear Hreach. revert rnd st. induction nodes as [|node rest IH]; intros rnd st Hrnd Hst; simpl; [done|].
  case_decide; [by apply IH|].
  destruct (place_missed_node existing node rnd st) as [st1 rnd1] eqn:Hnode.
  unfold place_missed_node in Hnode.
  destruct (existing_entry existing (BackendWordNode.id node)) as [e|] eqn:He.
  - injection Hnode as <- <-. apply IH; [done|]. simpl.
    intros i w [[_ ?]|[_ Hi]]%lookup_insert_Some; [subst w|by eapply Hst].
    by apply Hexisting in He.
  - unfold Math_random in Hnode. injection Hnode as <- <-. apply IH; [by intros n'|]. simpl.
    intros i w [[_ ?]|[_ Hi]]%lookup_insert_Some; [subst w|by eapply Hst].
    unfold NODE_AREA_WIDTH, NODE_AREA_HEIGHT. split; simpl.
    + apply (bounded_mono (1 * 500)%Z); [|lia].
      apply bounded_mul; [apply Hrnd|apply bounded_literal; lia|lia].
    + apply (bounded_mono (1 * 400)%Z); [|lia].
      apply bounded_mul; [apply Hrnd|apply bounded_literal; lia|lia].
Qed.

End Bounds.

Lemma layout_bounded (rnd : Random num) (backendNodes : BackendNodes)
    (existing : option (gmap string (WordNode.t num))) (B : Z)
    (res : gmap string (WordNode.t num)) :
  (reach (length backendNodes) ≤ B)%Z → (B ≤ MAX_SAFE_INTEGER)%Z →
  (∀ n, bounded 1%Z (rnd n)) →
  (∀ i e, existing_entry existing i = Some e → bounded_entry bounded B e) →
  assignPositionsToNodes rnd backendNodes existing = Some res →
  ∀ i w, res !! i = Some w → bounded_entry bounded B w.
Proof.
  intros HB Hsafe Hrnd Hexisting Hres.
  assert (length (Object_values backendNodes) = length backendNodes) as Hlen
    by apply length_map.
  unfold assignPositionsToNodes in Hres.
  destruct (find no_parent (Object_values backendNodes)) as [root|] eqn:Hroot.
  - destruct (traversal existing (Object_values backendNodes) root) as [st|] eqn:Hst; [|done].
    injection Hres as <-.
    apply (bounded_place_missed existing (Object_values backendNodes) B); try done.
    + by rewrite Hlen.
    + eapply (bounded_traversal existing (Object_values backendNodes) B); try done.
      * by rewrite Hlen.
      * by eapply find_no_parent_in.
  - injection Hres as <-. pose proof MAX_SAFE_INTEGER_large.
    apply (bounded_place_in_row existing B (Object_values backendNodes) 0); try done.
    + rewrite Hlen. unfold reach in HB. nia.
    + apply bounded_literal. lia.
    + apply (bounded_mono 50%Z); [apply bounded_literal; lia|unfold reach in HB; nia].
Qed.

Lemma snapshot_bounded (N : nat) (res : gmap string (WordNode.t num)) :
  (reach N ≤ MAX_SAFE_INTEGER)%Z → snapshot bounded N res →
  ∀ i w, res !! i = Some w → bounded_entry bounded (reach N) w.
Proof.
  intros Hsafe Hsnap.
  induction Hsnap as [rnd backendNodes res Hrnd Hlen Hres
                     |rnd backendNodes prev res _ IH Hrnd Hlen Hres].
  - apply (layout_bounded rnd backendNodes None (reach N) res); [by apply reach_mono|done..].
  - apply (layout_bounded rnd backendNodes (Some prev) (reach N) res);
      [by apply reach_mono|done|done|exact IH|done].
Qed.

End Magnitude.

(** ** The layout as a whole *)

Section LayoutTheorems.
Context {num : Type} `{Number num}.
Implicit Types (st : LayoutState num) (item : QueueItem num)
  (existing : option (gmap string (WordNode.t num)))
  (nodes children : list BackendWordNode.t).
Local Open Scope num_scope.

Lemma assign_rooted rnd backendNodes existing root :
  find no_parent (Object_values backendNodes) = Some root →
  ∃ st, traversal existing (Object_values backendNodes) root = Some st
        ∧ assignPositionsToNodes rnd backendNodes existing
          = Some (positionedNodes
                    (place_missed existing (Object_values backendNodes) rnd st)).
Proof.
  intros Hroot. unfold assignPositionsToNodes. rewrite Hroot.
  destruct (traversal_is_Some existing (Object_values backendNodes) root) as [st Hst];
    [by eapply find_no_parent_in|].
  exists st. by rewrite Hst.
Qed.

Lemma assign_rootless rnd backendNodes existing :
  find no_parent (Object_values backendNodes) = None →
  assignPositionsToNodes rnd backendNodes existing
  = Some (place_in_row existing (Object_values backendNodes) (of_Z 50) (of_Z 50) ∅).
Proof. intros Hroot. unfold assignPositionsToNodes. by rewrite Hroot. Qed.

Lemma assign_covers rnd backendNodes existing res n :
  assignPositionsToNodes rnd backendNodes existing = Some res →
  n ∈ Object_values backendNodes → is_Some (res !! BackendWordNode.id n).
Proof.
  intros Hres Hn. apply elem_of_dom.
  destruct (find no_parent (Object_values backendNodes)) as [root|] eqn:Hroot.
  - destruct (assign_rooted rnd backendNodes existing root Hroot) as (st & Hst & Hres').
    rewrite Hres' in Hres. injection Hres as <-.
    apply find_no_parent_in in Hroot.
    destruct (traversal_loop_inv _ _ _ _ Hroot Hst) as (head & (Hwf & _) & _).
    rewrite place_missed_dom by apply Hwf. by apply place_missed_covers.
  - rewrite assign_rootless in Hres by done. injection Hres as <-.
    rewrite place_in_row_dom. apply elem_of_union_l, elem_of_list_to_set.
    unfold ids. apply list_elem_of_fmap. eauto.
Qed.

Lemma assign_provenance (valid : num → Prop) `{!ValidArith valid}
    rnd backendNodes existing res i w :
  (∀ n, valid (rnd n)) →
  assignPositionsToNodes rnd backendNodes existing = Some res →
  res !! i = Some w →
  provenance existing valid (Object_values backendNodes)
    (find no_parent (Object_values backendNodes)) i w.
Proof.
  intros Hrnd Hres Hi.
  destruct (find no_parent (Object_values backendNodes)) as [root|] eqn:Hroot.
  - destruct (assign_rooted rnd backendNodes existing root Hroot) as (st & Hst & Hres').
    rewrite Hres' in Hres. injection Hres as <-.
    eapply (sound_place_missed valid); [done| |done].
    by eapply traversal_sound.
  - rewrite assign_rootless in Hres by done. injection Hres as <-.
    eapply (place_in_row_provenance valid); [..|done]; try apply valid_of_Z; [done|].
    intros j v. by rewrite lookup_empty.
Qed.

Lemma assign_root_entry rnd backendNodes existing res root :
  find no_parent (Object_values backendNodes) = Some root →
  assignPositionsToNodes rnd backendNodes existing = Some res →
  res !! BackendWordNode.id root = Some (positioned root rootX rootY).
Proof.
  intros Hroot Hres.
  destruct (assign_rooted rnd backendNodes existing root Hroot) as (st & Hst & Hres').
  rewrite Hres' in Hres. injection Hres as <-.
  apply find_no_parent_in in Hroot.
  destruct (traversal_loop_inv _ _ _ _ Hroot Hst) as (head & (_ & _ & Hext & _) & _).
  rewrite (ext_positioned _ _ (extends_place_missed existing _ rnd st))
    by (apply (ext_assigned _ _ Hext); simpl; set_solver).
  rewrite (ext_positioned _ _ Hext) by (simpl; set_solver).
  simpl. apply lookup_insert_eq.
Qed.

Lemma ValidArith_True : ValidArith (λ _ : num, True).
Proof. by split. Qed.

Lemma kept_position (rnd : Random num) (backendNodes : BackendNodes)
    (existingNodes : gmap string (WordNode.t num)) (i : string) (e : WordNode.t num) :
  existingNodes !! i = Some e →
  i ∈ ids (Object_values backendNodes) →
  (∀ root, find no_parent (Object_values backendNodes) = Some root →
           BackendWordNode.id root = i →
           WordNode.x e = rootX ∧ WordNode.y e = rootY) →
  ∃ res w,
    assignPositionsToNodes rnd backendNodes (Some existingNodes) = Some res
    ∧ res !! i = Some w
    ∧ WordNode.x w = WordNode.x e ∧ WordNode.y w = WordNode.y e.
Proof.
  intros He Hi Hroot.
  destruct (assignPositionsToNodes_is_Some rnd backendNodes (Some existingNodes))
    as [res Hres].
  unfold ids in Hi. apply list_elem_of_fmap in Hi as (n & -> & Hn).
  destruct (assign_covers _ _ _ _ n Hres Hn) as [w Hw].
  exists res, w. split; [done|]. split; [done|].
  pose proof (assign_provenance (λ _, True) (ValidArith0 := ValidArith_True)
                rnd backendNodes (Some existingNodes) res _ w (λ _, I) Hres Hw)
    as [(r & Hr & Hid & ->)|(c & Hc & Hid & Hentry)].
  - simpl. symmetry in Hid. destruct (Hroot r Hr Hid) as [-> ->]. done.
  - unfold entry_of in Hentry. simpl in Hentry. rewrite Hid, He in Hentry.
    by subst w.
Qed.

(** One snapshot after the other, which is what [handleAddConnection]
    does with the nodes of the previous snapshot: while the root stays the
    same node, every node of the previous snapshot that the backend still
    sends keeps its coordinates, the root included. *)
Lemma kept_in_next_snapshot (rnd0 rnd1 : Random num) (nodes0 nodes1 : BackendNodes)
    existing0 (root0 root1 : BackendWordNode.t) prev (i : string) (w0 : WordNode.t num) :
  assignPositionsToNodes rnd0 nodes0 existing0 = Some prev →
  find no_parent (Object_values nodes0) = Some root0 →
  find no_parent (Object_values nodes1) = Some root1 →
  BackendWordNode.id root0 = BackendWordNode.id root1 →
  prev !! i = Some w0 →
  i ∈ ids (Object_values nodes1) →
  ∃ next w1,
    assignPositionsToNodes rnd1 nodes1 (Some prev) = Some next
    ∧ next !! i = Some w1
    ∧ WordNode.x w1 = WordNode.x w0 ∧ WordNode.y w1 = WordNode.y w0.
Proof.
  intros Hprev Hroot0 Hroot1 Hsame Hw0 Hi.
  apply kept_position; [done..|].
  intros root Hroot <-. rewrite Hroot1 in Hroot. injection Hroot as <-.
  rewrite <- Hsame, (assign_root_entry _ _ _ _ _ Hroot0 Hprev) in Hw0.
  by injection Hw0 as <-.
Qed.

(** C1, as amended.  First part: a node with an entry in [existingNodes]
    has in the result the coordinates of that entry, unchanged, with one
    exception: the root, which the code puts at its anchor
    [(rootX, rootY)] without looking at [existingNodes], keeps its
    coordinates when they are the anchor's.  This covers the traversal,
    the nodes it misses, and the row laid out when there is no root.
    Second part: from one snapshot of a session to the next, while the
    root stays the same node, every node of the previous snapshot that the
    backend still sends keeps its coordinates, the root included; so only
    the new node gets a new position. *)
Theorem existing_positions_kept :
  (∀ (rnd : Random num) (backendNodes : BackendNodes)
     (existingNodes : gmap string (WordNode.t num)) (i : string) (e : WordNode.t num),
      existingNodes !! i = Some e →
      i ∈ ids (Object_values backendNodes) →
      (∀ root, find no_parent (Object_values backendNodes) = Some root →
               BackendWordNode.id root = i →
               WordNode.x e = rootX ∧ WordNode.y e = rootY) →
      ∃ res w,
        assignPositionsToNodes rnd backendNodes (Some existingNodes) = Some res
        ∧ res !! i = Some w
        ∧ WordNode.x w = WordNode.x e ∧ WordNode.y w = WordNode.y e)
  ∧ (∀ (rnd0 rnd1 : Random num) (nodes0 nodes1 : BackendNodes)
       (existing0 : option (gmap string (WordNode.t num)))
       (root0 root1 : BackendWordNode.t) (prev : gmap string (WordNode.t num))
       (i : string) (w0 : WordNode.t num),
        assignPositionsToNodes rnd0 nodes0 existing0 = Some prev →
        find no_parent (Object_values nodes0) = Some root0 →
        find no_parent (Object_values nodes1) = Some root1 →
        BackendWordNode.id root0 = BackendWordNode.id root1 →
        prev !! i = Some w0 →
        i ∈ ids (Object_values nodes1) →
        ∃ next w1,
          assignPositionsToNodes rnd1 nodes1 (Some prev) = Some next
          ∧ next !! i = Some w1
          ∧ WordNode.x w1 = WordNode.x w0 ∧ WordNode.y w1 = WordNode.y w0).
Proof. split; [apply kept_position|apply kept_in_next_snapshot]. Qed.

Lemma own_entry (res : gmap string (WordNode.t num)) (i : string) :
  is_Some (res !! i) → is_Some (own_properties res !! i) ↔ i ≠ "__proto__".
Proof.
  intros Hi. unfold own_properties. split.
  - intros [w Hw] ->. by rewrite lookup_delete_eq in Hw.
  - intros Hne. by rewrite lookup_delete_ne.
Qed.


Lemma independent_of_random (rnd1 rnd2 : Random num)
    (backendNodes : BackendNodes) (existing : option (gmap string (WordNode.t num))) :
  (∀ root n, find no_parent (Object_values backendNodes) = Some root →
             n ∈ Object_values backendNodes →
             Reachable (Object_values backendNodes) (BackendWordNode.id root)
                       (BackendWordNode.id n)
             ∨ is_Some (existing_entry existing (BackendWordNode.id n))) →
  assignPositionsToNodes rnd1 backendNodes existing
  = assignPositionsToNodes rnd2 backendNodes existing.
Proof.
  intros Hreach.
  destruct (find no_parent (Object_values backendNodes)) as [root|] eqn:Hroot.
  - destruct (assign_rooted rnd1 backendNodes existing root Hroot) as (st & Hst & ->).
    destruct (assign_rooted rnd2 backendNodes existing root Hroot) as (st' & Hst' & ->).
    rewrite Hst in Hst'. injection Hst' as <-.
    f_equal. f_equal. apply place_missed_random.
    intros n Hn. destruct (Hreach root n eq_refl Hn) as [Hr|?]; [left|by right].
    eapply traversal_complete; [|done..]. by eapply find_no_parent_in.
  - by rewrite !assign_rootless.
Qed.

Lemma unreachable_is_random (rnd : Random num)
    (backendNodes : BackendNodes) (existing : option (gmap string (WordNode.t num)))
    (root n : BackendWordNode.t) :
  NoDup (ids (Object_values backendNodes)) →
  find no_parent (Object_values backendNodes) = Some root →
  n ∈ Object_values backendNodes →
  ¬ Reachable (Object_values backendNodes) (BackendWordNode.id root) (BackendWordNode.id n) →
  existing_entry existing (BackendWordNode.id n) = None →
  ∃ res k,
    assignPositionsToNodes rnd backendNodes existing = Some res
    ∧ res !! BackendWordNode.id n
      = Some (positioned n (rnd k * NODE_AREA_WIDTH) (rnd (S k) * NODE_AREA_HEIGHT)).
Proof.
  intros Hnd Hroot Hn Hunreachable Hnone.
  destruct (assign_rooted rnd backendNodes existing root Hroot) as (st & Hst & Hres).
  destruct (place_missed_draws existing (Object_values backendNodes) rnd st n) as [k Hk];
    [done..| |done|].
  - intros Hin. apply Hunreachable. by eapply traversal_reachable.
  - eauto.
Qed.

(** C2, as amended.  First part: when there is no root, or when every node
    is reachable from the root by parent links or has an existing
    position, the result does not depend on what [Math.random] returns.
    Second part: in a map with distinct identifiers, a node that is not
    reachable from the root and has no existing position is placed at
    [(Math.random() * 500, Math.random() * 400)], by two successive
    draws. *)
Theorem layout_independent_of_random :
  (∀ (rnd1 rnd2 : Random num) (backendNodes : BackendNodes)
     (existing : option (gmap string (WordNode.t num))),
      (∀ root n, find no_parent (Object_values backendNodes) = Some root →
                 n ∈ Object_values backendNodes →
                 Reachable (Object_values backendNodes) (BackendWordNode.id root)
                           (BackendWordNode.id n)
                 ∨ is_Some (existing_entry existing (BackendWordNode.id n))) →
      assignPositionsToNodes rnd1 backendNodes existing
      = assignPositionsToNodes rnd2 backendNodes existing)
  ∧ (∀ (rnd : Random num) (backendNodes : BackendNodes)
       (existing : option (gmap string (WordNode.t num))) (root n : BackendWordNode.t),
        NoDup (ids (Object_values backendNodes)) →
        find no_parent (Object_values backendNodes) = Some root →
        n ∈ Object_values backendNodes →
        ¬ Reachable (Object_values backendNodes) (BackendWordNode.id root)
                    (BackendWordNode.id n) →
        existing_entry existing (BackendWordNode.id n) = None →
        ∃ res k,
          assignPositionsToNodes rnd backendNodes existing = Some res
          ∧ res !! BackendWordNode.id n
            = Some (positioned n (rnd k * of_Z 500) (rnd (S k) * of_Z 400))).
Proof. split; [apply independent_of_random|apply unreachable_is_random]. Qed.

Lemma root_item_in_queue existing backendNodes root :
  find no_parent (Object_values backendNodes) = Some root →
  mkItem (BackendWordNode.id root) rootX rootY 0 ∈ layout_queue existing backendNodes.
Proof.
  intros Hroot. unfold layout_queue. rewrite Hroot.
  pose proof (find_no_parent_in _ _ Hroot) as Hin.
  destruct (traversal_is_Some existing _ _ Hin) as [st Hst]. rewrite Hst.
  destruct (traversal_loop_inv _ _ _ _ Hin Hst) as (head & (_ & _ & Hext & _) & _).
  eapply elem_of_prefix; [|apply Hext]. simpl. by left.
Qed.

Lemma child_placed (rnd : Random num) (backendNodes : BackendNodes)
    (existing : option (gmap string (WordNode.t num)))
    (root : BackendWordNode.t) (item : QueueItem num) (k : nat) (c : BackendWordNode.t) :
  let n := length (filter (is_child_of (nodeId item)) (Object_values backendNodes)) in
  NoDup (ids (Object_values backendNodes)) →
  find no_parent (Object_values backendNodes) = Some root →
  BackendWordNode.parent_id root = None →
  item ∈ layout_queue existing backendNodes →
  filter (is_child_of (nodeId item)) (Object_values backendNodes) !! k = Some c →
  mkItem (BackendWordNode.id c) (childX_of item n k) (childY_of item n k) (depth item + 1)
    ∈ layout_queue existing backendNodes
  ∧ ∃ res,
      assignPositionsToNodes rnd backendNodes existing = Some res
      ∧ res !! BackendWordNode.id c
        = Some (keep_or_place existing c (childX_of item n k) (childY_of item n k)).
Proof.
  intros n Hnd Hroot Hparent Hitem Hk. subst n.
  destruct (assign_rooted rnd backendNodes existing root Hroot) as (st & Hst & Hres).
  unfold layout_queue in *. rewrite Hroot, Hst in *.
  apply list_elem_of_lookup in Hitem as [j Hj].
  pose proof (find_no_parent_in _ _ Hroot) as Hin.
  destruct (traversal_placed existing _ root st Hnd Hin Hparent Hst j item k c)
    as [Hpos Hqueue]; [by eapply lookup_lt_Some|done..|].
  split; [done|].
  exists (positionedNodes (place_missed existing (Object_values backendNodes) rnd st)).
  split; [done|].
  destruct (traversal_loop_inv _ _ _ _ Hin Hst) as (head & (Hwf & _) & _).
  rewrite (ext_positioned _ _ (extends_place_missed existing _ rnd st)); [done|].
  rewrite <- (wf_dom _ _ Hwf). apply elem_of_dom. by rewrite Hpos.
Qed.

(** C5.  In a map with distinct identifiers whose root has no parent,
    let [item] be an element of the queue: a node with its computed
    position [(parentX, parentY)] and its depth [d].  The child of that
    node at the index [k] among its [n] children, in the order in which
    the nodes are enumerated, when it has no existing position, is placed
    at [(parentX + cos θ * 100 * (d + 1) * 0.5, parentY + sin θ * 50 * 1.5)]
    with [θ = PI / (n + 1) * (k + 1)]. *)
Theorem child_placement (rnd : Random num) (backendNodes : BackendNodes)
    (existing : option (gmap string (WordNode.t num)))
    (root : BackendWordNode.t) (item : QueueItem num) (k : nat) (c : BackendWordNode.t) :
  let nodesToProcess := Object_values backendNodes in
  let children := filter (is_child_of (nodeId item)) nodesToProcess in
  let n := length children in
  let d := depth item in
  let θ := (Math_PI / of_Z (Z.of_nat (n + 1))) * of_Z (Z.of_nat (k + 1)) in
  NoDup (ids nodesToProcess) →
  find no_parent nodesToProcess = Some root →
  BackendWordNode.parent_id root = None →
  item ∈ layout_queue existing backendNodes →
  children !! k = Some c →
  existing_entry existing (BackendWordNode.id c) = None →
  ∃ res,
    assignPositionsToNodes rnd backendNodes existing = Some res
    ∧ res !! BackendWordNode.id c
      = Some (positioned c
                (parentX item + Math_cos θ * of_Z 100 * of_Z (Z.of_nat (d + 1)) * lit_0_5)
                (parentY item + Math_sin θ * of_Z 50 * lit_1_5)).
Proof.
  intros nodes children n d θ Hnd Hroot Hparent Hitem Hk Hnone.
  destruct (child_placed rnd backendNodes existing root item k c Hnd Hroot Hparent Hitem Hk)
    as (_ & res & Hres & Hc).
  exists res. split; [done|]. rewrite Hc. unfold keep_or_place. by rewrite Hnone.
Qed.

(** C10.  The coordinates that the queue carries for a node are those of
    the node in a layout without existing positions, whatever position
    [existingNodes] keeps for it.  So a child is put in the queue with,
    and when it has no existing position is placed at, the offset of the
    formula from the position [p] that its parent has in a fresh layout
    of the same nodes, not from the position kept for the parent. *)
Theorem child_offset_from_fresh_parent (rnd rnd' : Random num)
    (backendNodes : BackendNodes) (existingNodes : gmap string (WordNode.t num))
    (root : BackendWordNode.t) (item : QueueItem num) (k : nat) (c : BackendWordNode.t) :
  let nodesToProcess := Object_values backendNodes in
  let children := filter (is_child_of (nodeId item)) nodesToProcess in
  let n := length children in
  NoDup (ids nodesToProcess) →
  find no_parent nodesToProcess = Some root →
  BackendWordNode.parent_id root = None →
  item ∈ layout_queue (Some existingNodes) backendNodes →
  children !! k = Some c →
  ∃ fresh p,
    assignPositionsToNodes rnd' backendNodes None = Some fresh
    ∧ fresh !! nodeId item = Some p
    ∧ mkItem (BackendWordNode.id c)
             (WordNode.x p + offsetX_of n k (depth item))
             (WordNode.y p + offsetY_of n k) (depth item + 1)
      ∈ layout_queue (Some existingNodes) backendNodes
    ∧ (existingNodes !! BackendWordNode.id c = None →
       ∃ res,
         assignPositionsToNodes rnd backendNodes (Some existingNodes) = Some res
         ∧ res !! BackendWordNode.id c
           = Some (positioned c
                     (WordNode.x p + offsetX_of n k (depth item))
                     (WordNode.y p + offsetY_of n k))).
Proof.
  intros nodes children n Hnd Hroot Hparent Hitem Hk.
  subst n children nodes.
  destruct (child_placed rnd backendNodes (Some existingNodes) root item k c
              Hnd Hroot Hparent Hitem Hk) as (Hqueue & res & Hres & Hc).
  destruct (assign_rooted rnd' backendNodes None root Hroot) as (st & Hst & Hfresh).
  pose proof Hitem as Hitem'. rewrite (layout_queue_existing _ None) in Hitem'.
  unfold layout_queue in Hitem'. rewrite Hroot, Hst in Hitem'.
  pose proof (find_no_parent_in _ _ Hroot) as Hin.
  destruct (traversal_fresh_coords _ _ _ Hin Hst item Hitem') as (p & Hp & Hx & Hy).
  destruct (traversal_loop_inv _ _ _ _ Hin Hst) as (head & (Hwf & _) & _).
  exists (positionedNodes (place_missed None (Object_values backendNodes) rnd' st)), p.
  split; [done|]. split.
  { rewrite (ext_positioned _ _ (extends_place_missed None _ rnd' st)); [done|].
    rewrite <- (wf_dom _ _ Hwf). apply elem_of_dom. by rewrite Hp. }
  unfold childX_of, childY_of in *. rewrite Hx, Hy. split; [done|].
  intros Hnone. exists res. split; [done|].
  rewrite Hc. unfold keep_or_place. simpl. by rewrite Hnone.
Qed.

End LayoutTheorems.

(** ** The layout over the real numbers *)

Section RealLayout.
Local Existing Instance RealNumber.
Local Open Scope R_scope.

Lemma find_unique {A} (P : A → bool) (l : list A) (a : A) :
  a ∈ l → P a = true → (∀ b, b ∈ l → P b = true → b = a) → find P l = Some a.
Proof.
  induction l as [|b l IH]; intros Hin Ha Huniq; [by apply elem_of_nil in Hin|].
  simpl. destruct (P b) eqn:Hb.
  - f_equal. apply Huniq; [by left|done].
  - apply IH; [|done|].
    + apply elem_of_cons in Hin as [->|?]; [congruence|done].
    + intros c Hc. apply Huniq. by right.
Qed.

(** The offsets of the three children of the root: the angles are
    a quarter, a half and three quarters of [PI]. *)
Lemma fan_of_three :
  ∃ s : R, 0 < s < 1
    ∧ offsetX_of 3 0 0 = 50 * s ∧ offsetY_of 3 0 = 75 * s
    ∧ offsetX_of 3 1 0 = 0 ∧ offsetY_of 3 1 = 75
    ∧ offsetX_of 3 2 0 = - (50 * s) ∧ offsetY_of 3 2 = 75 * s.
Proof.
  assert (0 < sqrt 2) as Hpos by (apply sqrt_lt_R0; lra).
  assert (sqrt 2 * sqrt 2 = 2) as Hsq by (apply sqrt_sqrt; lra).
  assert (1 < sqrt 2) as Hgt by nra.
  exists (1 / sqrt 2). split.
  { split.
    - apply Rdiv_lt_0_compat; lra.
    - apply (Rmult_lt_reg_r (sqrt 2)); [done|]. field_simplify; lra. }
  unfold offsetX_of, offsetY_of, angle_of, NODE_OFFSET_X, NODE_OFFSET_Y; simpl.
  change (Z.of_nat 4) with 4%Z. change (Z.of_nat 3) with 3%Z.
  change (Z.of_nat 2) with 2%Z. change (Z.of_nat 1) with 1%Z.
  replace (PI / 4 * 1) with (PI / 4) by lra.
  replace (PI / 4 * 2) with (PI / 2) by lra.
  replace (PI / 4 * 3) with (3 * (PI / 4)) by lra.
  rewrite cos_PI4, sin_PI4, cos_PI2, sin_PI2, cos_3PI4, sin_3PI4.
  repeat split; field; lra.
Qed.

Lemma fan_geometry (k1 k2 k3 : nat) :
  (k1 < 3)%nat → (k2 < 3)%nat → (k3 < 3)%nat → k1 ≠ k2 → k1 ≠ k3 → k2 ≠ k3 →
  fan_point k1 ≠ fan_point k2 ∧ fan_point k1 ≠ fan_point k3
  ∧ fan_point k2 ≠ fan_point k3
  ∧ ¬ colinear (fan_point k1) (fan_point k2) (fan_point k3)
  ∧ rootY < (fan_point k1).2 ∧ rootY < (fan_point k2).2 ∧ rootY < (fan_point k3).2.
Proof.
  intros H1 H2 H3 H12 H13 H23.
  destruct fan_of_three as (s & [Hs0 Hs1] & X0 & Y0 & X1 & Y1 & X2 & Y2).
  assert (0 < s * (1 - s)) as Hprod by (apply Rmult_lt_0_compat; lra).
  assert (rootX = 250) as HX by (unfold rootX, NODE_AREA_WIDTH; simpl; lra).
  assert (rootY = 50) as HY by done.
  unfold colinear, fan_point; cbn [fst snd].
  destruct k1 as [|[|[|?]]]; [| | |lia];
    destruct k2 as [|[|[|?]]]; try lia;
    destruct k3 as [|[|[|?]]]; try lia;
    rewrite ?X0, ?Y0, ?X1, ?Y1, ?X2, ?Y2, ?HX, ?HY;
    (repeat split; [intros Heq; injection Heq; intros; lra..|nra|lra|lra|lra]).
Qed.

Lemma fan_child (rnd : Random R) (backendNodes : BackendNodes)
    (root c : BackendWordNode.t) :
  NoDup (ids (Object_values backendNodes)) →
  find no_parent (Object_values backendNodes) = Some root →
  BackendWordNode.parent_id root = None →
  length (filter (is_child_of (BackendWordNode.id root)) (Object_values backendNodes)) = 3%nat →
  c ∈ filter (is_child_of (BackendWordNode.id root)) (Object_values backendNodes) →
  ∃ res k,
    assignPositionsToNodes rnd backendNodes None = Some res
    ∧ filter (is_child_of (BackendWordNode.id root)) (Object_values backendNodes) !! k = Some c
    ∧ res !! BackendWordNode.id c = Some (positioned c (fan_point k).1 (fan_point k).2).
Proof.
  intros Hnd Hroot Hparent Hlen [k Hk]%list_elem_of_lookup.
  destruct (child_placed rnd backendNodes None root
              (mkItem (BackendWordNode.id root) rootX rootY 0) k c)
    as (_ & res & Hres & Hc); [done..|by apply root_item_in_queue|done|].
  exists res, k. split; [done|]. split; [done|].
  rewrite Hc. simpl. by rewrite Hlen.
Qed.

(** C6, over the real numbers.  For a map that holds a root and three
    children of it (in any order of enumeration) and no existing
    positions, the three children are placed at three different points
    that are not on one line, each of them with a larger [y] than the
    root. *)
Theorem fan_out_of_three (rnd : Random R) (backendNodes : BackendNodes)
    (root c1 c2 c3 : BackendWordNode.t) :
  Object_values backendNodes ≡ₚ [root; c1; c2; c3] →
  BackendWordNode.parent_id root = None →
  BackendWordNode.id root ≠ "" →
  is_child_of (BackendWordNode.id root) c1 →
  is_child_of (BackendWordNode.id root) c2 →
  is_child_of (BackendWordNode.id root) c3 →
  NoDup [BackendWordNode.id root; BackendWordNode.id c1;
         BackendWordNode.id c2; BackendWordNode.id c3] →
  ∃ res w0 w1 w2 w3,
    assignPositionsToNodes rnd backendNodes None = Some res
    ∧ res !! BackendWordNode.id root = Some w0
    ∧ res !! BackendWordNode.id c1 = Some w1
    ∧ res !! BackendWordNode.id c2 = Some w2
    ∧ res !! BackendWordNode.id c3 = Some w3
    ∧ point w1 ≠ point w2 ∧ point w1 ≠ point w3 ∧ point w2 ≠ point w3
    ∧ ¬ colinear (point w1) (point w2) (point w3)
    ∧ WordNode.y w0 < WordNode.y w1
    ∧ WordNode.y w0 < WordNode.y w2
    ∧ WordNode.y w0 < WordNode.y w3.
Proof.
  intros Hperm Hparent Hid H1 H2 H3 Hnd.
  assert (NoDup (ids (Object_values backendNodes))) as Hnodup.
  { unfold ids. by rewrite Hperm. }
  assert (∀ c, is_child_of (BackendWordNode.id root) c → no_parent c = false) as Hchild.
  { intros c Hc. unfold no_parent. rewrite Hc. by apply bool_decide_eq_false. }
  assert (find no_parent (Object_values backendNodes) = Some root) as Hroot.
  { apply find_unique.
    - rewrite Hperm. by left.
    - unfold no_parent. by rewrite Hparent.
    - intros b Hb Hno. rewrite Hperm in Hb.
      repeat (apply elem_of_cons in Hb as [->|Hb]); [done|..|by apply elem_of_nil in Hb];
        apply Hchild in H1, H2, H3; congruence. }
  assert (filter (is_child_of (BackendWordNode.id root)) (Object_values backendNodes)
          ≡ₚ [c1; c2; c3]) as Hchildren.
  { rewrite Hperm. rewrite filter_cons_False by (unfold is_child_of; congruence).
    by rewrite !filter_cons_True, filter_nil. }
  pose proof (Permutation_length Hchildren) as Hlen. simpl in Hlen.
  destruct (fan_child rnd backendNodes root c1) as (res & k1 & Hres & Hk1 & Hw1);
    [done..|rewrite Hchildren; set_solver|].
  destruct (fan_child rnd backendNodes root c2) as (res2 & k2 & Hres2 & Hk2 & Hw2);
    [done..|rewrite Hchildren; set_solver|].
  destruct (fan_child rnd backendNodes root c3) as (res3 & k3 & Hres3 & Hk3 & Hw3);
    [done..|rewrite Hchildren; set_solver|].
  rewrite Hres in Hres2, Hres3. injection Hres2 as <-. injection Hres3 as <-.
  pose proof (assign_root_entry _ _ _ _ _ Hroot Hres) as Hw0.
  apply NoDup_cons in Hnd as [_ Hnd].
  assert (k1 ≠ k2) by (intros ->; rewrite Hk1 in Hk2; injection Hk2 as ->;
                       apply NoDup_cons in Hnd as [Hnd _]; set_solver).
  assert (k1 ≠ k3) by (intros ->; rewrite Hk1 in Hk3; injection Hk3 as ->;
                       apply NoDup_cons in Hnd as [Hnd _]; set_solver).
  assert (k2 ≠ k3) by (intros ->; rewrite Hk2 in Hk3; injection Hk3 as ->;
                       apply NoDup_cons in Hnd as [_ [Hnd _]%NoDup_cons]; set_solver).
  apply lookup_lt_Some in Hk1, Hk2, Hk3. rewrite Hlen in Hk1, Hk2, Hk3.
  eexists res, _, _, _, _. do 5 (split; [done|]).
  destruct (fan_geometry k1 k2 k3) as (? & ? & ? & ? & ? & ? & ?); [done..|].
  unfold point, positioned. cbn [WordNode.x WordNode.y].
  by rewrite <- !surjective_pairing.
Qed.

End RealLayout.

(** ** The session *)

Section SessionFacts.
Context {num : Type} `{Number num}.
Implicit Types (s : GameScreen num) (g : GameState.t num).

Lemma start_or_truthy (t now : Q) : ¬ (t == 0)%Q → start_or (Some t) now = t.
Proof.
  intros Ht. unfold start_or.
  destruct (Qeq_bool t 0) eqn:Heq; [|done].
  by apply Qeq_bool_iff in Heq.
Qed.

Lemma remaining_nonincreasing g (now later : Q) :
  (now <= later)%Q → (remaining g later <= remaining g now)%Q.
Proof.
  intros Hlater. unfold remaining, elapsed, start_or.
  apply Q.max_le_compat_l.
  destruct (GameState.start_time g) as [t|]; [destruct (Qeq_bool t 0)|]; lra.
Qed.

(** C4.  For a session whose start time is set (a number other than 0,
    which JavaScript takes for unset), the remaining time at the instant
    [now] is [max 0 (time_limit_seconds - (now - start_time))].  For
    every session the remaining time is never negative, and it does not
    increase with [now]. *)
Theorem remaining_time g (now : Q) :
  (∀ t, GameState.start_time g = Some t → ¬ (t == 0)%Q →
        remaining g now = Qmax 0 (GameState.time_limit_seconds g - (now - t)))
  ∧ (0 <= remaining g now)%Q
  ∧ (∀ later, (now <= later)%Q → (remaining g later <= remaining g now)%Q).
Proof.
  split; [|split].
  - intros t Hstart Ht. unfold remaining, elapsed. rewrite Hstart.
    by rewrite start_or_truthy.
  - apply Q.le_max_l.
  - intros later. apply remaining_nonincreasing.
Qed.

Lemma timer_off_false g :
  timer_off g = false →
  GameState.is_active g = true
  ∧ (∃ t, GameState.start_time g = Some t ∧ ¬ (t == 0)%Q)
  ∧ ¬ (GameState.time_limit_seconds g == 0)%Q.
Proof.
  unfold timer_off. intros Hoff.
  apply orb_false_iff in Hoff as [Hoff Hlimit].
  apply orb_false_iff in Hoff as [Hactive Hstart].
  split; [by apply negb_false_iff|]. split.
  - destruct (GameState.start_time g) as [t|]; [|done].
    exists t. split; [done|]. intros Heq%Qeq_bool_iff. congruence.
  - intros Heq%Qeq_bool_iff. congruence.
Qed.

Lemma timer_expires (now : Q) s g :
  gameState s = Some g → timer_off g = false → (remaining g now <= 0)%Q →
  gameState (timer now s) = Some (GameState.deactivate g).
Proof.
  intros Hg Hoff Hzero. unfold timer. rewrite Hg, Hoff. unfold calculateTimeLeft.
  apply Qle_bool_iff in Hzero. rewrite Hzero.
  destruct (timer_off_false g Hoff) as (-> & _). simpl. by rewrite Hg.
Qed.

Lemma timer_inactive (now : Q) s :
  active s = false → gameState (timer now s) = gameState s.
Proof.
  unfold active, timer. destruct (gameState s) as [g|] eqn:Hg; [|done].
  intros Hactive. unfold timer_off. by rewrite Hactive.
Qed.

Lemma timer_never_activates (now : Q) s :
  active (timer now s) = true → active s = true.
Proof.
  unfold active, timer. destruct (gameState s) as [g|] eqn:Hg; simpl; [|by rewrite Hg].
  destruct (timer_off g); simpl; [by rewrite Hg|].
  unfold calculateTimeLeft.
  destruct (Qle_bool _ _ && GameState.is_active g); simpl; rewrite Hg; [done|done].
Qed.

Lemma gate_closed s :
  active s = false →
  ∃ message, handleAddConnection_submit s = (setError (Some message) s, None).
Proof.
  unfold active, handleAddConnection_submit.
  destruct (gameState s) as [g|]; [|eauto].
  intros ->. destruct (selectedNodeId s); [|eauto].
  rewrite orb_true_r. eauto.
Qed.

Lemma gate_rejection s s' :
  handleAddConnection_submit s = (s', None) → gameState s' = gameState s.
Proof.
  unfold handleAddConnection_submit.
  destruct (gameState s) as [g|] eqn:Hg; [|by intros [= <-]].
  destruct (selectedNodeId s); [|by intros [= <-]].
  destruct (_ || _); [by intros [= <-]|done].
Qed.

Lemma rejection_response (rnd : Random num) g (response : Response) s :
  (∀ body, response ≠ ResponseOk body) →
  ∃ s', handleAddConnection_response rnd g response s = Some s'
    ∧ (gameState s' = gameState s
       ∨ (response = ResponseNotOk 400 (Some "Time limit exceeded")
          ∧ gameState s' = set_inactive (gameState s))).
Proof.
  intros Hnot. destruct response as [body|status detail|message]; [by destruct (Hnot body)|..];
    simpl; eexists; (split; [reflexivity|]); [|by left].
  destruct (bool_decide (status = 400%Z)) eqn:Hstatus; simpl; [|by left].
  destruct (bool_decide (detail = _)) eqn:Hdetail; simpl; [|by left].
  apply bool_decide_eq_true in Hstatus as ->, Hdetail as ->. by right.
Qed.

(** What the answer to a request that is not a success does to the game
    state: the rejection for the time limit deactivates it, every other
    answer leaves it as it is. *)
Lemma rejection_response_exact (rnd : Random num) g (response : Response) s :
  (∀ body, response ≠ ResponseOk body) →
  ∃ s', handleAddConnection_response rnd g response s = Some s'
    ∧ (response = ResponseNotOk 400 (Some "Time limit exceeded") →
       gameState s' = set_inactive (gameState s) ∧ active s' = false)
    ∧ (response ≠ ResponseNotOk 400 (Some "Time limit exceeded") →
       gameState s' = gameState s).
Proof.
  intros Hnot. destruct response as [body|status detail|message]; [by destruct (Hnot body)|..];
    simpl; eexists; (split; [reflexivity|]); [|by split].
  destruct (bool_decide (status = 400%Z)) eqn:Hstatus; simpl.
  - destruct (bool_decide (detail = _)) eqn:Hdetail; simpl.
    + split; [|by intros Hne; apply bool_decide_eq_true in Hstatus as ->, Hdetail as ->].
      intros _. split; [done|]. unfold active. simpl. by destruct (gameState s).
    + apply bool_decide_eq_false in Hdetail. split; [|done]. intros [= _ ->]. done.
  - apply bool_decide_eq_false in Hstatus. split; [|done]. intros [= -> _]. done.
Qed.

(** The handlers always hand a state back: the layout never runs out of
    fuel. *)
Lemma handleAddConnection_response_is_Some (rnd : Random num) g (response : Response) s :
  is_Some (handleAddConnection_response rnd g response s).
Proof.
  destruct response as [body| |]; simpl; [|done..].
  by destruct (assignPositionsToNodes_is_Some rnd (BackendGameState.nodes body)
                 (Some (GameState.nodes g))) as [res ->].
Qed.

Lemma run_is_Some (rnd : Random num) (es : list Event) s : is_Some (run rnd es s).
Proof.
  revert s. induction es as [|e es IH]; intros s; simpl; [done|].
  assert (is_Some (step rnd e s)) as [s1 ->]; [|apply IH].
  destruct e as [now|response|w|i]; simpl; [done| |done..].
  unfold handleAddConnection. destruct (handleAddConnection_submit s) as [s1 [[request g]|]].
  - apply handleAddConnection_response_is_Some.
  - done.
Qed.

Lemma set_inactive_inactive s :
  active (setGameState set_inactive s) = false.
Proof. unfold active. simpl. by destruct (gameState s). Qed.

Lemma run_inactive (rnd : Random num) (es : list Event) s :
  active s = false →
  ∃ s', run rnd es s = Some s' ∧ gameState s' = gameState s.
Proof.
  revert s. induction es as [|e es IH]; intros s Hactive; simpl; [eauto|].
  assert (∃ s1, step rnd e s = Some s1 ∧ gameState s1 = gameState s) as (s1 & -> & Hs1).
  { destruct e as [now|response|w|i]; simpl.
    - eexists. split; [reflexivity|]. by apply timer_inactive.
    - unfold handleAddConnection.
      destruct (gate_closed s Hactive) as [message ->]. eauto.
    - eauto.
    - eexists. split; [reflexivity|]. unfold select_node. unfold active in Hactive.
      destruct (gameState s) as [g|] eqn:Hg; [|done]. by rewrite Hactive. }
  destruct (IH s1) as (s' & ? & ?).
  - unfold active in *. by rewrite Hs1.
  - exists s'. split; [done|]. congruence.
Qed.

(** C3, as amended.  (1) When the timer runs and the remaining time is
    0, the check turns [is_active] from true into false.  (2) The check
    never turns it into true.  (3) Once [is_active] is false a proposal
    is rejected before any request is sent.  (4) The answer to a request
    that is not a success never turns [is_active] into true.  (5) From
    an inactive session no sequence of ticks, submissions, typing and
    clicks changes the game state.  The handler of a successful answer
    is left out: it stores the snapshot of the backend as it is. *)
Theorem expiry_is_one_way :
  (∀ (now : Q) s g,
      gameState s = Some g → timer_off g = false → (remaining g now <= 0)%Q →
      GameState.is_active g = true
      ∧ gameState (timer now s) = Some (GameState.deactivate g))
  ∧ (∀ (now : Q) s, active (timer now s) = true → active s = true)
  ∧ (∀ s, active s = false →
          ∃ message, handleAddConnection_submit s = (setError (Some message) s, None))
  ∧ (∀ (rnd : Random num) g response s,
        (∀ body, response ≠ ResponseOk body) →
        ∃ s', handleAddConnection_response rnd g response s = Some s'
              ∧ (active s' = true → active s = true))
  ∧ (∀ (rnd : Random num) (es : list Event) s,
        active s = false →
        ∃ s', run rnd es s = Some s' ∧ gameState s' = gameState s).
Proof.
  split; [|split; [|split; [|split]]].
  - intros now s g Hg Hoff Hzero. split; [by apply timer_off_false|by apply timer_expires].
  - apply timer_never_activates.
  - apply gate_closed.
  - intros rnd g response s Hnot.
    destruct (rejection_response rnd g response s Hnot) as (s' & Hs' & [Hsame|[_ Hoff]]);
      exists s'; (split; [done|]); unfold active; rewrite ?Hsame; [done|].
    rewrite Hoff. by destruct (gameState s).
  - apply run_inactive.
Qed.

(** C8, as amended.  (1) A proposal rejected at the gate leaves the game
    state as it is.  (2) The answer to a request that is not a success,
    a rejection by the backend or a request that fails, is handled, and
    the game state afterwards is determined by the answer: the rejection
    with status 400 and detail "Time limit exceeded" deactivates the
    session, whatever it was before, and every other answer leaves the
    game state as it is.  (3) To deactivate a session is to set
    [is_active] to false and to change no other field: no node and no
    connection is added, and the score is the same. *)
Theorem rejection_keeps_session :
  (∀ s s', handleAddConnection_submit s = (s', None) → gameState s' = gameState s)
  ∧ (∀ (rnd : Random num) g response s,
        (∀ body, response ≠ ResponseOk body) →
        ∃ s', handleAddConnection_response rnd g response s = Some s'
          ∧ (response = ResponseNotOk 400 (Some "Time limit exceeded") →
             gameState s' = set_inactive (gameState s) ∧ active s' = false)
          ∧ (response ≠ ResponseNotOk 400 (Some "Time limit exceeded") →
             gameState s' = gameState s))
  ∧ (∀ g, GameState.nodes (GameState.deactivate g) = GameState.nodes g
          ∧ GameState.connections (GameState.deactivate g) = GameState.connections g
          ∧ GameState.score (GameState.deactivate g) = GameState.score g
          ∧ GameState.game_id (GameState.deactivate g) = GameState.game_id g
          ∧ GameState.puzzle_id (GameState.deactivate g) = GameState.puzzle_id g
          ∧ GameState.start_word (GameState.deactivate g) = GameState.start_word g
          ∧ GameState.theme (GameState.deactivate g) = GameState.theme g
          ∧ GameState.time_limit_seconds (GameState.deactivate g)
            = GameState.time_limit_seconds g
          ∧ GameState.start_time (GameState.deactivate g) = GameState.start_time g
          ∧ GameState.is_active (GameState.deactivate g) = false).
Proof.
  split; [apply gate_rejection|]. split; [apply rejection_response_exact|]. done.
Qed.

End SessionFacts.

(** ** The game board *)

Section GameboardFacts.
Context {num : Type} `{Number num}.

(** C9.  [handleAddNode] adds 1 to the counter of moves exactly when the
    callback accepts the connection: then one node and one edge from the
    parent to it are appended; otherwise the counter, the nodes and the
    edges are as before. *)
Theorem move_counting (onNodeAdded : string → string → bool) (rnd : Random num)
    (newNodeLabel parentNodeId : string) (b : Gameboard num) :
  let b' := handleAddNode onNodeAdded rnd newNodeLabel parentNodeId b in
  (moves b' = (moves b + 1)%Z ↔ onNodeAdded newNodeLabel parentNodeId = true)
  ∧ (onNodeAdded newNodeLabel parentNodeId = true →
       ∃ newNode,
         nodes b' = nodes b ++ [newNode]
         ∧ FlowNode.label newNode = newNodeLabel
         ∧ edges b' = edges b ++ [FlowEdge.mk
                                     ("edge_" +:+ parentNodeId +:+ "-" +:+ FlowNode.id newNode)
                                     parentNodeId (FlowNode.id newNode)])
  ∧ (onNodeAdded newNodeLabel parentNodeId = false →
       moves b' = moves b ∧ nodes b' = nodes b ∧ edges b' = edges b).
Proof.
  intros b'. subst b'. unfold handleAddNode.
  destruct (onNodeAdded newNodeLabel parentNodeId); simpl.
  - destruct (find _ (nodes b)); simpl.
    + split; [done|]. split; [|done]. intros _. eexists. split; [reflexivity|done].
    + split; [done|]. split; [|done]. intros _. eexists. split; [reflexivity|done].
  - split; [|done]. split; [lia|done].
Qed.

End GameboardFacts.

(** ** Runs on sample maps *)

(** The reals with an overflow satisfy the laws. *)
Lemma checked_bounded (r : R) (B : Z) :
  (Rabs r <= IZR B)%R → (B ≤ MAX_SAFE_INTEGER)%Z → checked r = Finite r.
Proof.
  intros Hr HB. unfold checked. destruct (Rle_dec (Rabs r) overflow_threshold) as [|Hn]; [done|].
  destruct Hn. etransitivity; [exact Hr|]. apply IZR_le.
  etransitivity; [exact HB|]. vm_compute. discriminate.
Qed.

Lemma bounded_value_Finite (B : Z) (v : Value) :
  bounded_value B v → ∃ r, v = Finite r ∧ (Rabs r <= IZR B)%R.
Proof. destruct v as [r|]; [eauto|done]. Qed.

Lemma Value_BoundedArith : BoundedArith (H := ValueNumber) bounded_value.
Proof.
  split.
  - intros B B' a (r & -> & Hr)%bounded_value_Finite HB. simpl.
    etransitivity; [exact Hr|]. by apply IZR_le.
  - intros z Hz. cbn [of_Z ValueNumber].
    rewrite (checked_bounded (IZR z) (Z.abs z)); [|rewrite abs_IZR; lra|done].
    simpl. rewrite abs_IZR. lra.
  - simpl. unfold Rabs. destruct (Rcase_abs (1 / 2)); lra.
  - simpl. unfold Rabs. destruct (Rcase_abs (3 / 2)); lra.
  - intros B1 B2 a b (r & -> & Hr)%bounded_value_Finite (s & -> & Hs)%bounded_value_Finite HB.
    cbn [add ValueNumber lift2].
    assert (Rabs (r + s) <= IZR (B1 + B2))%R as Hsum.
    { rewrite plus_IZR. pose proof (Rabs_triang r s). lra. }
    by rewrite (checked_bounded _ _ Hsum HB).
  - intros B1 B2 a b (r & -> & Hr)%bounded_value_Finite (s & -> & Hs)%bounded_value_Finite HB.
    cbn [mul ValueNumber lift2].
    assert (Rabs (r * s) <= IZR (B1 * B2))%R as Hprod.
    { rewrite mult_IZR, Rabs_mult. pose proof (Rabs_pos r). pose proof (Rabs_pos s). nra. }
    by rewrite (checked_bounded _ _ Hprod HB).
  - intros B a z (r & -> & Hr)%bounded_value_Finite HB [Hz Hz'].
    cbn [div of_Z ValueNumber].
    rewrite (checked_bounded (IZR z) z); [|rewrite Rabs_right; [lra|apply Rle_ge, IZR_le; lia]|done].
    cbn [Value_div].
    assert (1 <= IZR z)%R as Hz1 by (apply IZR_le; lia).
    destruct (Req_dec_T (IZR z) 0) as [Heq|_]; [lra|].
    assert (Rabs (r / IZR z) <= IZR B)%R as Hquot.
    { unfold Rdiv. rewrite Rabs_mult, Rabs_inv, (Rabs_right (IZR z)) by lra.
      pose proof (Rabs_pos r).
      assert (/ IZR z <= 1)%R by (rewrite <- Rinv_1; apply Rinv_le_contravar; lra).
      assert (0 < / IZR z)%R by (apply Rinv_0_lt_compat; lra).
      nra. }
    by rewrite (checked_bounded _ _ Hquot HB).
  - intros B a (r & -> & Hr)%bounded_value_Finite. cbn [Math_cos ValueNumber lift1].
    assert (Rabs (cos r) <= IZR 1)%R as Hcos.
    { pose proof (COS_bound r). unfold Rabs. destruct (Rcase_abs (cos r)); lra. }
    by rewrite (checked_bounded _ 1 Hcos).
  - intros B a (r & -> & Hr)%bounded_value_Finite. cbn [Math_sin ValueNumber lift1].
    assert (Rabs (sin r) <= IZR 1)%R as Hsin.
    { pose proof (SIN_bound r). unfold Rabs. destruct (Rcase_abs (sin r)); lra. }
    by rewrite (checked_bounded _ 1 Hsin).
  - simpl. pose proof PI_RGT_0. pose proof PI_4. unfold Rabs. destruct (Rcase_abs PI); lra.
Qed.

Section Examples.
Local Existing Instance RealNumber.
Local Open Scope R_scope.

(** The functions at work. *)

Example trim_wave : trim "  wave  " = "wave" ∧ trim "   " = "".
Proof. split; reflexivity. Qed.

Example round_halves_up : Math_round (5 # 2) = 3%Z ∧ Math_round (12 # 5) = 2%Z.
Proof. split; reflexivity. Qed.

Example no_parent_of_samples :
  no_parent ocean = true ∧ no_parent wave = false
  ∧ no_parent (BackendWordNode.mk "x" "x" (Some "")) = true.
Proof. repeat split. Qed.

(** The first layout of a new game: the root alone, at its anchor. *)
Example layout_of_the_root :
  assignPositionsToNodes (λ _, 0) only_root None
  = Some {["ocean" := WordNode.mk "ocean" "ocean" None (500 / 2) 50]}.
Proof. vm_compute. reflexivity. Qed.

(** Without a root the nodes are put in a row. *)
Example layout_in_a_row :
  assignPositionsToNodes (λ _, 0) [("wave", wave); ("foam", foam)] None
  = Some {["wave" := WordNode.mk "wave" "wave" (Some "ocean") 50 50;
           "foam" := WordNode.mk "foam" "foam" (Some "wave") (50 + 100) 50]}.
Proof. vm_compute. reflexivity. Qed.

(** The queue of the traversal of [chain]: the identifiers in
    breadth-first order, with their depths. *)
Example queue_of_chain :
  (λ item, (nodeId item, depth item)) <$> layout_queue None chain
  = [("ocean", 0%nat); ("wave", 1%nat); ("foam", 2%nat)].
Proof. vm_compute. reflexivity. Qed.

(** The scenario of the specification: past the deadline the timer turns
    the session inactive, and the next proposal stops at the gate. *)
Example proposal_after_the_deadline :
  ∃ s', run (λ _, 0) [Tick 1061; Submit (ResponseOk wave_accepted)] (ocean_screen true)
        = Some s'
      ∧ gameState s' = Some (ocean_game false)
      ∧ error s' = Some "Cannot add connection: Game not active, no node selected, or word is empty.".
Proof. eexists. split; [vm_compute; reflexivity|]. split; reflexivity. Qed.

(** An accepted proposal: the new node is laid out, the others stay. *)
Example proposal_accepted :
  ∃ s' g', run (λ _, 0) [Submit (ResponseOk wave_accepted)] (ocean_screen true) = Some s'
      ∧ gameState s' = Some g'
      ∧ dom (GameState.nodes g') = {["ocean"; "wave"]}
      ∧ GameState.nodes g' !! "ocean" = Some (WordNode.mk "ocean" "ocean" None 250 50)
      ∧ newWord s' = "".
Proof.
  eexists _, _. split; [vm_compute; reflexivity|]. split; [reflexivity|].
  split; [|split; [|reflexivity]].
  - vm_compute. reflexivity.
  - vm_compute. f_equal. f_equal. lra.
Qed.

(** [foam] is added under [wave], which is shown at [(250, 125)] but would
    be at [x = 275] in a fresh layout now that it has a sibling: [foam],
    whose offset in [x] is 0, is put at [x = 275]. *)
Example foam_hangs_off_the_fresh_wave :
  ∃ res w f,
    assignPositionsToNodes (λ _, 0) grown (Some grown_before) = Some res
    ∧ res !! "wave" = Some w ∧ res !! "foam" = Some f
    ∧ WordNode.x w = 250 ∧ WordNode.x f = 275.
Proof.
  destruct (child_placed (λ _, 0) grown (Some grown_before) ocean
              (mkItem "wave" (rootX + offsetX_of 2 0 0) (rootY + offsetY_of 2 0) 1) 0 foam)
    as (_ & res & Hres & Hfoam).
  { distinct_ids. }
  { reflexivity. }
  { reflexivity. }
  { vm_compute. right. left. }
  { reflexivity. }
  destruct (kept_position (λ _, 0) grown grown_before "wave"
              (WordNode.mk "wave" "wave" (Some "ocean") 250 125))
    as (res' & w & Hres' & Hwave & Hx & _).
  { vm_compute. reflexivity. }
  { vm_compute. right. left. }
  { intros root Hroot Hid. vm_compute in Hroot. injection Hroot as <-. discriminate Hid. }
  rewrite Hres in Hres'. injection Hres' as <-.
  eexists res, w, _. split; [done|]. split; [done|]. split; [exact Hfoam|]. split; [done|].
  unfold keep_or_place, existing_entry.
  replace (grown_before !! BackendWordNode.id foam) with (@None (WordNode.t R))
    by (vm_compute; reflexivity).
  unfold positioned, childX_of, offsetX_of, angle_of, rootX,
    NODE_AREA_WIDTH, NODE_OFFSET_X; simpl.
  change (Z.of_nat 3) with 3%Z. change (Z.of_nat 2) with 2%Z. change (Z.of_nat 1) with 1%Z.
  replace (PI / 3 * 1) with (PI / 3) by lra.
  replace (PI / 2 * 1) with (PI / 2) by lra.
  rewrite cos_PI3, cos_PI2. lra.
Qed.

(** Against C1 as it is stated: [existingNodes] has the root at [(0, 0)],
    and the result has it at its anchor. *)
Lemma root_position_not_kept :
  ∃ e res w,
    ({["ocean" := WordNode.mk "ocean" "ocean" None 0 0]} : gmap string (WordNode.t R))
      !! "ocean" = Some e
    ∧ assignPositionsToNodes (λ _, 0) only_root
        (Some {["ocean" := WordNode.mk "ocean" "ocean" None 0 0]}) = Some res
    ∧ res !! "ocean" = Some w
    ∧ WordNode.x w ≠ WordNode.x e.
Proof.
  eexists _, _, _. split; [vm_compute; reflexivity|].
  split; [vm_compute; reflexivity|]. split; [vm_compute; reflexivity|].
  vm_compute. lra.
Qed.

Lemma existing_positions_kept_witness :
  (∃ res w,
     assignPositionsToNodes (λ _, 0) two_nodes
       (Some {["wave" := WordNode.mk "wave" "wave" (Some "ocean") 10 20]}) = Some res
     ∧ res !! "wave" = Some w
     ∧ WordNode.x w = 10 ∧ WordNode.y w = 20)
  ∧ (∃ prev w0 next w1,
       assignPositionsToNodes (λ _, 0) two_nodes None = Some prev
       ∧ prev !! "wave" = Some w0
       ∧ assignPositionsToNodes (λ _, 0) grown (Some prev) = Some next
       ∧ next !! "wave" = Some w1
       ∧ WordNode.x w1 = WordNode.x w0 ∧ WordNode.y w1 = WordNode.y w0).
Proof.
  destruct (existing_positions_kept (H := RealNumber)) as [Hkept Hnext].
  split.
  - apply (Hkept (λ _, 0) two_nodes
             {["wave" := WordNode.mk "wave" "wave" (Some "ocean") 10 20]} "wave"
             (WordNode.mk "wave" "wave" (Some "ocean") 10 20)).
    + vm_compute. reflexivity.
    + vm_compute. right. left.
    + intros root Hroot Hid. vm_compute in Hroot. injection Hroot as <-. discriminate Hid.
  - assert (∃ prev w0, assignPositionsToNodes (λ _, 0) two_nodes None = Some prev
                       ∧ prev !! "wave" = Some w0) as (prev & w0 & Hprev & Hw0).
    { eexists _, _. split; vm_compute; reflexivity. }
    destruct (Hnext (λ _, 0) (λ _, 0) two_nodes grown None ocean ocean prev "wave" w0)
      as (next & w1 & Hres & Hw1 & Hx & Hy).
    + exact Hprev.
    + reflexivity.
    + reflexivity.
    + reflexivity.
    + exact Hw0.
    + vm_compute. right. left.
    + by exists prev, w0, next, w1.
Defined.

(** Against C2 as it is stated: two runs on the same nodes, without
    existing positions, in which [Math.random] returns 0 and 1/2, place
    the node that is not reachable from the root differently. *)
Lemma missed_node_is_random :
  assignPositionsToNodes (H := RealNumber) (λ _, 0) with_orphan None
  ≠ assignPositionsToNodes (H := RealNumber) (λ _, 1 / 2) with_orphan None.
Proof.
  intros Heq.
  apply (f_equal (λ o, WordNode.x <$> (o ≫= (.!! "drift")))) in Heq.
  vm_compute in Heq. injection Heq. lra.
Qed.

Lemma layout_independent_of_random_witness :
  assignPositionsToNodes (λ _, 0) chain None
  = assignPositionsToNodes (λ _, 1 / 2) chain None
  ∧ ∃ res (k : nat),
      assignPositionsToNodes (λ _, 1 / 2) with_orphan None = Some res
      ∧ res !! "drift" = Some (positioned drift (1 / 2 * 500) (1 / 2 * 400)).
Proof.
  destruct (layout_independent_of_random (H := RealNumber)) as [Hsame Hrandom].
  split.
  - apply Hsame.
    intros root n Hroot Hn. vm_compute in Hroot. injection Hroot as <-. left.
    assert (Reachable (Object_values chain) "ocean" "ocean") as Hocean
      by apply Reachable_root.
    assert (Reachable (Object_values chain) "ocean" "wave") as Hwave.
    { apply (Reachable_child _ _ "ocean" wave); [done| |reflexivity]. vm_compute. right. left. }
    vm_compute in Hn.
    repeat (apply elem_of_cons in Hn as [->|Hn]); [done|done| |by apply elem_of_nil in Hn].
    apply (Reachable_child _ _ "wave" foam); [done| |reflexivity]. vm_compute. right. right. left.
  - apply (Hrandom (λ _, 1 / 2) with_orphan None ocean drift).
    + distinct_ids.
    + reflexivity.
    + vm_compute. right. right. left.
    + intros Hdrift. inversion Hdrift as [|p c Hp Hc Hchild Hid]. vm_compute in Hc.
      repeat (apply elem_of_cons in Hc as [->|Hc]); try discriminate Hid;
        [|by apply elem_of_nil in Hc].
      injection Hchild as <-.
      inversion Hp as [|p' c' _ Hc' _ Hid']. vm_compute in Hc'.
      repeat (apply elem_of_cons in Hc' as [->|Hc']); try discriminate Hid'.
      by apply elem_of_nil in Hc'.
    + reflexivity.
Defined.

Lemma child_placement_witness :
  ∃ res,
    assignPositionsToNodes (H := RealNumber) (λ _, 0) fan None = Some res
    ∧ res !! "tide"
      = Some (positioned tide
                (rootX + cos (PI / IZR (Z.of_nat (3 + 1)) * IZR (Z.of_nat (1 + 1)))
                         * 100 * IZR (Z.of_nat (0 + 1)) * (1 / 2))
                (rootY + sin (PI / IZR (Z.of_nat (3 + 1)) * IZR (Z.of_nat (1 + 1)))
                         * 50 * (3 / 2))).
Proof.
  apply (child_placement (H := RealNumber) (λ _, 0) fan None ocean
           (mkItem "ocean" rootX rootY 0) 1 tide).
  - distinct_ids.
  - reflexivity.
  - reflexivity.
  - vm_compute. left.
  - reflexivity.
  - reflexivity.
Defined.

Lemma fan_out_of_three_witness :
  ∃ res w0 w1 w2 w3,
    assignPositionsToNodes (H := RealNumber) (λ _, 0) fan None = Some res
    ∧ res !! "ocean" = Some w0
    ∧ res !! "wave" = Some w1
    ∧ res !! "tide" = Some w2
    ∧ res !! "surf" = Some w3
    ∧ point w1 ≠ point w2 ∧ point w1 ≠ point w3 ∧ point w2 ≠ point w3
    ∧ ¬ colinear (point w1) (point w2) (point w3)
    ∧ WordNode.y w0 < WordNode.y w1
    ∧ WordNode.y w0 < WordNode.y w2
    ∧ WordNode.y w0 < WordNode.y w3.
Proof.
  apply (fan_out_of_three (λ _, 0) fan ocean wave tide surf).
  - reflexivity.
  - reflexivity.
  - discriminate.
  - reflexivity.
  - reflexivity.
  - reflexivity.
  - distinct_ids.
Defined.



Lemma child_offset_from_fresh_parent_witness :
  ∃ fresh p res,
    assignPositionsToNodes (λ _, 1 / 2) grown None = Some fresh
    ∧ fresh !! "wave" = Some p
    ∧ mkItem "foam" (WordNode.x p + offsetX_of 1 0 1) (WordNode.y p + offsetY_of 1 0) (1 + 1)
      ∈ layout_queue (Some grown_before) grown
    ∧ assignPositionsToNodes (λ _, 0) grown (Some grown_before) = Some res
    ∧ res !! "foam"
      = Some (positioned foam (WordNode.x p + offsetX_of 1 0 1)
                              (WordNode.y p + offsetY_of 1 0)).
Proof.
  destruct (child_offset_from_fresh_parent (λ _, 0) (λ _, 1 / 2) grown grown_before
              ocean (mkItem "wave" (rootX + offsetX_of 2 0 0) (rootY + offsetY_of 2 0) 1)
              0 foam) as (fresh & p & Hfresh & Hp & Hqueue & Hplaced).
  - distinct_ids.
  - reflexivity.
  - reflexivity.
  - vm_compute. right. left.
  - reflexivity.
  - destruct Hplaced as (res & Hres & Hfoam); [vm_compute; reflexivity|].
    exists fresh, p, res. repeat split; assumption.
Defined.

(** Against C3 as it is stated: the request leaves while the session is
    active, the timer finds the time up and turns the session inactive,
    and the answer of the backend, which accepted the word in time,
    arrives after that and turns the session active again. *)
Lemma late_answer_reactivates :
  ∃ s1 request g s3,
    handleAddConnection_submit (ocean_screen true) = (s1, Some (request, g))
    ∧ active (timer 1061 s1) = false
    ∧ handleAddConnection_response (λ _, 0) g (ResponseOk wave_accepted) (timer 1061 s1)
      = Some s3
    ∧ active s3 = true.
Proof.
  eexists _, _, _, _. split; [vm_compute; reflexivity|].
  split; [vm_compute; reflexivity|].
  split; [vm_compute; reflexivity|].
  reflexivity.
Qed.

Lemma expiry_is_one_way_witness :
  gameState (timer 1061 (ocean_screen true)) = Some (GameState.deactivate (ocean_game true))
  ∧ (∃ message, handleAddConnection_submit (ocean_screen false)
                = (setError (Some message) (ocean_screen false), None))
  ∧ (∃ s', run (λ _, 0) [Tick 1062; Submit (ResponseOk wave_accepted); SelectNode "ocean"]
             (ocean_screen false) = Some s'
           ∧ gameState s' = gameState (ocean_screen false)).
Proof.
  destruct (expiry_is_one_way (H := RealNumber)) as (Hexpire & _ & Hgate & _ & Hrun).
  split; [|split].
  - apply (Hexpire 1061%Q (ocean_screen true) (ocean_game true)).
    + reflexivity.
    + reflexivity.
    + vm_compute. discriminate.
  - apply (Hgate (ocean_screen false)). reflexivity.
  - apply (Hrun (λ _, 0) _ (ocean_screen false)). reflexivity.
Defined.

Lemma remaining_time_witness :
  remaining (ocean_game true) 1030 = Qmax 0 (60 - (1030 - 1000))
  ∧ (0 <= remaining (ocean_game true) 1030)%Q
  ∧ (remaining (ocean_game true) 1045 <= remaining (ocean_game true) 1030)%Q.
Proof.
  destruct (remaining_time (ocean_game true) 1030) as (Hformula & Hpositive & Hlater).
  split; [|split].
  - apply (Hformula 1000%Q).
    + reflexivity.
    + vm_compute. discriminate.
  - exact Hpositive.
  - apply (Hlater 1045%Q). vm_compute. discriminate.
Defined.

(** Half a minute after the start, half a minute is left; it is the
    whole minute when the start time is unset. *)
Example remaining_half_way :
  remaining (ocean_game true) 1030 = 30%Q
  ∧ (remaining (GameState.mk "g" "p" "ocean" "sea" 60 None (∅ : gmap string (WordNode.t R))
                [] 0 true) 1030 == 60)%Q.
Proof. split; reflexivity. Qed.

(** Against C8 as it is stated: the rejection "Time limit exceeded" of a
    proposal made in an active session leaves the session inactive. *)
Lemma time_limit_rejection_deactivates :
  ∃ s',
    handleAddConnection_response (λ _, 0) (ocean_game true)
      (ResponseNotOk 400 (Some "Time limit exceeded")) (ocean_screen true) = Some s'
    ∧ active (ocean_screen true) = true
    ∧ active s' = false.
Proof. eexists. split; [vm_compute; reflexivity|]. split; reflexivity. Qed.

Lemma rejection_keeps_session_witness :
  (∃ s', handleAddConnection_response (λ _, 0) (ocean_game true)
           (ResponseNotOk 400 (Some "Words are not related")) (ocean_screen true) = Some s'
         ∧ gameState s' = gameState (ocean_screen true))
  ∧ (∃ s', handleAddConnection_response (λ _, 0) (ocean_game true)
             (ResponseNotOk 400 (Some "Time limit exceeded")) (ocean_screen true) = Some s'
           ∧ gameState s' = Some (ocean_game false)
           ∧ active s' = false)
  ∧ gameState (setError (Some "Cannot add connection: Game not active, no node selected, or word is empty.") (ocean_screen false))
    = gameState (ocean_screen false).
Proof.
  destruct (rejection_keeps_session (H := RealNumber)) as (Hgate & Hresponse & _).
  split; [|split].
  - destruct (Hresponse (λ _, 0) (ocean_game true)
                (ResponseNotOk 400 (Some "Words are not related")) (ocean_screen true))
      as (s' & Hs' & _ & Hother).
    + intros body. discriminate.
    + exists s'. split; [exact Hs'|]. apply Hother. discriminate.
  - destruct (Hresponse (λ _, 0) (ocean_game true)
                (ResponseNotOk 400 (Some "Time limit exceeded")) (ocean_screen true))
      as (s' & Hs' & Hlimit & _).
    + intros body. discriminate.
    + exists s'. split; [exact Hs'|]. apply Hlimit. reflexivity.
  - apply (Hgate (ocean_screen false)). vm_compute. reflexivity.
Defined.

Lemma move_counting_witness :
  ∃ newNode,
    nodes (handleAddNode (λ _ _, true) (λ _, 1 / 2) "wave" "StartNode" start_board)
    = nodes start_board ++ [newNode]
    ∧ FlowNode.label newNode = "wave"
    ∧ edges (handleAddNode (λ _ _, true) (λ _, 1 / 2) "wave" "StartNode" start_board)
      = edges start_board
        ++ [FlowEdge.mk ("edge_" +:+ "StartNode" +:+ "-" +:+ FlowNode.id newNode)
                        "StartNode" (FlowNode.id newNode)].
Proof.
  apply (move_counting (H := RealNumber) (λ _ _, true) (λ _, 1 / 2) "wave" "StartNode"
           start_board).
  reflexivity.
Defined.

(** The new node is [node_1], below its parent. *)
Example first_move :
  handleAddNode (λ _ _, true) (λ _, 1 / 2) "wave" "StartNode" start_board
  = mkBoard [FlowNode.mk "StartNode" "ocean" 250 5 "mindMapNode";
             FlowNode.mk "node_1" "wave" (250 + (1 / 2 * 400 - 200)) (5 + 100 + 1 / 2 * 50)
                         "mindMapNode"]
            [FlowEdge.mk "edge_StartNode-node_1" "StartNode" "node_1"] 1 1.
Proof. vm_compute. reflexivity. Qed.

End Examples.

(** ** More on the layout *)

Section LayoutCoverage.
Context {num : Type} `{Number num}.
Implicit Types (st : LayoutState num) (item : QueueItem num)
  (existing : option (gmap string (WordNode.t num)))
  (nodes children : list BackendWordNode.t).
Local Open Scope num_scope.

(** An entry of the result is a node of the input with the position
    filled in. *)
Lemma assign_entry rnd backendNodes existing res i w :
  assignPositionsToNodes rnd backendNodes existing = Some res →
  res !! i = Some w →
  ∃ c, c ∈ Object_values backendNodes ∧ BackendWordNode.id c = i
       ∧ w = positioned c (WordNode.x w) (WordNode.y w).
Proof.
  intros Hres Hw.
  pose proof (assign_provenance (λ _, True) (ValidArith0 := ValidArith_True)
                rnd backendNodes existing res i w (λ _, I) Hres Hw)
    as [(r & Hr & Hid & ->)|(c & Hc & Hid & Hentry)].
  - exists r. split; [by eapply find_no_parent_in|]. done.
  - exists c. split; [done|]. split; [done|].
    unfold entry_of in Hentry.
    destruct (existing_entry existing (BackendWordNode.id c)) as [e|].
    + by subst w.
    + by destruct Hentry as (px & py & _ & _ & ->).
Qed.

Lemma assign_dom rnd backendNodes existing res :
  assignPositionsToNodes rnd backendNodes existing = Some res →
  dom res = list_to_set (ids (Object_values backendNodes)).
Proof.
  intros Hres. apply set_eq. intros i.
  rewrite elem_of_dom, elem_of_list_to_set. unfold ids. rewrite list_elem_of_fmap.
  split.
  - intros [w Hw]. destruct (assign_entry _ _ _ _ _ _ Hres Hw) as (c & Hc & Hid & _).
    eauto.
  - intros (c & -> & Hc). by eapply assign_covers.
Qed.

(** X1.  The keys of the properties of the result, which [Object.keys]
    enumerates, are the identifiers of the input nodes other than
    [__proto__], no more (an identifier that only [existingNodes] has is
    dropped) and no less; the entry at a key, and the prototype that the
    assignment at [__proto__] has set, carries that key as its [id], and
    the [word] and the [parent_id] of an input node with that
    identifier. *)
Theorem layout_keys_are_node_ids (rnd : Random num) (backendNodes : BackendNodes)
    (existing : option (gmap string (WordNode.t num)))
    (res : gmap string (WordNode.t num)) :
  assignPositionsToNodes rnd backendNodes existing = Some res →
  dom (own_properties res)
  = list_to_set (ids (Object_values backendNodes)) ∖ {["__proto__"]}
  ∧ ∀ i w, res !! i = Some w →
      WordNode.id w = i
      ∧ ∃ c, c ∈ Object_values backendNodes
             ∧ BackendWordNode.id c = i
             ∧ WordNode.word w = BackendWordNode.word c
             ∧ WordNode.parent_id w = BackendWordNode.parent_id c.
Proof.
  intros Hres. split.
  { unfold own_properties. by rewrite dom_delete_L, (assign_dom _ _ _ _ Hres). }
  intros i w Hw. destruct (assign_entry _ _ _ _ _ _ Hres Hw) as (c & Hc & Hid & Heq).
  split; [by rewrite Heq|]. exists c. by rewrite Heq.
Qed.

Lemma queue_reachable existing backendNodes root i :
  find no_parent (Object_values backendNodes) = Some root →
  i ∈ nodeId <$> layout_queue existing backendNodes
  ↔ Reachable (Object_values backendNodes) (BackendWordNode.id root) i.
Proof.
  intros Hroot. unfold layout_queue. rewrite Hroot.
  pose proof (find_no_parent_in _ _ Hroot) as Hin.
  destruct (traversal_is_Some existing _ _ Hin) as [st Hst]. rewrite Hst.
  destruct (traversal_loop_inv _ _ _ _ Hin Hst) as (head & (Hwf & _) & _).
  change (nodeId <$> queue st) with (queue_ids st).
  rewrite <- (elem_of_list_to_set (C := gset string)), <- (wf_queue _ _ Hwf).
  split; [by eapply traversal_reachable|by eapply traversal_complete].
Qed.

Lemma queue_NoDup existing backendNodes :
  NoDup (nodeId <$> layout_queue existing backendNodes).
Proof.
  unfold layout_queue.
  destruct (find no_parent (Object_values backendNodes)) as [root|] eqn:Hroot;
    [|apply NoDup_nil_2].
  pose proof (find_no_parent_in _ _ Hroot) as Hin.
  destruct (traversal_is_Some existing _ _ Hin) as [st Hst]. rewrite Hst.
  destruct (traversal_loop_inv _ _ _ _ Hin Hst) as (head & (Hwf & _) & _).
  apply Hwf.
Qed.

(** X2.  The traversal puts in its queue the nodes that are reachable from
    the root by parent links, and no other; no identifier is put in the
    queue twice, also when the parent links form a cycle or when two
    nodes share an identifier. *)
Theorem traversal_visits_the_reachable_once (existing : option (gmap string (WordNode.t num)))
    (backendNodes : BackendNodes) (root : BackendWordNode.t) :
  find no_parent (Object_values backendNodes) = Some root →
  NoDup (nodeId <$> layout_queue existing backendNodes)
  ∧ ∀ i, i ∈ nodeId <$> layout_queue existing backendNodes
         ↔ Reachable (Object_values backendNodes) (BackendWordNode.id root) i.
Proof.
  intros Hroot. split; [apply queue_NoDup|]. intros i. by apply queue_reachable.
Qed.

Lemma place_in_row_other existing nodes cx cy (m : gmap string (WordNode.t num)) i :
  i ∉ ids nodes → place_in_row existing nodes cx cy m !! i = m !! i.
Proof.
  revert cx m. induction nodes as [|n rest IH]; intros cx m Hi; simpl; [done|].
  unfold ids in Hi. rewrite fmap_cons, not_elem_of_cons in Hi. destruct Hi as [Hne Hi].
  rewrite IH by done. by apply lookup_insert_ne.
Qed.

Lemma place_in_row_lookup existing nodes cx cy (m : gmap string (WordNode.t num)) k n :
  NoDup (ids nodes) → nodes !! k = Some n →
  place_in_row existing nodes cx cy m !! BackendWordNode.id n
  = Some (keep_or_place existing n (Nat.iter k (λ currentX, currentX + of_Z 100) cx) cy).
Proof.
  revert cx m k. induction nodes as [|n' rest IH]; intros cx m k Hnd Hk; [done|].
  unfold ids in Hnd. rewrite fmap_cons in Hnd. apply NoDup_cons in Hnd as [Hfresh Hnd].
  destruct k as [|k]; simpl in *.
  - injection Hk as ->. rewrite place_in_row_other by done. apply lookup_insert_eq.
  - rewrite (IH _ _ k) by done.
    pose proof (Nat.iter_succ_r k (λ currentX, currentX + of_Z 100) cx) as Hiter.
    simpl in Hiter. by rewrite <- Hiter.
Qed.

(** X4.  When no node is without a parent (an empty map, or parent links that
    form a cycle), the nodes are placed in a row: in a map with distinct
    identifiers the node at the index [k] of the enumeration keeps its
    existing position, or is placed at [y = 50] and at [x = 50] plus [k]
    times [100]. *)
Theorem rootless_nodes_in_a_row (rnd : Random num) (backendNodes : BackendNodes)
    (existing : option (gmap string (WordNode.t num))) :
  find no_parent (Object_values backendNodes) = None →
  NoDup (ids (Object_values backendNodes)) →
  ∃ res,
    assignPositionsToNodes rnd backendNodes existing = Some res
    ∧ ∀ k n, Object_values backendNodes !! k = Some n →
        res !! BackendWordNode.id n
        = Some (keep_or_place existing n (row_x k) (of_Z 50)).
Proof.
  intros Hroot Hnd. eexists. split; [by apply assign_rootless|].
  intros k n Hk. by apply place_in_row_lookup.
Qed.

(** X5.  Laying out the same nodes again with the result as the existing
    positions gives the same result, whatever [Math.random] returns
    the second time: the layout of a map with distinct identifiers is
    idempotent. *)
Theorem layout_idempotent (rnd rnd' : Random num) (backendNodes : BackendNodes)
    (existing : option (gmap string (WordNode.t num)))
    (res : gmap string (WordNode.t num)) :
  NoDup (ids (Object_values backendNodes)) →
  assignPositionsToNodes rnd backendNodes existing = Some res →
  assignPositionsToNodes rnd' backendNodes (Some res) = Some res.
Proof.
  intros Hnd Hres.
  destruct (assignPositionsToNodes_is_Some rnd' backendNodes (Some res)) as [res2 Hres2].
  rewrite Hres2. f_equal. apply map_eq. intros i.
  destruct (res2 !! i) as [w2|] eqn:Hw2.
  - pose proof (assign_provenance (λ _, True) (ValidArith0 := ValidArith_True)
                  rnd' backendNodes (Some res) res2 i w2 (λ _, I) Hres2 Hw2)
      as [(r & Hr & Hid & ->)|(c & Hc & Hid & Hentry)].
    + subst i. symmetry. by eapply assign_root_entry.
    + assert (is_Some (res !! i)) as [w Hw].
      { apply elem_of_dom. rewrite (assign_dom _ _ _ _ Hres), <- (assign_dom _ _ _ _ Hres2).
        apply elem_of_dom. eauto. }
      unfold entry_of in Hentry. simpl in Hentry. rewrite Hid, Hw in Hentry.
      destruct (assign_entry _ _ _ _ _ _ Hres Hw) as (c' & Hc' & Hid' & Heq).
      assert (c' = c) as -> by (eapply NoDup_ids_eq; [done..|congruence]).
      by rewrite Hw, Heq, Hentry.
  - symmetry. apply not_elem_of_dom.
    rewrite (assign_dom _ _ _ _ Hres), <- (assign_dom _ _ _ _ Hres2).
    by apply not_elem_of_dom.
Qed.

End LayoutCoverage.

(** ** The fan of the children over the real numbers *)

Section RealFan.
Local Existing Instance RealNumber.
Local Open Scope R_scope.

Ltac real_coordinates :=
  unfold positioned; cbn [WordNode.x WordNode.y add sub RealNumber].

Lemma angle_of_INR (n k : nat) :
  angle_of n k = PI * (INR (k + 1) / INR (n + 1)).
Proof.
  unfold angle_of. simpl. rewrite <- !INR_IZR_INZ.
  assert (INR (n + 1) ≠ 0) by (apply not_0_INR; lia). by field.
Qed.

Lemma angle_of_range (n k : nat) : (k < n)%nat → 0 < angle_of n k < PI.
Proof.
  intros Hk. rewrite angle_of_INR.
  assert (0 < INR (k + 1)) by (apply lt_0_INR; lia).
  assert (INR (k + 1) < INR (n + 1)) by (apply lt_INR; lia).
  assert (0 < INR (k + 1) / INR (n + 1) < 1) as [? ?].
  { assert (INR (k + 1) / INR (n + 1) * INR (n + 1) = INR (k + 1)) by (field; lra).
    split; nra. }
  pose proof PI_RGT_0. split; nra.
Qed.

Lemma angle_of_increasing (n k k' : nat) : (k < k')%nat → angle_of n k < angle_of n k'.
Proof.
  intros Hk. rewrite !angle_of_INR.
  assert (0 < INR (n + 1)) by (apply lt_0_INR; lia).
  assert (INR (k + 1) < INR (k' + 1)) by (apply lt_INR; lia).
  assert (INR (k + 1) / INR (n + 1) < INR (k' + 1) / INR (n + 1)).
  { unfold Rdiv. apply Rmult_lt_compat_r; [by apply Rinv_0_lt_compat|done]. }
  pose proof PI_RGT_0. nra.
Qed.

Lemma offsetX_of_real (n k d : nat) :
  offsetX_of n k d = cos (angle_of n k) * (50 * INR (d + 1)).
Proof.
  unfold offsetX_of, NODE_OFFSET_X. cbn [mul of_Z lit_0_5 Math_cos RealNumber].
  rewrite <- INR_IZR_INZ. field.
Qed.

Lemma offsetY_of_real (n k : nat) : offsetY_of n k = sin (angle_of n k) * 75.
Proof.
  unfold offsetY_of, NODE_OFFSET_Y. cbn [mul of_Z lit_1_5 Math_sin RealNumber]. field.
Qed.

(** The offsets of the [k]-th of [n] children of a node of depth [d]. *)
Lemma fan_offsets (n k d : nat) :
  (k < n)%nat →
  0 < offsetY_of n k <= 75
  ∧ - (50 * INR (d + 1)) < offsetX_of n k d < 50 * INR (d + 1).
Proof.
  intros Hk. destruct (angle_of_range n k Hk) as [H0 HPI].
  rewrite offsetX_of_real, offsetY_of_real.
  pose proof (sin_gt_0 _ H0 HPI). pose proof (SIN_bound (angle_of n k)) as [_ ?].
  assert (cos (angle_of n k) < 1).
  { rewrite <- cos_0. apply cos_decreasing_1; lra. }
  assert (-1 < cos (angle_of n k)).
  { rewrite <- cos_PI. apply cos_decreasing_1; lra. }
  assert (0 < INR (d + 1)) by (apply lt_0_INR; lia).
  repeat split; nra.
Qed.

Lemma fan_offsets_decreasing (n k k' d : nat) :
  (k < k')%nat → (k' < n)%nat → offsetX_of n k' d < offsetX_of n k d.
Proof.
  intros Hk Hk'. rewrite !offsetX_of_real.
  destruct (angle_of_range n k) as [? ?]; [lia|].
  destruct (angle_of_range n k' Hk') as [? ?].
  pose proof (angle_of_increasing n k k' Hk).
  assert (cos (angle_of n k') < cos (angle_of n k)) by (apply cos_decreasing_1; lra).
  assert (0 < INR (d + 1)) by (apply lt_0_INR; lia).
  nra.
Qed.

(** In a layout without existing positions, an element of the queue
    carries the coordinates of its entry in the result. *)
Lemma fresh_item_entry (rnd : Random R) (backendNodes : BackendNodes)
    (root : BackendWordNode.t) (item : QueueItem R) :
  find no_parent (Object_values backendNodes) = Some root →
  item ∈ layout_queue None backendNodes →
  ∃ res w,
    assignPositionsToNodes rnd backendNodes None = Some res
    ∧ res !! nodeId item = Some w
    ∧ WordNode.x w = parentX item ∧ WordNode.y w = parentY item.
Proof.
  intros Hroot Hitem.
  destruct (assign_rooted rnd backendNodes None root Hroot) as (st & Hst & Hres).
  unfold layout_queue in Hitem. rewrite Hroot, Hst in Hitem.
  pose proof (find_no_parent_in _ _ Hroot) as Hin.
  destruct (traversal_fresh_coords _ _ _ Hin Hst item Hitem) as (w & Hw & Hx & Hy).
  destruct (traversal_loop_inv _ _ _ _ Hin Hst) as (head & (Hwf & _) & _).
  eexists _, w. split; [done|]. split; [|done].
  rewrite (ext_positioned _ _ (extends_place_missed None _ rnd st)); [done|].
  rewrite <- (wf_dom _ _ Hwf). apply elem_of_dom. by rewrite Hw.
Qed.

(** A child of a reachable node, in a first layout of a map with
    distinct identifiers: its entry, from that of its parent. *)
Lemma fresh_child_entry (rnd : Random R) (backendNodes : BackendNodes)
    (root : BackendWordNode.t) (p : string) (k : nat) (c : BackendWordNode.t) :
  let n := length (filter (is_child_of p) (Object_values backendNodes)) in
  NoDup (ids (Object_values backendNodes)) →
  find no_parent (Object_values backendNodes) = Some root →
  BackendWordNode.parent_id root = None →
  Reachable (Object_values backendNodes) (BackendWordNode.id root) p →
  filter (is_child_of p) (Object_values backendNodes) !! k = Some c →
  ∃ res wp d,
    assignPositionsToNodes rnd backendNodes None = Some res
    ∧ res !! p = Some wp
    ∧ res !! BackendWordNode.id c
      = Some (positioned c (WordNode.x wp + offsetX_of n k d)
                           (WordNode.y wp + offsetY_of n k)).
Proof.
  intros n Hnd Hroot Hparent Hp Hk. subst n.
  apply (queue_reachable None) in Hp; [|done].
  apply list_elem_of_fmap in Hp as (item & -> & Hitem).
  destruct (fresh_item_entry rnd backendNodes root item Hroot Hitem)
    as (res & wp & Hres & Hwp & Hx & Hy).
  destruct (child_placed rnd backendNodes None root item k c Hnd Hroot Hparent Hitem Hk)
    as (_ & res' & Hres' & Hc).
  rewrite Hres in Hres'. injection Hres' as <-.
  exists res, wp, (depth item). split; [done|]. split; [done|].
  rewrite Hc. unfold keep_or_place, childX_of, childY_of. simpl. by rewrite Hx, Hy.
Qed.

Lemma fresh_child_below (rnd : Random R) (backendNodes : BackendNodes)
    (root : BackendWordNode.t) (p : string) (c : BackendWordNode.t) :
  NoDup (ids (Object_values backendNodes)) →
  find no_parent (Object_values backendNodes) = Some root →
  BackendWordNode.parent_id root = None →
  Reachable (Object_values backendNodes) (BackendWordNode.id root) p →
  c ∈ Object_values backendNodes → is_child_of p c →
  ∃ res wp w,
    assignPositionsToNodes rnd backendNodes None = Some res
    ∧ res !! p = Some wp ∧ res !! BackendWordNode.id c = Some w
    ∧ WordNode.y wp < WordNode.y w <= WordNode.y wp + 75.
Proof.
  intros Hnd Hroot Hparent Hp Hc Hchild.
  assert (c ∈ filter (is_child_of p) (Object_values backendNodes)) as [k Hk]%list_elem_of_lookup
    by by apply list_elem_of_filter.
  destruct (fresh_child_entry rnd backendNodes root p k c Hnd Hroot Hparent Hp Hk)
    as (res & wp & d & Hres & Hwp & Hw).
  eexists res, wp, _. split; [done|]. split; [done|]. split; [done|].
  apply lookup_lt_Some in Hk.
  destruct (fan_offsets _ k d Hk) as [[? ?] _]. real_coordinates. lra.
Qed.

(** X6.  In a first layout (no existing positions) of a map with distinct
    identifiers whose root has no parent, with numbers read as real
    numbers, let [p] be a node that is reachable from the root, and [d]
    its depth in the queue.  (1) A child of [p] is strictly lower on the
    screen than [p], by at most 75, and horizontally less than
    [50 * (d + 1)] away from it.  (2) Of two children of [p], the one
    enumerated later is strictly to the left, so no two children of a node
    share a position. *)
Theorem children_fan_out_below_parent (rnd : Random R) (backendNodes : BackendNodes)
    (root : BackendWordNode.t) (p : string) :
  let nodesToProcess := Object_values backendNodes in
  let children := filter (is_child_of p) nodesToProcess in
  NoDup (ids nodesToProcess) →
  find no_parent nodesToProcess = Some root →
  BackendWordNode.parent_id root = None →
  Reachable nodesToProcess (BackendWordNode.id root) p →
  ∃ res wp item,
    assignPositionsToNodes rnd backendNodes None = Some res
    ∧ res !! p = Some wp
    ∧ item ∈ layout_queue None backendNodes ∧ nodeId item = p
    ∧ (∀ k c, children !! k = Some c →
         ∃ w, res !! BackendWordNode.id c = Some w
              ∧ WordNode.y wp < WordNode.y w <= WordNode.y wp + 75
              ∧ WordNode.x wp - 50 * INR (depth item + 1) < WordNode.x w
                < WordNode.x wp + 50 * INR (depth item + 1))
    ∧ (∀ k1 k2 c1 c2 w1 w2,
         children !! k1 = Some c1 → children !! k2 = Some c2 → (k1 < k2)%nat →
         res !! BackendWordNode.id c1 = Some w1 →
         res !! BackendWordNode.id c2 = Some w2 →
         WordNode.x w2 < WordNode.x w1).
Proof.
  intros nodes children Hnd Hroot Hparent Hp. subst children nodes.
  destruct (assignPositionsToNodes_is_Some rnd backendNodes None) as [res Hres].
  pose proof Hp as Hq. apply (queue_reachable None) in Hq; [|done].
  apply list_elem_of_fmap in Hq as (item & -> & Hitem).
  destruct (fresh_item_entry rnd backendNodes root item Hroot Hitem)
    as (res' & wp & Hres' & Hwp & Hx & Hy).
  rewrite Hres in Hres'. injection Hres' as <-.
  assert (∀ k c,
    filter (is_child_of (nodeId item)) (Object_values backendNodes) !! k = Some c →
    res !! BackendWordNode.id c
    = Some (positioned c
        (WordNode.x wp + offsetX_of
           (length (filter (is_child_of (nodeId item)) (Object_values backendNodes)))
           k (depth item))
        (WordNode.y wp + offsetY_of
           (length (filter (is_child_of (nodeId item)) (Object_values backendNodes)))
           k))) as Hentry.
  { intros k c Hk.
    destruct (child_placed rnd backendNodes None root item k c Hnd Hroot Hparent Hitem Hk)
      as (_ & res' & Hres' & Hc).
    rewrite Hres in Hres'. injection Hres' as <-.
    rewrite Hc. unfold keep_or_place, childX_of, childY_of. simpl. by rewrite Hx, Hy. }
  exists res, wp, item. split; [done|]. split; [done|]. split; [done|]. split; [done|].
  split.
  - intros k c Hk. eexists. split; [by apply Hentry|].
    apply lookup_lt_Some in Hk.
    destruct (fan_offsets _ k (depth item) Hk) as [[? ?] [? ?]]. real_coordinates. lra.
  - intros k1 k2 c1 c2 w1 w2 Hk1 Hk2 Hlt Hw1 Hw2.
    rewrite (Hentry _ _ Hk1) in Hw1. rewrite (Hentry _ _ Hk2) in Hw2.
    apply (inj Some) in Hw1 as <-. apply (inj Some) in Hw2 as <-.
    apply lookup_lt_Some in Hk2.
    pose proof (fan_offsets_decreasing _ k1 k2 (depth item) Hlt Hk2). real_coordinates. lra.
Qed.

(** X7.  In a first layout of a map with distinct identifiers whose root has
    no parent, the root, at [y = 50], is the top of the map: every other
    node that is reachable from it lies strictly lower. *)
Theorem root_is_the_top (rnd : Random R) (backendNodes : BackendNodes)
    (root : BackendWordNode.t) (i : string) :
  NoDup (ids (Object_values backendNodes)) →
  find no_parent (Object_values backendNodes) = Some root →
  BackendWordNode.parent_id root = None →
  Reachable (Object_values backendNodes) (BackendWordNode.id root) i →
  ∃ res w,
    assignPositionsToNodes rnd backendNodes None = Some res
    ∧ res !! i = Some w
    ∧ 50 <= WordNode.y w
    ∧ (i ≠ BackendWordNode.id root → 50 < WordNode.y w).
Proof.
  intros Hnd Hroot Hparent Hi.
  destruct (assignPositionsToNodes_is_Some rnd backendNodes None) as [res Hres].
  exists res. induction Hi as [|p c Hp IH Hc Hchild].
  - eexists. split; [done|]. split; [by eapply assign_root_entry|].
    real_coordinates. unfold rootY. cbn [of_Z RealNumber]. split; [lra|done].
  - destruct IH as (wp & _ & Hwp & Hge & _).
    destruct (fresh_child_below rnd backendNodes root p c Hnd Hroot Hparent Hp Hc Hchild)
      as (res' & wp' & w & Hres' & Hwp' & Hw & Hlt & _).
    rewrite Hres in Hres'. injection Hres' as <-.
    rewrite Hwp in Hwp'. injection Hwp' as <-.
    exists w. split; [done|]. split; [done|]. split; [lra|]. intros _. lra.
Qed.

(** X8.  A node that the traversal does not reach and that has no existing
    position, in a map with distinct identifiers: when [Math.random]
    returns numbers from 0 up to, but not including, 1, the node is put
    inside the area of 500 by 400 that the layout takes for the map. *)
Theorem missed_node_inside_the_area (rnd : Random R) (backendNodes : BackendNodes)
    (existing : option (gmap string (WordNode.t R))) (root n : BackendWordNode.t) :
  NoDup (ids (Object_values backendNodes)) →
  find no_parent (Object_values backendNodes) = Some root →
  n ∈ Object_values backendNodes →
  ¬ Reachable (Object_values backendNodes) (BackendWordNode.id root) (BackendWordNode.id n) →
  existing_entry existing (BackendWordNode.id n) = None →
  (∀ k, 0 <= rnd k < 1) →
  ∃ res w,
    assignPositionsToNodes rnd backendNodes existing = Some res
    ∧ res !! BackendWordNode.id n = Some w
    ∧ 0 <= WordNode.x w < 500 ∧ 0 <= WordNode.y w < 400.
Proof.
  intros Hnd Hroot Hn Hunreachable Hnone Hrnd.
  destruct (unreachable_is_random rnd backendNodes existing root n
              Hnd Hroot Hn Hunreachable Hnone) as (res & k & Hres & Hw).
  eexists res, _. split; [done|]. split; [done|].
  unfold NODE_AREA_WIDTH, NODE_AREA_HEIGHT. real_coordinates. cbn [mul of_Z RealNumber].
  pose proof (Hrnd k). pose proof (Hrnd (S k)). lra.
Qed.

End RealFan.

(** ** The order of the traversal *)

Section BreadthFirst.
Context {num : Type} `{Number num}.
Implicit Types (st : LayoutState num) (item : QueueItem num)
  (existing : option (gmap string (WordNode.t num)))
  (nodes children : list BackendWordNode.t).

(** What one round of the [while] loop adds to the queue. *)
Lemma visit_queue existing nodes item st :
  ∃ new, queue (visit existing nodes item st) = queue st ++ new
         ∧ ∀ b, b ∈ new → queued_from nodes item b.
Proof.
  unfold visit.
  apply (place_children_inv
    (λ st', ∃ new, queue st' = queue st ++ new ∧ ∀ b, b ∈ new → queued_from nodes item b)).
  - intros k st' child Hchild _ (new & Hq & Hnew).
    exists (new ++ [mkItem (BackendWordNode.id child)
                      (parentX item + offsetX_of
                         (length (filter (is_child_of (nodeId item)) nodes)) k (depth item))%num
                      (parentY item + offsetY_of
                         (length (filter (is_child_of (nodeId item)) nodes)) k)%num
                      (depth item + 1)]).
    split; [simpl; by rewrite Hq, app_assoc|].
    intros b [Hb|Hb]%elem_of_app; [by apply Hnew|].
    apply list_elem_of_singleton in Hb as ->. split; [done|].
    apply list_elem_of_filter in Hchild as [? ?]. by exists child.
  - exists []. split; [by rewrite app_nil_r|]. intros b Hb. by apply elem_of_nil in Hb.
Qed.

Lemma level_inv_start nodes root : level_inv nodes 0 (start_state root).
Proof.
  split; [|split]; simpl.
  - intros [|j] [|j'] a b _ Ha Hb; simplify_eq/=; done.
  - intros a b [= <-] ->%list_elem_of_singleton. simpl. lia.
  - intros [|j] b Hb Hj; [lia|done].
Qed.

Lemma level_inv_visit existing nodes head item st :
  queue st !! head = Some item →
  level_inv nodes head st → level_inv nodes (S head) (visit existing nodes item st).
Proof.
  intros Hitem (Hsorted & Hbound & Hfrom).
  destruct (visit_queue existing nodes item st) as (new & Hq & Hnew).
  pose proof (lookup_lt_Some _ _ _ Hitem) as Hlt.
  assert (∀ b, b ∈ queue st ++ new → depth b ≤ depth item + 1) as Hbound'.
  { intros b [Hb|Hb]%elem_of_app; [by eapply Hbound|]. destruct (Hnew b Hb) as [-> _]. done. }
  assert (∀ j j' a b, j ≤ j' → (queue st ++ new) !! j = Some a →
            (queue st ++ new) !! j' = Some b → depth a ≤ depth b) as Hsorted'.
  { intros j j' a b Hj Ha Hb.
    apply lookup_app_Some in Ha as [Ha|[Hja Ha]];
      apply lookup_app_Some in Hb as [Hb|[Hjb Hb]].
    - by eapply Hsorted.
    - apply list_elem_of_lookup_2 in Ha, Hb. destruct (Hnew b Hb) as [-> _].
      by eapply Hbound.
    - apply lookup_lt_Some in Hb. lia.
    - apply list_elem_of_lookup_2 in Ha, Hb.
      destruct (Hnew a Ha) as [-> _]. destruct (Hnew b Hb) as [-> _]. done. }
  unfold level_inv. rewrite Hq. split; [done|]. split.
  - intros a b Ha Hb. apply Hbound' in Hb.
    assert (depth item ≤ depth a); [|lia].
    eapply (Hsorted' head (S head)); [lia| |done].
    by apply lookup_app_l_Some.
  - intros j b Hb Hj. apply lookup_app_Some in Hb as [Hb|[Hjb Hb]].
    + destruct (Hfrom j b Hb Hj) as (j0 & a & ? & ? & ?).
      exists j0, a. split; [done|]. split; [by apply lookup_app_l_Some|done].
    + apply list_elem_of_lookup_2 in Hb.
      exists head, item. split; [lia|]. split; [by apply lookup_app_l_Some|by apply Hnew].
Qed.

Lemma traversal_level_inv existing nodes root st :
  traversal existing nodes root = Some st → ∃ head, level_inv nodes head st.
Proof.
  intros Hrun. unfold traversal in Hrun.
  eapply (traverse_invariant (level_inv nodes)) in Hrun as (head & Hinv & _); [by eauto| |].
  - intros head st' item ??. by apply level_inv_visit.
  - apply level_inv_start.
Qed.

Lemma queue_levels existing backendNodes root :
  find no_parent (Object_values backendNodes) = Some root →
  layout_queue existing backendNodes !! 0
  = Some (mkItem (BackendWordNode.id root) rootX rootY 0)
  ∧ (∀ j j' a b, j ≤ j' →
       layout_queue existing backendNodes !! j = Some a →
       layout_queue existing backendNodes !! j' = Some b →
       depth a ≤ depth b)
  ∧ (∀ j b, layout_queue existing backendNodes !! j = Some b → 0 < j →
       ∃ j0 a, j0 < j ∧ layout_queue existing backendNodes !! j0 = Some a
               ∧ queued_from (Object_values backendNodes) a b).
Proof.
  intros Hroot. unfold layout_queue. rewrite Hroot.
  pose proof (find_no_parent_in _ _ Hroot) as Hin.
  destruct (traversal_is_Some existing _ _ Hin) as [st Hst]. rewrite Hst.
  destruct (traversal_loop_inv _ _ _ _ Hin Hst) as (head & (_ & _ & Hext & _) & _).
  destruct (traversal_level_inv _ _ _ _ Hst) as (head' & Hsorted & _ & Hfrom).
  split; [|done]. by apply (extends_lookup _ _ 0 _ Hext).
Qed.

(** X3.  The traversal is breadth first.  The queue starts with the root at
    the depth 0 and at the anchor; its elements are in the order of their
    depths; and every later element was put there as a child of an
    earlier element, one level deeper: its identifier is that of a node
    whose [parent_id] is the identifier of that element.  So the depth
    that enters the horizontal offset of a node's children is the number
    of parent links from the node to the root. *)
Theorem traversal_is_breadth_first (existing : option (gmap string (WordNode.t num)))
    (backendNodes : BackendNodes) (root : BackendWordNode.t) :
  let queue := layout_queue existing backendNodes in
  find no_parent (Object_values backendNodes) = Some root →
  queue !! 0 = Some (mkItem (BackendWordNode.id root) rootX rootY 0)
  ∧ (∀ j j' a b, j ≤ j' → queue !! j = Some a → queue !! j' = Some b →
       depth a ≤ depth b)
  ∧ (∀ j b, queue !! j = Some b → 0 < j →
       ∃ j0 a c, j0 < j ∧ queue !! j0 = Some a
                 ∧ c ∈ Object_values backendNodes
                 ∧ BackendWordNode.id c = nodeId b
                 ∧ BackendWordNode.parent_id c = Some (nodeId a)
                 ∧ depth b = depth a + 1).
Proof.
  intros queue Hroot. subst queue.
  destruct (queue_levels existing backendNodes root Hroot) as (H0 & Hsorted & Hfrom).
  split; [done|]. split; [done|].
  intros j b Hb Hj. destruct (Hfrom j b Hb Hj) as (j0 & a & ? & ? & ? & c & ? & ? & ?).
  by exists j0, a, c.
Qed.

End BreadthFirst.

(** ** The drawing of the map *)

Section RenderFacts.
Context {num : Type} `{Number num}.
Implicit Types (s : GameScreen num) (g : GameState.t num).
Local Open Scope num_scope.

Lemma line_of_nodes (inherited : string → bool) (nodes : gmap string (WordNode.t num))
    parentId childId parentNode childNode :
  nodes !! parentId = Some parentNode → nodes !! childId = Some childNode →
  line_of inherited nodes (parentId, childId)
  = Some (line_between parentId childId parentNode childNode).
Proof. intros Hp Hc. unfold line_of, get_property. by rewrite Hp, Hc. Qed.

Lemma Forall2_omap_all {A B} (f : A → option B) (P : A → B → Prop) (l : list A) :
  (∀ a, a ∈ l → ∃ b, f a = Some b ∧ P a b) → Forall2 P l (omap f l).
Proof.
  induction l as [|a l IH]; intros Hall; simpl; [constructor|].
  destruct (Hall a) as (b & -> & Hb); [by left|].
  constructor; [done|]. apply IH. intros a' Ha'. apply Hall. by right.
Qed.

Lemma all_drawn (inherited : string → bool) (rnd : Random num) (b : BackendGameState.t)
    (existing : option (gmap string (WordNode.t num)))
    (res : gmap string (WordNode.t num)) :
  assignPositionsToNodes rnd (BackendGameState.nodes b) existing = Some res →
  (∀ parentId childId, (parentId, childId) ∈ BackendGameState.connections b →
     parentId ∈ ids (Object_values (BackendGameState.nodes b))
     ∧ childId ∈ ids (Object_values (BackendGameState.nodes b))) →
  Forall2 (λ connection l,
             ∃ parentNode childNode,
               res !! connection.1 = Some parentNode
               ∧ res !! connection.2 = Some childNode
               ∧ l = line_between connection.1 connection.2 parentNode childNode)
    (BackendGameState.connections b)
    (renderMindMap_edges inherited (GameState.of_backend b res)).
Proof.
  intros Hres Hends. unfold renderMindMap_edges. simpl.
  assert (∀ i, i ∈ ids (Object_values (BackendGameState.nodes b)) → is_Some (res !! i))
    as Hsome.
  { intros i (n & -> & Hn)%list_elem_of_fmap. by eapply assign_covers. }
  apply Forall2_omap_all. intros [p c] Hin.
  destruct (Hends p c Hin) as [[pn Hp]%Hsome [cn Hc]%Hsome].
  exists (line_between p c pn cn). split; [by apply line_of_nodes|]. by exists pn, cn.
Qed.

Lemma end_of_line (inherited : string → bool) (rnd : Random num) (backendNodes : BackendNodes)
    (existing : option (gmap string (WordNode.t num)))
    (res : gmap string (WordNode.t num)) (key : string) (p : Property num)
    (shift : num → num) :
  assignPositionsToNodes rnd backendNodes existing = Some res →
  get_property inherited res key = Some p →
  line_end inherited (Object_values backendNodes) res key
    (property_x p) (shift <$> property_y p) shift.
Proof.
  intros Hres Hp. unfold get_property in Hp. unfold line_end.
  destruct (res !! key) as [node|] eqn:Hnode.
  - injection Hp as <-. left. exists node. split; [|done].
    rewrite <- (elem_of_list_to_set (C := gset string)), <- (assign_dom _ _ _ _ Hres).
    apply elem_of_dom. by rewrite Hnode.
  - destruct (inherited key) eqn:Hkey; [|done]. injection Hp as <-. right.
    split; [|done].
    rewrite <- (elem_of_list_to_set (C := gset string)), <- (assign_dom _ _ _ _ Hres).
    by apply not_elem_of_dom.
Qed.

Lemma drawn_lines (inherited : string → bool) (rnd : Random num) (b : BackendGameState.t)
    (existing : option (gmap string (WordNode.t num)))
    (res : gmap string (WordNode.t num)) (l : Line num) :
  assignPositionsToNodes rnd (BackendGameState.nodes b) existing = Some res →
  l ∈ renderMindMap_edges inherited (GameState.of_backend b res) →
  ∃ parentId childId,
    (parentId, childId) ∈ BackendGameState.connections b
    ∧ line_id l = parentId +:+ "-" +:+ childId
    ∧ line_end inherited (Object_values (BackendGameState.nodes b)) res parentId
        (sourceX l) (sourceY l) (λ y, y + of_Z 30)
    ∧ line_end inherited (Object_values (BackendGameState.nodes b)) res childId
        (targetX l) (targetY l) (λ y, y - of_Z 30).
Proof.
  intros Hres Hl. unfold renderMindMap_edges in Hl. simpl in Hl.
  apply list_elem_of_omap in Hl as ([p c] & Hin & Hline).
  exists p, c. split; [done|]. unfold line_of in Hline.
  destruct (get_property inherited res p) as [pp|] eqn:Hp; [|done].
  destruct (get_property inherited res c) as [pc|] eqn:Hc; [|done].
  injection Hline as <-. simpl. split; [done|].
  split; by eapply end_of_line.
Qed.

(** X9.  The lines of the drawing of the snapshot that the screen stores for
    a state of the backend, laid out by [assignPositionsToNodes], whatever
    the object inherits from its prototypes.  (1) Every line is drawn for
    a connection of the state; an end of the connection that is a node of
    the state is drawn at the position of the node, 30 lower for the
    parent and 30 higher for the child, and an end that is no node of the
    state, also one that only the previous snapshot has, gives a line
    only when its key is inherited, and then without coordinates at that
    end.  (2) When the ends of the connections are nodes of the state,
    the lines are those of the connections, one for each, in their order,
    from node to node. *)
Theorem connections_are_drawn (inherited : string → bool) (rnd : Random num)
    (b : BackendGameState.t) (existing : option (gmap string (WordNode.t num)))
    (res : gmap string (WordNode.t num)) :
  assignPositionsToNodes rnd (BackendGameState.nodes b) existing = Some res →
  (∀ l, l ∈ renderMindMap_edges inherited (GameState.of_backend b res) →
     ∃ parentId childId,
       (parentId, childId) ∈ BackendGameState.connections b
       ∧ line_id l = parentId +:+ "-" +:+ childId
       ∧ line_end inherited (Object_values (BackendGameState.nodes b)) res parentId
           (sourceX l) (sourceY l) (λ y, y + of_Z 30)
       ∧ line_end inherited (Object_values (BackendGameState.nodes b)) res childId
           (targetX l) (targetY l) (λ y, y - of_Z 30))
  ∧ ((∀ parentId childId, (parentId, childId) ∈ BackendGameState.connections b →
        parentId ∈ ids (Object_values (BackendGameState.nodes b))
        ∧ childId ∈ ids (Object_values (BackendGameState.nodes b))) →
     Forall2 (λ connection l,
                ∃ parentNode childNode,
                  res !! connection.1 = Some parentNode
                  ∧ res !! connection.2 = Some childNode
                  ∧ l = line_between connection.1 connection.2 parentNode childNode)
       (BackendGameState.connections b)
       (renderMindMap_edges inherited (GameState.of_backend b res))).
Proof.
  intros Hres. split.
  - intros l Hl. by eapply drawn_lines.
  - intros Hends. by eapply all_drawn.
Qed.

(** ** The form and the handler *)

Lemma no_selection_false (o : option string) :
  no_selection o = false ↔ ∃ sel, o = Some sel ∧ sel ≠ "".
Proof.
  unfold no_selection. destruct o as [sel|].
  - rewrite bool_decide_eq_false. split; [eauto|]. by intros (? & [= <-] & ?).
  - split; [done|]. by intros (? & ? & ?).
Qed.

Lemma request_sent s s' request g :
  handleAddConnection_submit s = (s', Some (request, g)) →
  gameState s = Some g ∧ GameState.is_active g = true
  ∧ selectedNodeId s = Some (parent_node_id request) ∧ parent_node_id request ≠ ""
  ∧ trim (newWord s) ≠ ""
  ∧ request = mkRequest (GameState.game_id g) (parent_node_id request) (trim (newWord s))
  ∧ s' = setError None (setIsLoading true s).
Proof.
  unfold handleAddConnection_submit.
  destruct (gameState s) as [g'|]; [|done].
  destruct (selectedNodeId s) as [sel|]; [|done].
  destruct (bool_decide (sel = "")) eqn:Hsel; [done|].
  destruct (bool_decide (trim (newWord s) = "")) eqn:Hword; [done|].
  destruct (GameState.is_active g') eqn:Hactive; [|done]. simpl.
  intros [= <- <- <-]. simpl.
  apply bool_decide_eq_false in Hsel, Hword. done.
Qed.

Lemma enabled_button_sends s :
  form_shown s = true → button_disabled s = false →
  ∃ g sel,
    gameState s = Some g ∧ selectedNodeId s = Some sel
    ∧ handleAddConnection_submit s
      = (setError None (setIsLoading true s),
         Some (mkRequest (GameState.game_id g) sel (trim (newWord s)), g)).
Proof.
  unfold form_shown, active, button_disabled, handleAddConnection_submit.
  destruct (gameState s) as [g|]; [|done]. intros Hactive Hbutton.
  apply orb_false_iff in Hbutton as [Hbutton _].
  apply orb_false_iff in Hbutton as [(sel & -> & Hsel)%no_selection_false Hword].
  exists g, sel. rewrite Hword, Hactive. by rewrite bool_decide_eq_false_2.
Qed.

(** X11.  The form and the gate of the handler agree.  (1) When the form is
    on the screen and its button is enabled, submitting the form sends a
    request: the message of the gate cannot be brought about through
    the button.  (2) A request is only sent from an active game with a
    selection and a word, and once it is sent and until the answer
    arrives the button and the input are disabled.  (3) Whatever the
    answer, it ends the loading. *)
Theorem form_agrees_with_gate :
  (∀ s, form_shown s = true → button_disabled s = false →
        ∃ g sel,
          gameState s = Some g ∧ selectedNodeId s = Some sel
          ∧ handleAddConnection_submit s
            = (setError None (setIsLoading true s),
               Some (mkRequest (GameState.game_id g) sel (trim (newWord s)), g)))
  ∧ (∀ s s' request g,
        handleAddConnection_submit s = (s', Some (request, g)) →
        form_shown s = true
        ∧ no_selection (selectedNodeId s) = false
        ∧ trim (newWord s) ≠ ""
        ∧ button_disabled s' = true ∧ input_disabled s' = true)
  ∧ (∀ (rnd : Random num) g response s,
        ∃ s', handleAddConnection_response rnd g response s = Some s'
              ∧ isLoading s' = false).
Proof.
  split; [apply enabled_button_sends|]. split.
  - intros s s' request g (Hg & Hactive & Hsel & Hne & Hword & _ & ->)%request_sent.
    unfold form_shown, active, button_disabled, input_disabled. rewrite Hg. simpl.
    rewrite Hsel. simpl. rewrite bool_decide_eq_false_2 by done.
    by rewrite !orb_true_r.
  - intros rnd g response s.
    destruct (handleAddConnection_response_is_Some rnd g response s) as [s' Hs'].
    exists s'. split; [done|].
    destruct response as [body|status detail|message]; simpl in Hs'.
    + destruct (assignPositionsToNodes _ _ _); [|done]. by injection Hs' as <-.
    + by injection Hs' as <-.
    + by injection Hs' as <-.
Qed.

(** *** White space *)

Lemma trim_start_clean l : starts_clean (trim_start l).
Proof.
  induction l as [|c l IH]; simpl; [done|].
  destruct (is_white_space c) eqn:Hc; [done|]. simpl. done.
Qed.

Lemma trim_start_id l : starts_clean l → trim_start l = l.
Proof. destruct l as [|c l]; simpl; [done|]. by intros ->. Qed.

Lemma trim_start_suffix l : trim_start l `suffix_of` l.
Proof.
  induction l as [|c l IH]; simpl; [done|].
  destruct (is_white_space c); [by apply suffix_cons_r|done].
Qed.

Lemma starts_clean_prefix (l1 l2 : list ascii) :
  l1 `prefix_of` l2 → starts_clean l2 → starts_clean l1.
Proof. intros [k ->]. by destruct l1. Qed.

(** The characters of a trimmed string: no white space in front, none at
    the end. *)
Lemma trim_clean (w : string) :
  starts_clean (list_ascii_of_string (trim w))
  ∧ starts_clean (rev (list_ascii_of_string (trim w))).
Proof.
  unfold trim. rewrite list_ascii_of_string_of_list_ascii, rev_involutive.
  split; [|apply trim_start_clean].
  eapply starts_clean_prefix; [|apply (trim_start_clean (list_ascii_of_string w))].
  destruct (trim_start_suffix (rev (trim_start (list_ascii_of_string w)))) as [k Hk].
  exists (rev k).
  rewrite <- (rev_involutive (trim_start (list_ascii_of_string w))) at 1.
  rewrite Hk at 1. by rewrite rev_app_distr.
Qed.

Lemma trim_idempotent (w : string) : trim (trim w) = trim w.
Proof.
  destruct (trim_clean w) as [Hfront Hback].
  unfold trim at 1. rewrite (trim_start_id _ Hfront), (trim_start_id _ Hback).
  by rewrite rev_involutive, string_of_list_ascii_of_string.
Qed.

(** X12.  The request that is sent names the game on the screen, which is
    active, and the selected node, and carries the typed word trimmed:
    a word that is not empty, has no white space in front or at the end
    (ASCII white space), and that trimming leaves as it is. *)
Theorem request_is_well_formed s s' (request : ConnectRequest) g :
  handleAddConnection_submit s = (s', Some (request, g)) →
  gameState s = Some g ∧ GameState.is_active g = true
  ∧ request_game_id request = GameState.game_id g
  ∧ selectedNodeId s = Some (parent_node_id request)
  ∧ parent_node_id request ≠ ""
  ∧ new_word request = trim (newWord s)
  ∧ new_word request ≠ ""
  ∧ trim (new_word request) = new_word request
  ∧ (∀ c rest, list_ascii_of_string (new_word request) = c :: rest →
        is_white_space c = false)
  ∧ (∀ c front, list_ascii_of_string (new_word request) = front ++ [c] →
        is_white_space c = false).
Proof.
  intros (Hg & Hactive & Hsel & Hne & Hword & Hrequest & _)%request_sent.
  assert (new_word request = trim (newWord s)) as Hnew by by rewrite Hrequest.
  assert (request_game_id request = GameState.game_id g) by by rewrite Hrequest.
  rewrite Hnew. destruct (trim_clean (newWord s)) as [Hfront Hback].
  repeat split; try done.
  - apply trim_idempotent.
  - intros c rest Heq. by rewrite Heq in Hfront.
  - intros c front Heq. by rewrite Heq, rev_app_distr in Hback.
Qed.

Lemma error_message_not_empty (status : Z) (detail : option string) :
  error_message status detail ≠ "".
Proof.
  unfold error_message. destruct detail as [d|]; [|done].
  case_bool_decide; done.
Qed.

(** X13.  A submission through the enabled button, with its answer.  The
    answer ends the loading and leaves the selection as it is.  An
    accepted word is taken out of the input field and the error is
    cleared, the screen shows the snapshot of the backend laid out
    with the positions of the previous one, and the button is disabled
    until a word is typed again.  After a rejection by the backend the
    typed word is still in the field and, unless the game has become
    inactive, the button is enabled for another try; the error shown is
    a message that is not empty: the detail of the backend, or the
    status.  A request that fails leaves the word and the game as they
    were and the button enabled. *)
Theorem submission_and_form (rnd : Random num) (response : Response) s :
  form_shown s = true → button_disabled s = false →
  ∃ g s',
    gameState s = Some g
    ∧ handleAddConnection rnd response s = Some s'
    ∧ isLoading s' = false
    ∧ selectedNodeId s' = selectedNodeId s
    ∧ match response with
      | ResponseOk body =>
          newWord s' = "" ∧ error s' = None ∧ button_disabled s' = true
          ∧ ∃ positionedNodes,
              assignPositionsToNodes rnd (BackendGameState.nodes body)
                (Some (GameState.nodes g)) = Some positionedNodes
              ∧ gameState s' = Some (GameState.of_backend body positionedNodes)
      | ResponseNotOk status detail =>
          newWord s' = newWord s
          ∧ error s' = Some (error_message status detail)
          ∧ error_message status detail ≠ ""
          ∧ (∀ d, detail = Some d → d ≠ "" → error_message status detail = d)
          ∧ (form_shown s' = true → button_disabled s' = false)
      | FetchThrew message =>
          newWord s' = newWord s ∧ error s' = Some message
          ∧ gameState s' = gameState s ∧ button_disabled s' = false
      end.
Proof.
  intros Hform Hbutton.
  destruct (enabled_button_sends s Hform Hbutton) as (g & sel & Hg & Hsel & Hsubmit).
  unfold button_disabled in Hbutton.
  apply orb_false_iff in Hbutton as [Hbutton Hloading].
  apply orb_false_iff in Hbutton as [Hselected Hword].
  exists g. unfold handleAddConnection. rewrite Hsubmit.
  destruct response as [body|status detail|message]; simpl.
  - destruct (assignPositionsToNodes_is_Some rnd (BackendGameState.nodes body)
                (Some (GameState.nodes g))) as [res Hres].
    rewrite Hres. eexists. split; [done|]. split; [reflexivity|]. simpl.
    split; [done|]. split; [done|]. split; [done|]. split; [done|]. split.
    { unfold button_disabled. simpl. by rewrite orb_true_r. }
    by exists res.
  - eexists. split; [done|]. split; [reflexivity|].
    split; [done|]. split; [by destruct (_ && _)|].
    split; [by destruct (_ && _)|]. split; [done|].
    split; [apply error_message_not_empty|]. split.
    { intros d -> Hd. unfold error_message. by rewrite bool_decide_eq_false_2. }
    intros _. unfold button_disabled.
    destruct (_ && _); simpl; by rewrite Hselected, Hword.
  - eexists. split; [done|]. split; [reflexivity|]. simpl.
    split; [done|]. split; [done|]. split; [done|]. split; [done|]. split; [done|].
    unfold button_disabled. simpl. by rewrite Hselected, Hword.
Qed.

End RenderFacts.

(** ** The extent of the drawing *)

Section ViewBoxFacts.
Local Open Scope R_scope.

Lemma Math_max_bound (xs : list R) (c : R) : c <= Math_max xs c.
Proof.
  induction xs as [|x xs IH]; simpl; [lra|].
  pose proof (Rmax_r x (Math_max xs c)). unfold Math_max in *. lra.
Qed.

Lemma Math_max_ge (xs : list R) (c x : R) : x ∈ xs → x <= Math_max xs c.
Proof.
  induction xs as [|x' xs IH]; intros Hx; [by apply elem_of_nil in Hx|].
  apply elem_of_cons in Hx as [->|Hx]; simpl.
  - apply Rmax_l.
  - pose proof (Rmax_r x' (Math_max xs c)). apply IH in Hx. unfold Math_max in *. lra.
Qed.

Lemma Math_min_bound (xs : list R) (c : R) : Math_min xs c <= c.
Proof.
  induction xs as [|x xs IH]; simpl; [lra|].
  pose proof (Rmin_r x (Math_min xs c)). unfold Math_min in *. lra.
Qed.

Lemma Math_min_le (xs : list R) (c x : R) : x ∈ xs → Math_min xs c <= x.
Proof.
  induction xs as [|x' xs IH]; intros Hx; [by apply elem_of_nil in Hx|].
  apply elem_of_cons in Hx as [->|Hx]; simpl.
  - apply Rmin_l.
  - pose proof (Rmin_r x' (Math_min xs c)). apply IH in Hx. unfold Math_min in *. lra.
Qed.

Lemma viewBox_contains (nodes : list (WordNode.t R)) (w : WordNode.t R) :
  let v := renderMindMap_viewBox nodes in
  w ∈ nodes →
  minX v + 50 <= WordNode.x w <= minX v + viewWidth v - 50
  ∧ minY v + 50 <= WordNode.y w <= minY v + viewHeight v - 50.
Proof.
  intros v Hw. subst v. unfold renderMindMap_viewBox. cbn [minX minY viewWidth viewHeight].
  assert (WordNode.x w ∈ WordNode.x <$> nodes) as Hx by (apply list_elem_of_fmap; eauto).
  assert (WordNode.y w ∈ WordNode.y <$> nodes) as Hy by (apply list_elem_of_fmap; eauto).
  pose proof (Math_max_ge _ (NODE_AREA_WIDTH (H := RealNumber)) _ Hx).
  pose proof (Math_min_le _ 0 _ Hx).
  pose proof (Math_max_ge _ (NODE_AREA_HEIGHT (H := RealNumber)) _ Hy).
  pose proof (Math_min_le _ 0 _ Hy).
  match goal with |- context [Rmax ?a ?b] => pose proof (Rmax_l a b) end.
  match goal with |- context [Rmax (?a - ?c) ?b] =>
    lazymatch a with context [NODE_AREA_HEIGHT] => pose proof (Rmax_l (a - c) b) end end.
  lra.
Qed.

Lemma viewBox_size (nodes : list (WordNode.t R)) :
  let v := renderMindMap_viewBox nodes in
  600 <= viewWidth v ∧ 500 <= viewHeight v
  ∧ minX v <= -50 ∧ minY v <= -50
  ∧ 550 <= minX v + viewWidth v ∧ 450 <= minY v + viewHeight v.
Proof.
  intros v. subst v. unfold renderMindMap_viewBox. cbn [minX minY viewWidth viewHeight].
  pose proof (Math_max_bound (WordNode.x <$> nodes) (NODE_AREA_WIDTH (H := RealNumber))).
  pose proof (Math_min_bound (WordNode.x <$> nodes) 0).
  pose proof (Math_max_bound (WordNode.y <$> nodes) (NODE_AREA_HEIGHT (H := RealNumber))).
  pose proof (Math_min_bound (WordNode.y <$> nodes) 0).
  repeat match goal with |- context [Rmax ?a ?b] =>
    lazymatch goal with
    | _ : a <= Rmax a b |- _ => fail
    | _ => pose proof (Rmax_l a b); pose proof (Rmax_r a b)
    end end.
  unfold NODE_AREA_WIDTH, NODE_AREA_HEIGHT in *. cbn [of_Z RealNumber] in *.
  repeat split; lra.
Qed.


End ViewBoxFacts.

(** ** The text of the clocks *)

Lemma length_append (s1 s2 : string) :
  String.length (s1 +:+ s2) = String.length s1 + String.length s2.
Proof. induction s1 as [|c s1 IH]; simpl; [done|]. by rewrite IH. Qed.

Lemma append_inj (s1 s2 t1 t2 : string) :
  String.length t1 = String.length t2 → s1 +:+ t1 = s2 +:+ t2 → s1 = s2 ∧ t1 = t2.
Proof.
  intros Hlen Heq.
  assert (String.length s1 = String.length s2) as Hlen'.
  { apply (f_equal String.length) in Heq. rewrite !length_append in Heq. lia. }
  clear Hlen. revert s2 Heq Hlen'.
  induction s1 as [|c s1 IH]; intros [|c' s2] Heq Hlen'; simplify_eq/=; [done|].
  destruct (IH s2) as [-> ->]; done.
Qed.

(** A number under 100 padded to two characters: its two digits. *)
Lemma two_digits (r : nat) :
  r < 100 →
  ∃ a b da db,
    padStart 2 "0" (pretty (Z.of_nat r)) = String a (String b "")
    ∧ Ascii.is_nat a = Some da ∧ Ascii.is_nat b = Some db ∧ r = 10 * da + db.
Proof.
  intros Hr.
  do 100 (destruct r as [|r];
          [eexists _, _, _, _; split; [vm_compute; reflexivity|];
           split; [reflexivity|]; split; reflexivity|]).
  lia.
Qed.

Lemma seconds_text (t : Z) :
  (0 ≤ t)%Z →
  ∃ a b da db,
    padStart 2 "0" (pretty (Z.rem t 60)) = String a (String b "")
    ∧ Ascii.is_nat a = Some da ∧ Ascii.is_nat b = Some db
    ∧ 10 * da + db < 60 ∧ t = (60 * (t / 60) + Z.of_nat (10 * da + db))%Z.
Proof.
  intros Ht. rewrite Z.rem_mod_nonneg by lia.
  pose proof (Z.mod_pos_bound t 60 ltac:(lia)) as Hmod.
  destruct (two_digits (Z.to_nat (t mod 60))) as (a & b & da & db & Htext & Ha & Hb & Hr);
    [lia|].
  rewrite Z2Nat.id in Htext by lia.
  exists a, b, da, db. split; [done|]. split; [done|]. split; [done|].
  split; [lia|]. rewrite <- Hr, Z2Nat.id by lia. apply Z.div_mod. lia.
Qed.

Lemma timer_text_shape (t : Z) :
  (0 ≤ t)%Z →
  ∃ a b da db,
    timer_text t = pretty (t / 60)%Z +:+ ":" +:+ String a (String b "")
    ∧ Ascii.is_nat a = Some da ∧ Ascii.is_nat b = Some db
    ∧ 10 * da + db < 60 ∧ t = (60 * (t / 60) + Z.of_nat (10 * da + db))%Z.
Proof.
  intros Ht. destruct (seconds_text t Ht) as (a & b & da & db & Htext & ?).
  exists a, b, da, db. unfold timer_text. by rewrite Htext.
Qed.

Lemma timer_text_inj (t t' : Z) :
  (0 ≤ t)%Z → (0 ≤ t')%Z → timer_text t = timer_text t' → t = t'.
Proof.
  intros Ht Ht' Heq.
  destruct (timer_text_shape t Ht) as (a & b & da & db & Htext & Ha & Hb & _ & Hval).
  destruct (timer_text_shape t' Ht') as (a' & b' & da' & db' & Htext' & Ha' & Hb' & _ & Hval').
  rewrite Htext, Htext' in Heq.
  apply append_inj in Heq as [Hm Hs]; [|done].
  apply (inj pretty) in Hm. simplify_eq/=. lia.
Qed.

(** X14.  The text of the clock of the game screen, for a number of seconds
    that is not negative: the minutes, a colon, and the seconds in
    exactly two digits, which are under 60 and with the minutes make up
    the number.  The text tells the number: two different numbers of
    seconds are never shown by the same text. *)
Theorem timer_text_minutes_and_seconds :
  (∀ t : Z, (0 ≤ t)%Z →
     ∃ a b da db,
       timer_text t = pretty (t / 60)%Z +:+ ":" +:+ String a (String b "")
       ∧ Ascii.is_nat a = Some da ∧ Ascii.is_nat b = Some db
       ∧ 10 * da + db < 60 ∧ t = (60 * (t / 60) + Z.of_nat (10 * da + db))%Z)
  ∧ (∀ t t' : Z, (0 ≤ t)%Z → (0 ≤ t')%Z → timer_text t = timer_text t' → t = t').
Proof. split; [apply timer_text_shape|apply timer_text_inj]. Qed.

Lemma formattedTime_shape (t : Z) :
  (0 ≤ t < 6000)%Z →
  ∃ m1 m0 s1 s0 dm1 dm0 ds1 ds0,
    Timer.formattedTime t
    = String m1 (String m0 (String ":" (String s1 (String s0 ""))))
    ∧ Ascii.is_nat m1 = Some dm1 ∧ Ascii.is_nat m0 = Some dm0
    ∧ Ascii.is_nat s1 = Some ds1 ∧ Ascii.is_nat s0 = Some ds0
    ∧ 10 * ds1 + ds0 < 60
    ∧ t = Z.of_nat (60 * (10 * dm1 + dm0) + (10 * ds1 + ds0)).
Proof.
  intros Ht.
  destruct (seconds_text t) as (s1 & s0 & ds1 & ds0 & Hs & Hs1 & Hs0 & Hlt & Hval); [lia|].
  assert (0 ≤ t / 60 < 100)%Z as Hm.
  { split; [apply Z.div_pos; lia|apply Z.div_lt_upper_bound; lia]. }
  destruct (two_digits (Z.to_nat (t / 60))) as (m1 & m0 & dm1 & dm0 & Hmt & Hm1 & Hm0 & Hmv);
    [lia|].
  rewrite Z2Nat.id in Hmt by lia.
  exists m1, m0, s1, s0, dm1, dm0, ds1, ds0.
  unfold Timer.formattedTime. rewrite Hs, Hmt.
  split; [done|]. repeat (split; [done|]). lia.
Qed.

Lemma formattedTime_inj (t t' : Z) :
  (0 ≤ t < 6000)%Z → (0 ≤ t' < 6000)%Z →
  Timer.formattedTime t = Timer.formattedTime t' → t = t'.
Proof.
  intros Ht Ht' Heq.
  destruct (formattedTime_shape t Ht)
    as (m1 & m0 & s1 & s0 & dm1 & dm0 & ds1 & ds0 & Htext & ? & ? & ? & ? & _ & ->).
  destruct (formattedTime_shape t' Ht')
    as (m1' & m0' & s1' & s0' & dm1' & dm0' & ds1' & ds0' & Htext' & ? & ? & ? & ? & _ & ->).
  rewrite Htext, Htext' in Heq. by simplify_eq/=.
Qed.

(** X20.  The text of the component [Timer] for a number of seconds from 0 to
    99 minutes 59 seconds: exactly two digits of minutes, a colon and
    two digits of seconds under 60, which make up the number; so two
    different numbers of seconds are never shown by the same text. *)
Theorem formattedTime_is_MM_SS :
  (∀ t : Z, (0 ≤ t < 6000)%Z →
     ∃ m1 m0 s1 s0 dm1 dm0 ds1 ds0,
       Timer.formattedTime t
       = String m1 (String m0 (String ":" (String s1 (String s0 ""))))
       ∧ Ascii.is_nat m1 = Some dm1 ∧ Ascii.is_nat m0 = Some dm0
       ∧ Ascii.is_nat s1 = Some ds1 ∧ Ascii.is_nat s0 = Some ds0
       ∧ 10 * ds1 + ds0 < 60
       ∧ t = Z.of_nat (60 * (10 * dm1 + dm0) + (10 * ds1 + ds0)))
  ∧ (∀ t t' : Z, (0 ≤ t < 6000)%Z → (0 ≤ t' < 6000)%Z →
       Timer.formattedTime t = Timer.formattedTime t' → t = t').
Proof. split; [apply formattedTime_shape|apply formattedTime_inj]. Qed.

(** ** The header of the game screen *)

Section HeaderFacts.
Context {num : Type} `{Number num}.
Implicit Types (s : GameScreen num) (g : GameState.t num).

Lemma Math_round_nonneg (q : Q) : (0 <= q)%Q → (0 ≤ Math_round q)%Z.
Proof.
  intros Hq. unfold Math_round.
  change 0%Z with (Qfloor 0). apply Qfloor_resp_le. lra.
Qed.

(** X15.  The clock after a run of the timer on a session that is running.
    The number of seconds left is the remaining time rounded, never
    negative.  While time remains the header shows it as a text, and
    not [Game Over]; when none remains the same update takes the clock
    out of the header and puts [Game Over] there. *)
Theorem header_after_tick (now : Q) s g :
  gameState s = Some g → timer_off g = false →
  timeLeft (timer now s) = Some (Math_round (remaining g now))
  ∧ (0 ≤ Math_round (remaining g now))%Z
  ∧ ((0 < remaining g now)%Q →
       header_timer (timer now s) = Some (timer_text (Math_round (remaining g now)))
       ∧ header_game_over (timer now s) = false)
  ∧ ((remaining g now <= 0)%Q →
       header_timer (timer now s) = None
       ∧ header_game_over (timer now s) = true).
Proof.
  intros Hg Hoff. destruct (timer_off_false g Hoff) as (Hactive & _).
  unfold timer. rewrite Hg, Hoff. unfold calculateTimeLeft. rewrite Hactive, andb_true_r.
  split; [by destruct (Qle_bool _ _)|].
  split; [apply Math_round_nonneg, Q.le_max_l|]. split.
  - intros Hpos. destruct (Qle_bool (remaining g now) 0) eqn:Hle.
    { apply Qle_bool_iff in Hle. lra. }
    unfold header_timer, header_game_over, active. simpl. by rewrite Hg, Hactive.
  - intros Hzero. apply Qle_bool_iff in Hzero. rewrite Hzero.
    unfold header_timer, header_game_over, active. simpl. by rewrite Hg.
Qed.

End HeaderFacts.

(** ** The board over a game *)

Section BoardFacts.
Context {num : Type} `{Number num}.
Implicit Types (b : Gameboard num) (c : AddNode num).

Lemma add_node_accepted b c :
  accepted c = true →
  ∃ px py,
    add_node b c
    = mkBoard
        (nodes b ++ [FlowNode.mk (getNodeId (idCounter b + 1)) (call_label c) px py
                       "mindMapNode"])
        (edges b ++ [FlowEdge.mk
                       ("edge_" +:+ call_parent c +:+ "-" +:+ getNodeId (idCounter b + 1))
                       (call_parent c) (getNodeId (idCounter b + 1))])
        (idCounter b + 1) (moves b + 1).
Proof.
  unfold accepted, add_node, handleAddNode. intros ->.
  destruct (match find _ (nodes b) with Some _ => _ | None => _ end) as [px py].
  by exists px, py.
Qed.

Lemma add_node_refused b c : accepted c = false → add_node b c = b.
Proof. unfold accepted, add_node, handleAddNode. by intros ->. Qed.

Lemma fresh_ids_shift (counter : Z) (start n : nat) :
  (λ j, getNodeId (counter + 1 + Z.of_nat j)) <$> seq start n
  = (λ j, getNodeId (counter + Z.of_nat j)) <$> seq (S start) n.
Proof.
  revert start. induction n as [|n IH]; intros start; simpl; [done|].
  rewrite IH. do 2 f_equal. lia.
Qed.

(** The board after a sequence of calls, from the board before. *)
Lemma add_nodes_spec (calls : list (AddNode num)) b :
  let kept := filter (λ c, accepted c) calls in
  let fresh := (λ j, getNodeId (idCounter b + Z.of_nat j)) <$> seq 1 (length kept) in
  FlowNode.id <$> nodes (add_nodes calls b) = (FlowNode.id <$> nodes b) ++ fresh
  ∧ FlowNode.label <$> nodes (add_nodes calls b)
    = (FlowNode.label <$> nodes b) ++ (call_label <$> kept)
  ∧ FlowEdge.target <$> edges (add_nodes calls b) = (FlowEdge.target <$> edges b) ++ fresh
  ∧ FlowEdge.source <$> edges (add_nodes calls b)
    = (FlowEdge.source <$> edges b) ++ (call_parent <$> kept)
  ∧ idCounter (add_nodes calls b) = (idCounter b + Z.of_nat (length kept))%Z
  ∧ moves (add_nodes calls b) = (moves b + Z.of_nat (length kept))%Z.
Proof.
  revert b. induction calls as [|c calls IH]; intros b; simpl.
  { rewrite !app_nil_r, !Z.add_0_r. done. }
  rewrite filter_cons. destruct (accepted c) eqn:Hc.
  - destruct (add_node_accepted b c Hc) as (px & py & Hb).
    simpl. unfold add_nodes in *. simpl.
    destruct (IH (add_node b c)) as (Hids & Hlabels & Htargets & Hsources & Hcounter & Hmoves).
    rewrite Hids, Hlabels, Htargets, Hsources, Hcounter, Hmoves, Hb. simpl.
    rewrite !fmap_app, <- !app_assoc, fresh_ids_shift. simpl.
    repeat split; try done; lia.
  - simpl. unfold add_nodes in *. simpl.
    rewrite (add_node_refused b c Hc). apply IH.
Qed.

Lemma getNodeId_inj (i j : Z) : getNodeId i = getNodeId j → i = j.
Proof. unfold getNodeId. intros Heq. simplify_eq/=. by apply (inj pretty). Qed.

Lemma fresh_ids_NoDup (n : nat) :
  NoDup ("StartNode" :: ((λ j, getNodeId (0 + Z.of_nat j)) <$> seq 1 n)).
Proof.
  apply NoDup_cons. split.
  - intros (j & Hj & _)%list_elem_of_fmap. unfold getNodeId in Hj. by simplify_eq/=.
  - apply NoDup_fmap_2; [|apply NoDup_seq].
    intros i j Hij%getNodeId_inj. lia.
Qed.

(** X16.  The board of a game: after the reset for a start word and any
    sequence of calls of [handleAddNode], of which [k] are accepted.
    The nodes are the start node and one node per accepted call, in
    their order, with the labels of these calls and the identifiers
    [node_1] to [node_k], all distinct; there is one edge per accepted
    call, from the parent named in the call to the node of the call, so
    every node but the start node is the target of exactly one edge; and
    the count of moves has grown by [k].  A call that is not accepted
    changes nothing. *)
Theorem board_of_a_game (startWord : string) (calls : list (AddNode num)) b :
  let kept := filter (λ c, accepted c) calls in
  let k := length kept in
  let board := add_nodes calls (reset_board startWord b) in
  let fresh := (λ j, getNodeId (Z.of_nat j)) <$> seq 1 k in
  FlowNode.id <$> nodes board = "StartNode" :: fresh
  ∧ NoDup (FlowNode.id <$> nodes board)
  ∧ FlowNode.label <$> nodes board
    = (if bool_decide (startWord = "") then "Start" else startWord) :: (call_label <$> kept)
  ∧ FlowEdge.target <$> edges board = fresh
  ∧ FlowEdge.source <$> edges board = call_parent <$> kept
  ∧ idCounter board = Z.of_nat k
  ∧ moves board = (moves b + Z.of_nat k)%Z.
Proof.
  intros kept k board fresh. subst kept k board fresh.
  destruct (add_nodes_spec calls (reset_board startWord b))
    as (Hids & Hlabels & Htargets & Hsources & Hcounter & Hmoves).
  simpl in *. rewrite Hids, Hlabels, Htargets, Hsources, Hcounter, Hmoves.
  repeat split; try done. apply fresh_ids_NoDup.
Qed.

End BoardFacts.

Section RealBoard.
Local Existing Instance RealNumber.
Local Open Scope R_scope.

(** X17.  Where [handleAddNode] puts the node of an accepted call, with
    numbers read as real numbers and the draws of [Math.random] in
    [[0, 1)].  When the parent is on the board, the node is below it by
    at least 100 and less than 150, and less than 200 away from it
    horizontally to the right, at most 200 to the left.  When no node has
    the identifier given as the parent, the node is put at [(100, 100)],
    and the edge from that identifier is added all the same. *)
Theorem new_node_position (onNodeAdded : string → string → bool) (rnd : Random R)
    (newNodeLabel parentNodeId : string) (b : Gameboard R) :
  onNodeAdded newNodeLabel parentNodeId = true →
  ∃ newNode newEdge,
    nodes (handleAddNode onNodeAdded rnd newNodeLabel parentNodeId b) = nodes b ++ [newNode]
    ∧ edges (handleAddNode onNodeAdded rnd newNodeLabel parentNodeId b) = edges b ++ [newEdge]
    ∧ FlowNode.label newNode = newNodeLabel
    ∧ FlowEdge.source newEdge = parentNodeId
    ∧ FlowEdge.target newEdge = FlowNode.id newNode
    ∧ (∀ parentNode,
         find (λ n, bool_decide (FlowNode.id n = parentNodeId)) (nodes b) = Some parentNode →
         0 <= rnd 0%nat < 1 → 0 <= rnd 1%nat < 1 →
         FlowNode.position_x parentNode - 200 <= FlowNode.position_x newNode
           < FlowNode.position_x parentNode + 200
         ∧ FlowNode.position_y parentNode + 100 <= FlowNode.position_y newNode
           < FlowNode.position_y parentNode + 150)
    ∧ (parentNodeId ∉ FlowNode.id <$> nodes b →
         FlowNode.position_x newNode = 100 ∧ FlowNode.position_y newNode = 100).
Proof.
  intros Hvalid. unfold handleAddNode. rewrite Hvalid.
  destruct (find (λ n, bool_decide (FlowNode.id n = parentNodeId)) (nodes b))
    as [parentNode|] eqn:Hfind; simpl.
  - eexists _, _. split; [reflexivity|]. split; [reflexivity|]. simpl.
    split; [done|]. split; [done|]. split; [done|]. split.
    + intros ? [= <-] [? ?] [? ?]. lra.
    + intros Hnot. exfalso. apply Hnot.
      apply find_some in Hfind as [Hin Hid%bool_decide_eq_true].
      apply list_elem_of_fmap. exists parentNode. split; [done|]. by apply list_elem_of_In.
  - eexists _, _. split; [reflexivity|]. split; [reflexivity|]. simpl.
    split; [done|]. split; [done|]. split; [done|]. split; [done|]. done.
Qed.

End RealBoard.

(** ** The component [InputForm] on the board *)

Section InputFormFacts.
Context {num : Type} `{Number num}.

(** X18.  [handleSubmit] with [handleAddNode] as its [onAddNode].  With no
    selection, or with an input that is empty once trimmed, nothing
    happens: the board and the input stay as they are.  Otherwise
    [handleAddNode] is called once, with the trimmed input as the label,
    which is not empty, and the input field is emptied, also when the
    connection is not accepted and the board stays as it is. *)
Theorem input_form_on_the_board (onNodeAdded : string → string → bool) (rnd : Random num)
    (selectedNodeId : option string) (inputValue : string) (b : Gameboard num) :
  let after :=
    InputForm_handleSubmit (handleAddNode onNodeAdded rnd) selectedNodeId inputValue b in
  (trim inputValue = "" ∨ no_selection selectedNodeId = true → after = (inputValue, b))
  ∧ (∀ parentNodeId,
       selectedNodeId = Some parentNodeId → parentNodeId ≠ "" → trim inputValue ≠ "" →
       after = ("", handleAddNode onNodeAdded rnd (trim inputValue) parentNodeId b)
       ∧ (onNodeAdded (trim inputValue) parentNodeId = false → after.2 = b)
       ∧ (onNodeAdded (trim inputValue) parentNodeId = true →
          FlowNode.label <$> nodes after.2
          = (FlowNode.label <$> nodes b) ++ [trim inputValue]
          ∧ FlowEdge.source <$> edges after.2
            = (FlowEdge.source <$> edges b) ++ [parentNodeId]
          ∧ moves after.2 = (moves b + 1)%Z)).
Proof.
  intros after. subst after. unfold InputForm_handleSubmit. split.
  - intros [Hblank|Hsel].
    + destruct selectedNodeId; [|done]. by rewrite Hblank.
    + destruct selectedNodeId as [sel|]; [|done]. simpl in Hsel.
      by rewrite Hsel, orb_true_r.
  - intros parentNodeId -> Hparent Hword.
    rewrite !bool_decide_eq_false_2 by done. simpl. split; [done|].
    unfold handleAddNode. split; [by intros ->|]. intros ->.
    destruct (match find _ (nodes b) with Some _ => _ | None => _ end) as [px py].
    simpl. by rewrite !fmap_app.
Qed.

End InputFormFacts.

(** ** The component [Timer] *)

Lemma Timer_second_running (t : Q) :
  (0 <= t)%Q → (Timer.second true t == Qmax 0 (t - 1))%Q ∧ (0 <= Timer.second true t)%Q.
Proof.
  intros Ht. unfold Timer.second, Timer.effect, Timer.interval. simpl.
  destruct (Qle_bool t 0) eqn:H0; simpl.
  - apply Qle_bool_iff in H0. split; [|done].
    rewrite Q.max_l; lra.
  - destruct (Qle_bool (t - 1) 0) eqn:H1; simpl.
    + apply Qle_bool_iff in H1. split; [|done]. rewrite Q.max_l; lra.
    + assert (¬ (t - 1 <= 0)%Q) by (rewrite <- Qle_bool_iff; congruence).
      split; [|lra]. rewrite Q.max_r; lra.
Qed.

Lemma Timer_seconds_running (n : nat) (t : Q) :
  (0 <= t)%Q → (Timer.seconds n true t == Qmax 0 (t - inject_Z (Z.of_nat n)))%Q.
Proof.
  revert t. induction n as [|n IH]; intros t Ht.
  - cbn [Timer.seconds]. change (inject_Z (Z.of_nat 0)) with 0%Q. rewrite Q.max_r; lra.
  - destruct (Timer_second_running t Ht) as [Hsecond Hpos].
    cbn [Timer.seconds]. rewrite (IH _ Hpos).
    rewrite Nat2Z.inj_succ, <- Z.add_1_r, inject_Z_plus.
    destruct (Q.max_spec 0 (t - 1)) as [[? Hmax]|[? Hmax]]; rewrite Hmax in Hsecond;
      destruct (Q.max_spec 0 (Timer.second true t - inject_Z (Z.of_nat n)))
        as [[? ->]|[? ->]];
      destruct (Q.max_spec 0 (t - (inject_Z (Z.of_nat n) + inject_Z 1)))
        as [[? ->]|[? ->]];
      assert (0 <= inject_Z (Z.of_nat n))%Q
        by (rewrite <- (Zle_Qle 0); lia);
      change (inject_Z 1) with 1%Q in *; lra.
Qed.

Lemma Timer_seconds_stopped (n : nat) (isRunning : bool) (t : Q) :
  isRunning = false ∨ (t <= 0)%Q → Timer.seconds n isRunning t = t.
Proof.
  intros Hstop. induction n as [|n IH]; simpl; [done|].
  assert (Timer.second isRunning t = t) as ->; [|done].
  unfold Timer.second, Timer.effect.
  destruct Hstop as [->|Hle%Qle_bool_iff]; [done|]. by rewrite Hle, orb_true_r.
Qed.

(** X19.  The count-down of the component [Timer].  While it runs, a count
    that is not negative goes down by one each second and stops at 0:
    after [n] seconds it is the maximum of 0 and the count less [n], so
    it is never negative.  While it does not run, or when it is mounted
    with a count of 0 or less, the count stays as it is.  The interval
    calls [onTimeUp] exactly at the ticks that bring the count to 0, and
    the effect calls it when it runs with a count of 0 or less while the
    timer runs. *)
Theorem Timer_counts_down_to_zero :
  (∀ (n : nat) (t : Q), (0 <= t)%Q →
     (Timer.seconds n true t == Qmax 0 (t - inject_Z (Z.of_nat n)))%Q)
  ∧ (∀ (n : nat) (isRunning : bool) (t : Q),
       isRunning = false ∨ (t <= 0)%Q → Timer.seconds n isRunning t = t)
  ∧ (∀ t : Q, snd (Timer.interval t) = true ↔ (t <= 1)%Q)
  ∧ (∀ t : Q, snd (Timer.interval t) = true → fst (Timer.interval t) = 0%Q)
  ∧ (∀ (isRunning : bool) (t : Q),
       fst (Timer.effect isRunning t) = true ↔ isRunning = true ∧ (t <= 0)%Q).
Proof.
  split; [apply Timer_seconds_running|]. split; [apply Timer_seconds_stopped|].
  split; [|split].
  - intros t. unfold Timer.interval.
    destruct (Qle_bool (t - 1) 0) eqn:Hle; simpl.
    + apply Qle_bool_iff in Hle. split; [lra|done].
    + split; [done|]. intros Ht. assert (Qle_bool (t - 1) 0 = true); [|congruence].
      apply Qle_bool_iff. lra.
  - intros t. unfold Timer.interval. by destruct (Qle_bool (t - 1) 0).
  - intros isRunning t. unfold Timer.effect. rewrite <- Qle_bool_iff.
    destruct isRunning, (Qle_bool t 0); simpl; intuition congruence.
Qed.

(** ** The further theorems at work *)

Section CoverageExamples.
Local Existing Instance RealNumber.
Local Open Scope R_scope.

Lemma layout_keys_are_node_ids_witness :
  ∃ res,
    assignPositionsToNodes (λ _, 0) with_proto (Some grown_before) = Some res
    ∧ dom (own_properties res)
      = list_to_set (ids (Object_values with_proto)) ∖ {["__proto__"]}
    ∧ ∀ i w, res !! i = Some w →
        WordNode.id w = i
        ∧ ∃ c, c ∈ Object_values with_proto
               ∧ BackendWordNode.id c = i
               ∧ WordNode.word w = BackendWordNode.word c
               ∧ WordNode.parent_id w = BackendWordNode.parent_id c.
Proof.
  assert (∃ res, assignPositionsToNodes (λ _, 0) with_proto (Some grown_before) = Some res)
    as [res Hres] by (eexists; vm_compute; reflexivity).
  exists res. split; [exact Hres|].
  apply (layout_keys_are_node_ids (λ _, 0) with_proto (Some grown_before) res). exact Hres.
Defined.

(** [tide] had a position and is not sent any more: it is not in the
    result. *)
Example stale_position_dropped :
  ∃ res,
    assignPositionsToNodes (λ _, 0) two_nodes (Some grown_before) = Some res
    ∧ res !! "tide" = None ∧ grown_before !! "tide" ≠ None.
Proof. eexists. split; [vm_compute; reflexivity|]. split; [reflexivity|]. vm_compute. discriminate. Qed.

Lemma traversal_visits_the_reachable_once_witness :
  NoDup (nodeId <$> layout_queue None with_orphan)
  ∧ ∀ i, i ∈ nodeId <$> layout_queue None with_orphan
         ↔ Reachable (Object_values with_orphan) "ocean" i.
Proof.
  apply (traversal_visits_the_reachable_once (H := RealNumber) None with_orphan ocean).
  reflexivity.
Defined.

Lemma traversal_is_breadth_first_witness :
  layout_queue None chain !! 0%nat = Some (mkItem "ocean" rootX rootY 0)
  ∧ (∀ j j' a b, (j ≤ j')%nat → layout_queue None chain !! j = Some a →
       layout_queue None chain !! j' = Some b → (depth a ≤ depth b)%nat)
  ∧ (∀ j b, layout_queue None chain !! j = Some b → (0 < j)%nat →
       ∃ j0 a c, (j0 < j)%nat ∧ layout_queue None chain !! j0 = Some a
                 ∧ c ∈ Object_values chain
                 ∧ BackendWordNode.id c = nodeId b
                 ∧ BackendWordNode.parent_id c = Some (nodeId a)
                 ∧ depth b = (depth a + 1)%nat).
Proof.
  apply (traversal_is_breadth_first (H := RealNumber) None chain ocean).
  reflexivity.
Defined.

Lemma rootless_nodes_in_a_row_witness :
  ∃ res,
    assignPositionsToNodes (λ _, 0) rootless None = Some res
    ∧ ∀ k n, Object_values rootless !! k = Some n →
        res !! BackendWordNode.id n = Some (keep_or_place None n (row_x k) 50).
Proof.
  apply (rootless_nodes_in_a_row (H := RealNumber) (λ _, 0) rootless None).
  - reflexivity.
  - distinct_ids.
Defined.

Lemma layout_idempotent_witness :
  ∃ res,
    assignPositionsToNodes (λ _, 0) with_orphan None = Some res
    ∧ assignPositionsToNodes (λ _, 1 / 2) with_orphan (Some res) = Some res.
Proof.
  assert (∃ res, assignPositionsToNodes (λ _, 0) with_orphan None = Some res)
    as [res Hres] by (eexists; vm_compute; reflexivity).
  exists res. split; [exact Hres|].
  apply (layout_idempotent (H := RealNumber) (λ _, 0) (λ _, 1 / 2) with_orphan None res).
  - distinct_ids.
  - exact Hres.
Defined.

Lemma children_fan_out_below_parent_witness :
  ∃ res w0 w1 w2 w3,
    assignPositionsToNodes (λ _, 0) fan None = Some res
    ∧ res !! "ocean" = Some w0 ∧ res !! "wave" = Some w1
    ∧ res !! "tide" = Some w2 ∧ res !! "surf" = Some w3
    ∧ WordNode.y w0 < WordNode.y w2 <= WordNode.y w0 + 75
    ∧ WordNode.x w3 < WordNode.x w2 < WordNode.x w1.
Proof.
  destruct (children_fan_out_below_parent (λ _, 0) fan ocean "ocean")
    as (res & w0 & item & Hres & Hw0 & _ & _ & Hbelow & Horder).
  - distinct_ids.
  - reflexivity.
  - reflexivity.
  - apply Reachable_root.
  - destruct (Hbelow 0%nat wave) as (w1 & Hw1 & _); [reflexivity|].
    destruct (Hbelow 1%nat tide) as (w2 & Hw2 & Hy2 & _); [reflexivity|].
    destruct (Hbelow 2%nat surf) as (w3 & Hw3 & _); [reflexivity|].
    exists res, w0, w1, w2, w3.
    split; [exact Hres|]. split; [exact Hw0|]. split; [exact Hw1|].
    split; [exact Hw2|]. split; [exact Hw3|]. split; [exact Hy2|]. split.
    + apply (Horder 1%nat 2%nat tide surf w2 w3); [reflexivity|reflexivity|lia|exact Hw2|exact Hw3].
    + apply (Horder 0%nat 1%nat wave tide w1 w2); [reflexivity|reflexivity|lia|exact Hw1|exact Hw2].
Defined.

Lemma root_is_the_top_witness :
  ∃ res w,
    assignPositionsToNodes (λ _, 0) chain None = Some res
    ∧ res !! "foam" = Some w
    ∧ 50 <= WordNode.y w
    ∧ ("foam" ≠ "ocean" → 50 < WordNode.y w).
Proof.
  apply (root_is_the_top (λ _, 0) chain ocean "foam").
  - distinct_ids.
  - reflexivity.
  - reflexivity.
  - apply (Reachable_child _ _ "wave" foam); [|vm_compute; right; right; left|reflexivity].
    apply (Reachable_child _ _ "ocean" wave); [|vm_compute; right; left|reflexivity].
    apply Reachable_root.
Defined.

Lemma missed_node_inside_the_area_witness :
  ∃ res w,
    assignPositionsToNodes (λ _, 1 / 2) with_orphan None = Some res
    ∧ res !! "drift" = Some w
    ∧ 0 <= WordNode.x w < 500 ∧ 0 <= WordNode.y w < 400.
Proof.
  apply (missed_node_inside_the_area (λ _, 1 / 2) with_orphan None ocean drift).
  - distinct_ids.
  - reflexivity.
  - vm_compute. right. right. left.
  - intros Hdrift. inversion Hdrift as [|p c Hp Hc Hchild Hid]. vm_compute in Hc.
    repeat (apply elem_of_cons in Hc as [->|Hc]); try discriminate Hid;
      [|by apply elem_of_nil in Hc].
    injection Hchild as <-.
    inversion Hp as [|p' c' _ Hc' _ Hid']. vm_compute in Hc'.
    repeat (apply elem_of_cons in Hc' as [->|Hc']); try discriminate Hid'.
    by apply elem_of_nil in Hc'.
  - reflexivity.
  - intros k. lra.
Defined.

Lemma connections_are_drawn_witness :
  ∃ res,
    assignPositionsToNodes (λ _, 0) (BackendGameState.nodes wave_accepted) None = Some res
    ∧ Forall2 (λ connection l,
                 ∃ parentNode childNode,
                   res !! connection.1 = Some parentNode
                   ∧ res !! connection.2 = Some childNode
                   ∧ l = line_between connection.1 connection.2 parentNode childNode)
        [("ocean", "wave")]
        (renderMindMap_edges in_Object_prototype (GameState.of_backend wave_accepted res)).
Proof.
  assert (∃ res, assignPositionsToNodes (λ _, 0) (BackendGameState.nodes wave_accepted) None
                 = Some res) as [res Hres] by (eexists; vm_compute; reflexivity).
  exists res. split; [exact Hres|].
  destruct (connections_are_drawn (H := RealNumber) in_Object_prototype (λ _, 0)
              wave_accepted None res Hres) as [_ Hall].
  apply Hall.
  intros parentId childId Hin. vm_compute in Hin.
  apply list_elem_of_singleton in Hin. injection Hin as -> ->.
  split; vm_compute; [left|right; left].
Defined.

(** A connection to a node that the map does not have is not drawn,
    unless the key of the missing node is inherited: the connection to
    [toString] gives a line without coordinates at that end. *)
Example dangling_connections :
  renderMindMap_edges in_Object_prototype
    (GameState.mk "game-1" "puzzle_daily_free" "ocean" "sea" 60 (Some 1000%Q)
       ({["ocean" := WordNode.mk "ocean" "ocean" None 250 50]} : gmap string (WordNode.t R))
       [("ocean", "wave"); ("ocean", "toString")] 0 true)
  = [mkLine "ocean-toString" (Some 250) (Some (50 + 30)) None None].
Proof. vm_compute. reflexivity. Qed.

(** The entry of the node [__proto__] is the prototype of the map: the
    connection to it is drawn at its position. *)
Example connection_to_proto_drawn :
  ∃ res w,
    assignPositionsToNodes (λ _, 0) with_proto None = Some res
    ∧ res !! "__proto__" = Some w
    ∧ renderMindMap_edges in_Object_prototype
        (GameState.of_backend
           (BackendGameState.mk "game-1" "puzzle_daily_free" "ocean" "sea" 60 (Some 1000%Q)
              with_proto [("ocean", "__proto__")] 1 true) res)
      = [mkLine "ocean-__proto__" (Some (500 / 2)) (Some (50 + 30))
           (Some (WordNode.x w)) (Some (WordNode.y w - 30))].
Proof.
  eexists _, _. split; [vm_compute; reflexivity|]. split; [reflexivity|].
  vm_compute. reflexivity.
Qed.


Lemma form_agrees_with_gate_witness :
  ∃ g sel,
    gameState (ocean_screen true) = Some g ∧ selectedNodeId (ocean_screen true) = Some sel
    ∧ handleAddConnection_submit (ocean_screen true)
      = (setError None (setIsLoading true (ocean_screen true)),
         Some (mkRequest (GameState.game_id g) sel (trim (newWord (ocean_screen true))), g)).
Proof.
  destruct (form_agrees_with_gate (H := RealNumber)) as (Henabled & _).
  apply (Henabled (ocean_screen true)); reflexivity.
Defined.

Lemma request_is_well_formed_witness :
  new_word (mkRequest "game-1" "ocean" "wave") = trim (newWord padded_screen)
  ∧ trim (new_word (mkRequest "game-1" "ocean" "wave"))
    = new_word (mkRequest "game-1" "ocean" "wave").
Proof.
  destruct (request_is_well_formed padded_screen
              (setError None (setIsLoading true padded_screen))
              (mkRequest "game-1" "ocean" "wave") (ocean_game true))
    as (_ & _ & _ & _ & _ & Hword & _ & Htrimmed & _).
  - reflexivity.
  - split; [exact Hword|exact Htrimmed].
Defined.

Lemma submission_and_form_witness :
  ∃ g s',
    gameState (ocean_screen true) = Some g
    ∧ handleAddConnection (λ _, 0) (ResponseNotOk 400 (Some "Words are not related"))
        (ocean_screen true) = Some s'
    ∧ isLoading s' = false
    ∧ selectedNodeId s' = selectedNodeId (ocean_screen true)
    ∧ newWord s' = newWord (ocean_screen true)
    ∧ error s' = Some (error_message 400 (Some "Words are not related"))
    ∧ error_message 400 (Some "Words are not related") ≠ ""
    ∧ (∀ d, Some "Words are not related" = Some d → d ≠ "" →
            error_message 400 (Some "Words are not related") = d)
    ∧ (form_shown s' = true → button_disabled s' = false).
Proof.
  apply (submission_and_form (H := RealNumber) (λ _, 0)
           (ResponseNotOk 400 (Some "Words are not related")) (ocean_screen true));
    reflexivity.
Defined.

Lemma timer_text_minutes_and_seconds_witness :
  (∃ a b da db,
     timer_text 125 = pretty (125 / 60)%Z +:+ ":" +:+ String a (String b "")
     ∧ Ascii.is_nat a = Some da ∧ Ascii.is_nat b = Some db
     ∧ (10 * da + db < 60)%nat ∧ 125%Z = (60 * (125 / 60) + Z.of_nat (10 * da + db))%Z)
  ∧ 125%Z = 125%Z.
Proof.
  destruct timer_text_minutes_and_seconds as [Hshape Hinj].
  split.
  - apply (Hshape 125%Z). lia.
  - apply (Hinj 125%Z 125%Z); [lia|lia|reflexivity].
Defined.

Example clock_texts :
  timer_text 125 = "2:05" ∧ timer_text 9 = "0:09"
  ∧ Timer.formattedTime 125 = "02:05" ∧ Timer.formattedTime 6001 = "100:01".
Proof. repeat split; vm_compute; reflexivity. Qed.

Lemma header_after_tick_witness :
  timeLeft (timer 1030 (ocean_screen true))
  = Some (Math_round (remaining (ocean_game true) 1030))
  ∧ header_timer (timer 1030 (ocean_screen true))
    = Some (timer_text (Math_round (remaining (ocean_game true) 1030)))
  ∧ header_game_over (timer 1030 (ocean_screen true)) = false.
Proof.
  destruct (header_after_tick (H := RealNumber) 1030 (ocean_screen true) (ocean_game true))
    as (Hleft & _ & Hrunning & _).
  - reflexivity.
  - reflexivity.
  - split; [exact Hleft|]. apply Hrunning. vm_compute. reflexivity.
Defined.

Example header_of_the_session :
  header_timer (timer 1030 (ocean_screen true)) = Some "0:30"
  ∧ header_timer (timer 1061 (ocean_screen true)) = None
  ∧ header_game_over (timer 1061 (ocean_screen true)) = true.
Proof. repeat split; vm_compute; reflexivity. Qed.

(** The board after [three_calls]: two nodes added, two moves. *)
Example board_of_three_calls :
  FlowNode.id <$> nodes (add_nodes three_calls (reset_board "ocean" start_board))
  = ["StartNode"; "node_1"; "node_2"]
  ∧ FlowEdge.id <$> edges (add_nodes three_calls (reset_board "ocean" start_board))
    = ["edge_StartNode-node_1"; "edge_node_1-node_2"]
  ∧ moves (add_nodes three_calls (reset_board "ocean" start_board)) = 2%Z.
Proof. repeat split; vm_compute; reflexivity. Qed.

Lemma new_node_position_witness :
  ∃ newNode newEdge,
    nodes (handleAddNode (λ _ _, true) (λ _, 1 / 2) "wave" "StartNode" start_board)
    = nodes start_board ++ [newNode]
    ∧ edges (handleAddNode (λ _ _, true) (λ _, 1 / 2) "wave" "StartNode" start_board)
    = edges start_board ++ [newEdge]
    ∧ 250 - 200 <= FlowNode.position_x newNode < 250 + 200
    ∧ 5 + 100 <= FlowNode.position_y newNode < 5 + 150.
Proof.
  destruct (new_node_position (λ _ _, true) (λ _, 1 / 2) "wave" "StartNode" start_board)
    as (newNode & newEdge & Hnodes & Hedges & _ & _ & _ & Hbelow & _).
  - reflexivity.
  - exists newNode, newEdge. split; [exact Hnodes|]. split; [exact Hedges|].
    apply (Hbelow (FlowNode.mk "StartNode" "ocean" 250 5 "mindMapNode")).
    + reflexivity.
    + lra.
    + lra.
Defined.

Lemma input_form_on_the_board_witness :
  InputForm_handleSubmit (handleAddNode (λ _ _, false) (λ _, 1 / 2)) (Some "StartNode")
    "  wave " start_board
  = ("", handleAddNode (λ _ _, false) (λ _, 1 / 2) (trim "  wave ") "StartNode" start_board)
  ∧ (InputForm_handleSubmit (handleAddNode (λ _ _, false) (λ _, 1 / 2)) (Some "StartNode")
       "  wave " start_board).2 = start_board.
Proof.
  destruct (input_form_on_the_board (H := RealNumber) (λ _ _, false) (λ _, 1 / 2)
              (Some "StartNode") "  wave " start_board) as [_ Hcall].
  destruct (Hcall "StartNode") as (Hafter & Hrefused & _).
  - reflexivity.
  - discriminate.
  - vm_compute. discriminate.
  - split; [exact Hafter|]. apply Hrefused. reflexivity.
Defined.

Lemma Timer_counts_down_to_zero_witness :
  (Timer.seconds 3 true 5 == Qmax 0 (5 - inject_Z (Z.of_nat 3)))%Q
  ∧ Timer.seconds 3 false 5 = 5%Q
  ∧ (snd (Timer.interval 1) = true ↔ (1 <= 1)%Q).
Proof.
  destruct Timer_counts_down_to_zero as (Hrun & Hstop & Hup & _).
  split; [|split].
  - apply (Hrun 3%nat 5%Q). vm_compute. discriminate.
  - apply (Hstop 3%nat false 5%Q). left. reflexivity.
  - apply (Hup 1%Q).
Defined.

Example Timer_of_three_seconds :
  Timer.seconds 2 true 3 = 1%Q ∧ Timer.seconds 3 true 3 = 0%Q
  ∧ Timer.seconds 7 true 3 = 0%Q ∧ Timer.seconds 7 true (5 # 2) = 0%Q
  ∧ Timer.interval 1 = (0%Q, true) ∧ Timer.effect true 0 = (true, false).
Proof. repeat split; vm_compute; reflexivity. Qed.

Lemma formattedTime_is_MM_SS_witness :
  (∃ m1 m0 s1 s0 dm1 dm0 ds1 ds0,
     Timer.formattedTime 125
     = String m1 (String m0 (String ":" (String s1 (String s0 ""))))
     ∧ Ascii.is_nat m1 = Some dm1 ∧ Ascii.is_nat m0 = Some dm0
     ∧ Ascii.is_nat s1 = Some ds1 ∧ Ascii.is_nat s0 = Some ds0
     ∧ (10 * ds1 + ds0 < 60)%nat
     ∧ 125%Z = Z.of_nat (60 * (10 * dm1 + dm0) + (10 * ds1 + ds0)))
  ∧ 125%Z = 125%Z.
Proof.
  destruct formattedTime_is_MM_SS as [Hshape Hinj].
  split.
  - apply (Hshape 125%Z). lia.
  - apply (Hinj 125%Z 125%Z); [lia|lia|reflexivity].
Defined.

End CoverageExamples.
